(** * Heredity: exact inference over a pedigree by enumeration

    A shallow embedding of [heredity.py] and the properties of its
    evaluator ([joint_probability]), its enumeration ([powerset] and the
    loops of [main]), its accumulators ([update], [normalize]) and its
    reader ([load_data]), up to the table that [main] prints: the
    conditional probabilities of the hypotheses that agree with the
    evidence.

    Representation choices.
    - Python floats are read in two ways.  The first part idealises them
      as exact rationals ([Q], compared with [==]): every comparison the
      program makes on a constant ([> 0.5] on one of 0, 0.01, 0.5, 0.99, 1)
      has the same outcome in both readings, and what is proved there of
      values, bounds and tolerances is proved of the quantity that the
      program approximates.  Module [Binary64] repeats the functions that
      compute with numbers on IEEE 754 binary64 numbers, operation by
      operation; what depends on rounding (whether two computed numbers are
      the same number) is stated there.
    - Sets of names are [gset string]; the dictionaries [people] and
      [probabilities] are [gmap string _]; the inner dictionaries, whose
      keys are fixed, are records.  The order in which a dictionary or a
      set is traversed is the one of [map_to_list] and [elements].
    - A subscript [d[k]] is a lookup that raises [KeyError] when the key
      is missing, a division raises [ZeroDivisionError] on a zero divisor;
      both live in the error monad [result].  Several subscripts of one
      key inside one loop iteration are one lookup. *)

From Stdlib Require Import QArith Qabs Lqa Lia Floats.
From stdpp Require Import gmap strings list fin_maps.
Close Scope Q_scope.
(* A decimal literal of a float is the nearest binary64 number, as in Python. *)
Set Warnings "-inexact-float".

(** ** Exceptions *)

Inductive exn : Type :=
  | KeyError
  | ZeroDivisionError.

Inductive result (A : Type) : Type :=
  | Ok (a : A)
  | Raise (e : exn).
Arguments Ok {A} a.
Arguments Raise {A} e.

#[global] Instance result_ret : MRet result := λ A, Ok.
#[global] Instance result_bind : MBind result := λ A B f m,
  match m with
  | Ok a => f a
  | Raise e => Raise e
  end.

(** [for x in xs: s = body(s, x)], stopping at the first exception. *)
Fixpoint for_loop {S A : Type} (body : S → A → result S) (xs : list A) (s : S)
    : result S :=
  match xs with
  | [] => Ok s
  | x :: xs' => s' ← body s x; for_loop body xs' s'
  end.

(** [any(f(x) for x in xs)]: stops at the first true value. *)
Fixpoint any_of {A : Type} (f : A → result bool) (xs : list A) : result bool :=
  match xs with
  | [] => Ok false
  | x :: xs' => b ← f x; if (b : bool) then Ok true else any_of f xs'
  end.

(** [d[k]] *)
Definition subscript {V : Type} (d : gmap string V) (k : string) : result V :=
  match d !! k with
  | Some v => Ok v
  | None => Raise KeyError
  end.

(** The keys of a dictionary, as [for k in d] visits them. *)
Definition keys {V : Type} (d : gmap string V) : list string :=
  (map_to_list d).*1.

(** [x / y] on numbers. *)
Definition divide (x y : Q) : result Q :=
  if Qeq_bool y 0 then Raise ZeroDivisionError else Ok (x / y)%Q.

(** [x > y] on numbers. *)
Definition Qgt_bool (x y : Q) : bool := negb (Qle_bool x y).

(** [d[k] = f(k, d[k])], the body of a loop that rewrites the entries of a
    dictionary in place. *)
Definition entry_body {V : Type} (f : string → V → result V)
    (d : gmap string V) (k : string) : result (gmap string V) :=
  v ← subscript d k; v' ← f k v; Ok (<[k := v']> d).

(** ** Data model *)

(** One row of the pedigree, as [load_data] builds it. *)
Record Person : Type := mkPerson {
  name : string;
  mother : option string;
  father : option string;
  trait : option bool
}.

(** [probabilities[person]]: the ["gene"] dictionary (keys 2, 1, 0) and the
    ["trait"] dictionary (keys True, False). *)
Record Dist : Type := mkDist {
  gene_2 : Q;
  gene_1 : Q;
  gene_0 : Q;
  trait_True : Q;
  trait_False : Q
}.

(** [x in s] for a name, and for a parent field that may be [None]. *)
Definition is_in (x : string) (s : gset string) : bool := bool_decide (x ∈ s).

Definition parent_in (x : option string) (s : gset string) : bool :=
  match x with
  | Some n => is_in n s
  | None => false
  end.

(** ** PROBS *)

Definition PROBS_gene (copies : nat) : result Q :=
  match copies with
  | 2 => Ok 0.01%Q
  | 1 => Ok 0.03%Q
  | 0 => Ok 0.96%Q
  | _ => Raise KeyError
  end.

Definition PROBS_trait (copies : nat) (has_trait : bool) : result Q :=
  match copies, has_trait with
  | 2, true => Ok 0.65%Q
  | 2, false => Ok 0.35%Q
  | 1, true => Ok 0.56%Q
  | 1, false => Ok 0.44%Q
  | 0, true => Ok 0.01%Q
  | 0, false => Ok 0.99%Q
  | _, _ => Raise KeyError
  end.

Definition PROBS_mutation : Q := 0.01%Q.

(** ** joint_probability *)

(** A gene count read as a number, as in [mother_has_gene / 2]. *)
Definition num (n : nat) : Q := inject_Z (Z.of_nat n).

(** [(1 - PROBS["mutation"]) if p > 0.5 else PROBS["mutation"]] *)
Definition apply_mutation (p : Q) : Q :=
  if Qgt_bool p 0.5 then (1 - PROBS_mutation)%Q else PROBS_mutation.

(** The [else] branch of the parent test: the probability of the person's
    gene count from the two parents' gene counts.  Each [let] is one
    assignment of the source, in its order. *)
Definition inherited (gene_copies mother_has_gene father_has_gene : nat) : Q :=
  match gene_copies with
  | 0 =>
      let prob_no_gene_from_mother :=
        if (0 <? mother_has_gene)%nat then (1 - num mother_has_gene / 2)%Q else 0.99%Q in
      let prob_no_gene_from_father :=
        if (0 <? father_has_gene)%nat then (1 - num father_has_gene / 2)%Q else 0.99%Q in
      let prob_no_gene_from_mother := apply_mutation prob_no_gene_from_mother in
      let prob_no_gene_from_father := apply_mutation prob_no_gene_from_father in
      (prob_no_gene_from_mother * prob_no_gene_from_father)%Q
  | 1 =>
      let prob_gene_from_mother :=
        if (0 <? mother_has_gene)%nat then (num mother_has_gene / 2)%Q else 0.01%Q in
      let prob_no_gene_from_father :=
        if (0 <? father_has_gene)%nat then (1 - num father_has_gene / 2)%Q else 0.99%Q in
      let prob_gene_from_mother := apply_mutation prob_gene_from_mother in
      let prob_no_gene_from_father := apply_mutation prob_no_gene_from_father in
      let prob_gene_from_father :=
        if (0 <? father_has_gene)%nat then (num father_has_gene / 2)%Q else 0.01%Q in
      let prob_no_gene_from_mother :=
        if (0 <? mother_has_gene)%nat then (1 - num mother_has_gene / 2)%Q else 0.99%Q in
      let prob_gene_from_father := apply_mutation prob_gene_from_father in
      let prob_no_gene_from_mother := apply_mutation prob_no_gene_from_mother in
      (prob_gene_from_mother * prob_no_gene_from_father
       + prob_gene_from_father * prob_no_gene_from_mother)%Q
  | _ =>
      let prob_gene_from_mother :=
        if (0 <? mother_has_gene)%nat then (num mother_has_gene / 2)%Q else 0.01%Q in
      let prob_gene_from_father :=
        if (0 <? father_has_gene)%nat then (num father_has_gene / 2)%Q else 0.01%Q in
      let prob_gene_from_mother := apply_mutation prob_gene_from_mother in
      let prob_gene_from_father := apply_mutation prob_gene_from_father in
      (prob_gene_from_mother * prob_gene_from_father)%Q
  end.

(** [2 if x in two_genes else 1 if x in one_gene else 0] *)
Definition copies_of (one_gene two_genes : gset string) (x : option string) : nat :=
  if parent_in x two_genes then 2 else if parent_in x one_gene then 1 else 0.

(** The gene-count factor of one person: [person_prob] before it is
    multiplied by the trait factor. *)
Definition gene_factor (one_gene two_genes : gset string)
    (person : string) (row : Person) : result Q :=
  let gene_copies := copies_of one_gene two_genes (Some person) in
  if bool_decide (mother row = None) && bool_decide (father row = None) then
    PROBS_gene gene_copies
  else
    let mother_has_gene := copies_of one_gene two_genes (mother row) in
    let father_has_gene := copies_of one_gene two_genes (father row) in
    Ok (inherited gene_copies mother_has_gene father_has_gene).

(** The body of the loop over [people]. *)
Definition person_prob (people : gmap string Person)
    (one_gene two_genes have_trait : gset string) (person : string) : result Q :=
  let gene_copies := copies_of one_gene two_genes (Some person) in
  let has_trait := is_in person have_trait in
  row ← subscript people person;
  person_prob ← gene_factor one_gene two_genes person row;
  t ← PROBS_trait gene_copies has_trait;
  Ok (person_prob * t)%Q.

Definition joint_probability (people : gmap string Person)
    (one_gene two_genes have_trait : gset string) : result Q :=
  for_loop
    (λ joint_prob person,
       person_prob ← person_prob people one_gene two_genes have_trait person;
       Ok (joint_prob * person_prob)%Q)
    (keys people) 1%Q.

(** ** powerset *)

(** [itertools.combinations(s, r)]: the sub-sequences of [s] of length [r],
    in the order of their positions. *)
Fixpoint combinations {A : Type} (s : list A) (r : nat) {struct s} : list (list A) :=
  match r with
  | 0 => [[]]
  | S r' =>
      match s with
      | [] => []
      | x :: s' => (cons x <$> combinations s' r') ++ combinations s' r
      end
  end.

(** [chain.from_iterable(combinations(s, r) for r in range(len(s) + 1))],
    each combination turned into a set. *)
Definition powerset (s : gset string) : list (gset string) :=
  let s := elements s in
  list_to_set <$> (seq 0 (length s + 1) ≫= combinations s).

(** The pairs that the two loops of [main] over [one_gene] and [two_genes]
    go through, in their order. *)
Definition gene_hypotheses (names : gset string) : list (gset string * gset string) :=
  powerset names ≫= λ one_gene,
    powerset (names ∖ one_gene) ≫= λ two_genes, [(one_gene, two_genes)].

(** ** update *)

Definition add_gene (copies : nat) (p : Q) (d : Dist) : Dist :=
  match copies with
  | 2 => mkDist (gene_2 d + p)%Q (gene_1 d) (gene_0 d) (trait_True d) (trait_False d)
  | 1 => mkDist (gene_2 d) (gene_1 d + p)%Q (gene_0 d) (trait_True d) (trait_False d)
  | _ => mkDist (gene_2 d) (gene_1 d) (gene_0 d + p)%Q (trait_True d) (trait_False d)
  end.

Definition add_trait (has_trait : bool) (p : Q) (d : Dist) : Dist :=
  if has_trait
  then mkDist (gene_2 d) (gene_1 d) (gene_0 d) (trait_True d + p)%Q (trait_False d)
  else mkDist (gene_2 d) (gene_1 d) (gene_0 d) (trait_True d) (trait_False d + p)%Q.

(** The two statements of the loop body of [update], on the entry of
    [person]. *)
Definition update_entry (one_gene two_genes have_trait : gset string) (p : Q)
    (person : string) (d : Dist) : Dist :=
  let d :=
    if is_in person two_genes then add_gene 2 p d
    else if is_in person one_gene then add_gene 1 p d
    else add_gene 0 p d in
  add_trait (is_in person have_trait) p d.

Definition update (probabilities : gmap string Dist)
    (one_gene two_genes have_trait : gset string) (p : Q)
    : result (gmap string Dist) :=
  for_loop
    (λ probabilities person,
       d ← subscript probabilities person;
       Ok (<[person := update_entry one_gene two_genes have_trait p person d]>
             probabilities))
    (keys probabilities) probabilities.

(** ** normalize *)

(** [sum(...values())]: the values are added to 0 in the order of the keys. *)
Definition gene_sum (d : Dist) : Q := (0 + gene_2 d + gene_1 d + gene_0 d)%Q.
Definition trait_sum (d : Dist) : Q := (0 + trait_True d + trait_False d)%Q.

Definition normalize_gene (d : Dist) : result Dist :=
  let gene_sum := gene_sum d in
  if Qgt_bool gene_sum 0 then
    g2 ← divide (gene_2 d) gene_sum;
    g1 ← divide (gene_1 d) gene_sum;
    g0 ← divide (gene_0 d) gene_sum;
    Ok (mkDist g2 g1 g0 (trait_True d) (trait_False d))
  else Ok d.

Definition normalize_trait (d : Dist) : result Dist :=
  let trait_sum := trait_sum d in
  if Qgt_bool trait_sum 0 then
    tt ← divide (trait_True d) trait_sum;
    tf ← divide (trait_False d) trait_sum;
    Ok (mkDist (gene_2 d) (gene_1 d) (gene_0 d) tt tf)
  else Ok d.

(** The loop body of [normalize], on the entry of one person. *)
Definition normalize_entry (d : Dist) : result Dist :=
  d ← normalize_gene d;
  normalize_trait d.

Definition normalize (probabilities : gmap string Dist) : result (gmap string Dist) :=
  for_loop
    (λ probabilities person,
       d ← subscript probabilities person;
       d ← normalize_entry d;
       Ok (<[person := d]> probabilities))
    (keys probabilities) probabilities.

(** ** main *)

Definition zero_dist : Dist := mkDist 0 0 0 0 0.

(** [fails_evidence] for one candidate [have_trait]. *)
Definition fails_evidence (people : gmap string Person) (names have_trait : gset string)
    : result bool :=
  any_of
    (λ person,
       row ← subscript people person;
       Ok (bool_decide (trait row ≠ None)
           && bool_decide (trait row ≠ Some (is_in person have_trait))))
    (elements names).

(** The two inner loops, over [one_gene] and [two_genes]. *)
Definition gene_loops (people : gmap string Person) (names have_trait : gset string)
    (probabilities : gmap string Dist) : result (gmap string Dist) :=
  for_loop
    (λ probabilities one_gene,
       for_loop
         (λ probabilities two_genes,
            p ← joint_probability people one_gene two_genes have_trait;
            update probabilities one_gene two_genes have_trait p)
         (powerset (names ∖ one_gene)) probabilities)
    (powerset names) probabilities.

(** The body of the loop over [have_trait]. *)
Definition trait_step (people : gmap string Person) (names : gset string)
    (probabilities : gmap string Dist) (have_trait : gset string)
    : result (gmap string Dist) :=
  fails ← fails_evidence people names have_trait;
  if (fails : bool) then Ok probabilities
  else gene_loops people names have_trait probabilities.

(** [main] up to the call of [normalize]: the accumulators. *)
Definition accumulate (people : gmap string Person) : result (gmap string Dist) :=
  let probabilities := (λ _, zero_dist) <$> people in
  let names := dom people in
  for_loop (trait_step people names) (powerset names) probabilities.

(** [main], from the loaded [people] to the table it prints. *)
Definition main (people : gmap string Person) : result (gmap string Dist) :=
  probabilities ← accumulate people;
  normalize probabilities.

(** ** The transmission model of the specification *)

(** The probability that a parent with gene count [g] passes the gene on:
    [base*(1-m) + (1-base)*m] with [base = g/2]. *)
Definition spec_transmit (g : nat) : Q :=
  let base := (num g / 2)%Q in
  let m := PROBS_mutation in
  (base * (1 - m) + (1 - base) * m)%Q.

(** The gene-count factor of a person with recorded parents, from the
    transmission probabilities of the mother and of the father. *)
Definition spec_gene_factor (gene_copies mother_has_gene father_has_gene : nat) : Q :=
  let tm := spec_transmit mother_has_gene in
  let tf := spec_transmit father_has_gene in
  match gene_copies with
  | 0 => ((1 - tm) * (1 - tf))%Q
  | 1 => (tm * (1 - tf) + (1 - tm) * tf)%Q
  | _ => (tm * tf)%Q
  end.

(** ** Evidence and accumulation *)

(** A candidate [have_trait] agrees with the observed traits. *)
Definition evidence_consistent (people : gmap string Person) (have_trait : gset string)
    : Prop :=
  ∀ person row, people !! person = Some row →
    (trait row = Some true → person ∈ have_trait)
    ∧ (trait row = Some false → person ∉ have_trait).

(** The people observed with the trait: the smallest candidate that agrees
    with the evidence. *)
Definition observed_with_trait (people : gmap string Person) : gset string :=
  dom (filter (λ entry, trait entry.2 = Some true) people).

(** The tables that [main] can hold between two calls of [update]: the
    initial table, then one call of [update] after the other, each for a
    candidate that passed the evidence test and with the joint probability
    of its hypothesis.  [total] is the sum of the probabilities added. *)
Inductive accumulated (people : gmap string Person) : gmap string Dist → Q → Prop :=
  | accumulated_init :
      accumulated people ((λ _, zero_dist) <$> people) 0%Q
  | accumulated_update probabilities total one_gene two_genes have_trait p probabilities' :
      accumulated people probabilities total →
      evidence_consistent people have_trait →
      joint_probability people one_gene two_genes have_trait = Ok p →
      update probabilities one_gene two_genes have_trait p = Ok probabilities' →
      accumulated people probabilities' (total + p)%Q.

(** [p] was added to one of the three gene cells, the other two are as
    they were; the same for the two trait cells. *)
Definition one_gene_cell_added (p : Q) (d d' : Dist) : Prop :=
  (gene_2 d' = (gene_2 d + p)%Q ∧ gene_1 d' = gene_1 d ∧ gene_0 d' = gene_0 d)
  ∨ (gene_2 d' = gene_2 d ∧ gene_1 d' = (gene_1 d + p)%Q ∧ gene_0 d' = gene_0 d)
  ∨ (gene_2 d' = gene_2 d ∧ gene_1 d' = gene_1 d ∧ gene_0 d' = (gene_0 d + p)%Q).

Definition one_trait_cell_added (p : Q) (d d' : Dist) : Prop :=
  (trait_True d' = (trait_True d + p)%Q ∧ trait_False d' = trait_False d)
  ∨ (trait_True d' = trait_True d ∧ trait_False d' = (trait_False d + p)%Q).

(** ** Example pedigrees *)

(** A child with both parents in the data. *)
Definition child_row : Person := mkPerson "C" (Some "M") (Some "F") None.

Definition family : gmap string Person :=
  <["C" := child_row]>
    (<["M" := mkPerson "M" None None None]>
       (<["F" := mkPerson "F" None None None]> ∅)).

(** One person, without parents and without an observed trait. *)
Definition single : gmap string Person :=
  {[ "A" := mkPerson "A" None None None ]}.

(** One person whose trait was observed. *)
Definition observed : gmap string Person :=
  {[ "A" := mkPerson "A" None None (Some true) ]}.

(** A child whose recorded parents are no rows of the data. *)
Definition orphan : gmap string Person :=
  {[ "X" := mkPerson "X" (Some "Y") (Some "Z") None ]}.

(** Some row names a mother or a father that is no row of the data. *)
Definition has_missing_parent (people : gmap string Person) : Prop :=
  ∃ person row parent,
    people !! person = Some row
    ∧ (mother row = Some parent ∨ father row = Some parent)
    ∧ people !! parent = None.

(** A table of accumulators with positive sums. *)
Definition sample_table : gmap string Dist :=
  {[ "A" := mkDist 0.25 0.5 0.25 3 1 ]}.

(** A table whose trait cells are all zero, and one whose gene cells are. *)
Definition gene_only : gmap string Dist := {[ "A" := mkDist 1 2 1 0 0 ]}.
Definition trait_only : gmap string Dist := {[ "A" := mkDist 0 0 0 3 1 ]}.

(** ** Counting *)

(** All the sub-sequences of a list, built by recursion on the list: the
    reference enumeration that [powerset] is counted against. *)
Fixpoint sublists {A : Type} (l : list A) : list (list A) :=
  match l with
  | [] => [[]]
  | x :: l' => (cons x <$> sublists l') ++ sublists l'
  end.

(** ** Tables up to equal numbers *)

(** [probabilities[person]["gene"][copies]] and
    [probabilities[person]["trait"][has_trait]]. *)
Definition gene_cell (copies : nat) (d : Dist) : Q :=
  match copies with
  | 2 => gene_2 d
  | 1 => gene_1 d
  | _ => gene_0 d
  end.

Definition trait_cell (has_trait : bool) (d : Dist) : Q :=
  if has_trait then trait_True d else trait_False d.

(** The same number in every cell, and the same keys with such entries. *)
Definition dist_equiv (d d' : Dist) : Prop :=
  (gene_2 d == gene_2 d')%Q ∧ (gene_1 d == gene_1 d')%Q ∧ (gene_0 d == gene_0 d')%Q
  ∧ (trait_True d == trait_True d')%Q ∧ (trait_False d == trait_False d')%Q.

Definition table_equiv (t t' : gmap string Dist) : Prop :=
  ∀ person, option_Forall2 dist_equiv (t !! person) (t' !! person).

(** A call of [update]: its [one_gene], [two_genes], [have_trait] and [p]. *)
Record Call : Type := mkCall {
  call_one_gene : gset string;
  call_two_genes : gset string;
  call_have_trait : gset string;
  call_p : Q
}.

(** One call of [update] after the other, on the same table. *)
Definition update_all (calls : list Call) (probabilities : gmap string Dist)
    : result (gmap string Dist) :=
  for_loop
    (λ probabilities c,
       update probabilities (call_one_gene c) (call_two_genes c)
         (call_have_trait c) (call_p c))
    calls probabilities.

(** Every cell multiplied by [c]. *)
Definition scale (c : Q) (d : Dist) : Dist :=
  mkDist (c * gene_2 d)%Q (c * gene_1 d)%Q (c * gene_0 d)%Q
    (c * trait_True d)%Q (c * trait_False d)%Q.

(** ** Pedigrees rewritten *)

(** The row with the mother and the father exchanged. *)
Definition swap_parents (row : Person) : Person :=
  mkPerson (name row) (father row) (mother row) (trait row).

(** The pedigree with every name replaced by its image under [f]: the keys,
    and the names that the rows hold. *)
Definition rename_row (f : string → string) (row : Person) : Person :=
  mkPerson (f (name row)) (f <$> mother row) (f <$> father row) (trait row).

Definition rename (f : string → string) (people : gmap string Person)
    : gmap string Person :=
  kmap f (rename_row f <$> people).

(** ** load_data *)

(** [x or None] on a string: the empty string counts as false. *)
Definition or_None (x : string) : option string :=
  if decide (x = "") then None else Some x.

(** [True if t == "1" else False if t == "0" else None] *)
Definition parse_trait (t : string) : option bool :=
  if decide (t = "1") then Some true
  else if decide (t = "0") then Some false
  else None.

(** The body of the loop over the reader.  A row is the dictionary that
    [csv.DictReader] yields for one line: from the column names of the
    header to the strings of the line (a line shorter than the header, for
    which the reader stores [None], is not a row of this model). *)
Definition load_row (data : gmap string Person) (row : gmap string string)
    : result (gmap string Person) :=
  name ← subscript row "name";
  mother ← subscript row "mother";
  father ← subscript row "father";
  trait ← subscript row "trait";
  Ok (<[name := mkPerson name (or_None mother) (or_None father) (parse_trait trait)]>
        data).

(** [load_data], from the rows of the reader to the dictionary [people]. *)
Definition load_data (rows : list (gmap string string)) : result (gmap string Person) :=
  for_loop load_row rows ∅.

(** The row of a line [name,mother,father,trait] under that header. *)
Definition csv_row (name mother father trait : string) : gmap string string :=
  <["name" := name]> (<["mother" := mother]> (<["father" := father]>
    (<["trait" := trait]> ∅))).

(** The row has the four columns that [load_data] reads. *)
Definition has_columns (row : gmap string string) : Prop :=
  is_Some (row !! "name") ∧ is_Some (row !! "mother")
  ∧ is_Some (row !! "father") ∧ is_Some (row !! "trait").

(** ** The hypotheses that main enumerates *)

(** [sum(l)] of numbers. *)
Definition Qsum (l : list Q) : Q := foldr Qplus 0%Q l.

(** The number that [joint_probability] returns. *)
Definition joint_value (people : gmap string Person)
    (one_gene two_genes have_trait : gset string) : Q :=
  match joint_probability people one_gene two_genes have_trait with
  | Ok q => q
  | Raise _ => 0%Q
  end.

(** [not fails_evidence] for the candidate [have_trait]. *)
Definition passes_evidence (people : gmap string Person) (have_trait : gset string) : bool :=
  match fails_evidence people (dom people) have_trait with
  | Ok fails => negb fails
  | Raise _ => false
  end.

(** The hypotheses that [main] goes through, in its order: for each
    candidate [have_trait] that passes the evidence test, each pair of
    [one_gene] and [two_genes]. *)
Definition hypotheses (people : gmap string Person)
    : list (gset string * gset string * gset string) :=
  powerset (dom people) ≫= λ have_trait,
    if passes_evidence people have_trait then
      gene_hypotheses (dom people) ≫= λ h, [(h.1, h.2, have_trait)]
    else [].

(** The calls of [update] that [main] makes, in their order. *)
Definition calls (people : gmap string Person) : list Call :=
  (λ h, mkCall h.1.1 h.1.2 h.2 (joint_value people h.1.1 h.1.2 h.2))
    <$> hypotheses people.

(** What a call adds to the gene cell [copies] and to the trait cell
    [has_trait] of [person]. *)
Definition gene_share (person : string) (copies : nat) (c : Call) : Q :=
  if decide (copies_of (call_one_gene c) (call_two_genes c) (Some person) = copies)
  then call_p c else 0%Q.

Definition trait_share (person : string) (has_trait : bool) (c : Call) : Q :=
  if decide (is_in person (call_have_trait c) = has_trait) then call_p c else 0%Q.

(** ** People without recorded parents *)

(** [PROBS["gene"][copies]] and [PROBS["trait"][copies][has_trait]] as
    numbers, and their product: the factor of a person without parents. *)
Definition prior (copies : nat) : Q :=
  match PROBS_gene copies with Ok q => q | Raise _ => 0%Q end.

Definition likelihood (copies : nat) (has_trait : bool) : Q :=
  match PROBS_trait copies has_trait with Ok q => q | Raise _ => 0%Q end.

Definition founder_weight (copies : nat) (has_trait : bool) : Q :=
  (prior copies * likelihood copies has_trait)%Q.

(** The gene counts that a hypothesis can give to a person. *)
Definition gene_counts : list nat := [0; 1; 2].

(** No row records a parent. *)
Definition founders (people : gmap string Person) : Prop :=
  ∀ person row, people !! person = Some row → mother row = None ∧ father row = None.

(** The trait values that the evidence test lets through for a row. *)
Definition allowed (row : Person) : list bool :=
  match trait row with
  | Some b => [b]
  | None => [false; true]
  end.

(** The hypothesis [h] with the person [k] added: [copies] copies of the
    gene and the trait [has_trait]. *)
Definition add_person (k : string) (copies : nat) (has_trait : bool)
    (h : gset string * gset string * gset string)
    : gset string * gset string * gset string :=
  (if decide (copies = 1) then {[k]} ∪ h.1.1 else h.1.1,
   if decide (copies = 2) then {[k]} ∪ h.1.2 else h.1.2,
   if has_trait then {[k]} ∪ h.2 else h.2).

(** The joint probabilities of all the hypotheses of [main], each weighted
    by [ψ]. *)
Definition weighted_sum (people : gmap string Person)
    (ψ : gset string * gset string * gset string → Q) : Q :=
  Qsum ((λ h, ψ h * joint_value people h.1.1 h.1.2 h.2)%Q <$> hypotheses people).

(** 1 on the hypotheses that give [person] the gene count [copies], or the
    trait value [has_trait], and 0 on the others. *)
Definition gene_indicator (person : string) (copies : nat)
    (h : gset string * gset string * gset string) : Q :=
  if decide (copies_of h.1.1 h.1.2 (Some person) = copies) then 1%Q else 0%Q.

Definition trait_indicator (person : string) (has_trait : bool)
    (h : gset string * gset string * gset string) : Q :=
  if decide (is_in person h.2 = has_trait) then 1%Q else 0%Q.

(** For a row without parents: the weight of a gene count, of a trait value
    and of the row as a whole, over the trait values that the evidence
    allows. *)
Definition gene_mass (row : Person) (copies : nat) : Q :=
  Qsum ((λ t, founder_weight copies t) <$> allowed row).

Definition trait_mass (row : Person) (has_trait : bool) : Q :=
  Qsum ((λ t, if decide (t = has_trait)
              then Qsum ((λ g, founder_weight g t) <$> gene_counts) else 0%Q)
          <$> allowed row).

Definition row_mass (row : Person) : Q :=
  Qsum ((λ t, Qsum ((λ g, founder_weight g t) <$> gene_counts)) <$> allowed row).

(** Three people without recorded parents: one with an unknown trait, one
    observed with it and one observed without it. *)
Definition unrelated : gmap string Person :=
  <["A" := mkPerson "A" None None None]>
    (<["B" := mkPerson "B" None None (Some true)]>
       (<["Z" := mkPerson "Z" None None (Some false)]> ∅)).

(** ** The program in binary64 arithmetic *)

(** The definitions above compute with exact rationals.  The program
    computes with Python floats, that is with IEEE 754 binary64 numbers: a
    literal is the nearest number, each [+], [-], [*] and [/] rounds to
    nearest, [sum] adds its items to 0 from left to right, an integer 0 or 1
    that meets a float is the float 0 or 1, and a division by zero raises.
    This module repeats the functions that compute with numbers, operation
    by operation, on [float]; what does not compute with numbers ([is_in],
    [copies_of], [powerset], [fails_evidence], the loops) is shared with
    the definitions above. *)
Module Binary64.

(** [x / y] on floats. *)
Definition divide (x y : float) : result float :=
  if (y =? 0)%float then Raise ZeroDivisionError else Ok (x / y)%float.

(** [probabilities[person]], with the cells of the program. *)
Record Dist : Type := mkDist {
  gene_2 : float;
  gene_1 : float;
  gene_0 : float;
  trait_True : float;
  trait_False : float
}.

Definition PROBS_gene (copies : nat) : result float :=
  match copies with
  | 2 => Ok 0.01%float
  | 1 => Ok 0.03%float
  | 0 => Ok 0.96%float
  | _ => Raise KeyError
  end.

Definition PROBS_trait (copies : nat) (has_trait : bool) : result float :=
  match copies, has_trait with
  | 2, true => Ok 0.65%float
  | 2, false => Ok 0.35%float
  | 1, true => Ok 0.56%float
  | 1, false => Ok 0.44%float
  | 0, true => Ok 0.01%float
  | 0, false => Ok 0.99%float
  | _, _ => Raise KeyError
  end.

Definition PROBS_mutation : float := 0.01%float.

(** A gene count read as a float, as in [mother_has_gene / 2]. *)
Fixpoint num (n : nat) : float :=
  match n with
  | 0 => 0%float
  | S n' => (num n' + 1)%float
  end.

(** [(1 - PROBS["mutation"]) if p > 0.5 else PROBS["mutation"]] *)
Definition apply_mutation (p : float) : float :=
  if (0.5 <? p)%float then (1 - PROBS_mutation)%float else PROBS_mutation.

Definition inherited (gene_copies mother_has_gene father_has_gene : nat) : float :=
  match gene_copies with
  | 0 =>
      let prob_no_gene_from_mother :=
        if (0 <? mother_has_gene)%nat
        then (1 - num mother_has_gene / 2)%float else 0.99%float in
      let prob_no_gene_from_father :=
        if (0 <? father_has_gene)%nat
        then (1 - num father_has_gene / 2)%float else 0.99%float in
      let prob_no_gene_from_mother := apply_mutation prob_no_gene_from_mother in
      let prob_no_gene_from_father := apply_mutation prob_no_gene_from_father in
      (prob_no_gene_from_mother * prob_no_gene_from_father)%float
  | 1 =>
      let prob_gene_from_mother :=
        if (0 <? mother_has_gene)%nat
        then (num mother_has_gene / 2)%float else 0.01%float in
      let prob_no_gene_from_father :=
        if (0 <? father_has_gene)%nat
        then (1 - num father_has_gene / 2)%float else 0.99%float in
      let prob_gene_from_mother := apply_mutation prob_gene_from_mother in
      let prob_no_gene_from_father := apply_mutation prob_no_gene_from_father in
      let prob_gene_from_father :=
        if (0 <? father_has_gene)%nat
        then (num father_has_gene / 2)%float else 0.01%float in
      let prob_no_gene_from_mother :=
        if (0 <? mother_has_gene)%nat
        then (1 - num mother_has_gene / 2)%float else 0.99%float in
      let prob_gene_from_father := apply_mutation prob_gene_from_father in
      let prob_no_gene_from_mother := apply_mutation prob_no_gene_from_mother in
      (prob_gene_from_mother * prob_no_gene_from_father
       + prob_gene_from_father * prob_no_gene_from_mother)%float
  | _ =>
      let prob_gene_from_mother :=
        if (0 <? mother_has_gene)%nat
        then (num mother_has_gene / 2)%float else 0.01%float in
      let prob_gene_from_father :=
        if (0 <? father_has_gene)%nat
        then (num father_has_gene / 2)%float else 0.01%float in
      let prob_gene_from_mother := apply_mutation prob_gene_from_mother in
      let prob_gene_from_father := apply_mutation prob_gene_from_father in
      (prob_gene_from_mother * prob_gene_from_father)%float
  end.

Definition gene_factor (one_gene two_genes : gset string)
    (person : string) (row : Person) : result float :=
  let gene_copies := copies_of one_gene two_genes (Some person) in
  if bool_decide (mother row = None) && bool_decide (father row = None) then
    PROBS_gene gene_copies
  else
    let mother_has_gene := copies_of one_gene two_genes (mother row) in
    let father_has_gene := copies_of one_gene two_genes (father row) in
    Ok (inherited gene_copies mother_has_gene father_has_gene).

(** The body of the loop over [people]. *)
Definition person_prob (people : gmap string Person)
    (one_gene two_genes have_trait : gset string) (person : string) : result float :=
  let gene_copies := copies_of one_gene two_genes (Some person) in
  let has_trait := is_in person have_trait in
  row ← subscript people person;
  person_prob ← gene_factor one_gene two_genes person row;
  t ← PROBS_trait gene_copies has_trait;
  Ok (person_prob * t)%float.

Definition joint_probability (people : gmap string Person)
    (one_gene two_genes have_trait : gset string) : result float :=
  for_loop
    (λ joint_prob person,
       person_prob ← person_prob people one_gene two_genes have_trait person;
       Ok (joint_prob * person_prob)%float)
    (keys people) 1%float.

(** [update] *)
Definition add_gene (copies : nat) (p : float) (d : Dist) : Dist :=
  match copies with
  | 2 => mkDist (gene_2 d + p)%float (gene_1 d) (gene_0 d) (trait_True d) (trait_False d)
  | 1 => mkDist (gene_2 d) (gene_1 d + p)%float (gene_0 d) (trait_True d) (trait_False d)
  | _ => mkDist (gene_2 d) (gene_1 d) (gene_0 d + p)%float (trait_True d) (trait_False d)
  end.

Definition add_trait (has_trait : bool) (p : float) (d : Dist) : Dist :=
  if has_trait
  then mkDist (gene_2 d) (gene_1 d) (gene_0 d) (trait_True d + p)%float (trait_False d)
  else mkDist (gene_2 d) (gene_1 d) (gene_0 d) (trait_True d) (trait_False d + p)%float.

Definition update_entry (one_gene two_genes have_trait : gset string) (p : float)
    (person : string) (d : Dist) : Dist :=
  let d :=
    if is_in person two_genes then add_gene 2 p d
    else if is_in person one_gene then add_gene 1 p d
    else add_gene 0 p d in
  add_trait (is_in person have_trait) p d.

Definition update (probabilities : gmap string Dist)
    (one_gene two_genes have_trait : gset string) (p : float)
    : result (gmap string Dist) :=
  for_loop
    (λ probabilities person,
       d ← subscript probabilities person;
       Ok (<[person := update_entry one_gene two_genes have_trait p person d]>
             probabilities))
    (keys probabilities) probabilities.

(** [normalize]: [sum(...values())] adds the values to 0 in the order of
    the keys, one rounded addition after the other. *)
Definition gene_sum (d : Dist) : float := (0 + gene_2 d + gene_1 d + gene_0 d)%float.
Definition trait_sum (d : Dist) : float := (0 + trait_True d + trait_False d)%float.

Definition normalize_gene (d : Dist) : result Dist :=
  let gene_sum := gene_sum d in
  if (0 <? gene_sum)%float then
    g2 ← divide (gene_2 d) gene_sum;
    g1 ← divide (gene_1 d) gene_sum;
    g0 ← divide (gene_0 d) gene_sum;
    Ok (mkDist g2 g1 g0 (trait_True d) (trait_False d))
  else Ok d.

Definition normalize_trait (d : Dist) : result Dist :=
  let trait_sum := trait_sum d in
  if (0 <? trait_sum)%float then
    tt ← divide (trait_True d) trait_sum;
    tf ← divide (trait_False d) trait_sum;
    Ok (mkDist (gene_2 d) (gene_1 d) (gene_0 d) tt tf)
  else Ok d.

Definition normalize_entry (d : Dist) : result Dist :=
  d ← normalize_gene d;
  normalize_trait d.

Definition normalize (probabilities : gmap string Dist) : result (gmap string Dist) :=
  for_loop
    (λ probabilities person,
       d ← subscript probabilities person;
       d ← normalize_entry d;
       Ok (<[person := d]> probabilities))
    (keys probabilities) probabilities.

(** [main] *)
Definition zero_dist : Dist := mkDist 0 0 0 0 0.

Definition gene_loops (people : gmap string Person) (names have_trait : gset string)
    (probabilities : gmap string Dist) : result (gmap string Dist) :=
  for_loop
    (λ probabilities one_gene,
       for_loop
         (λ probabilities two_genes,
            p ← joint_probability people one_gene two_genes have_trait;
            update probabilities one_gene two_genes have_trait p)
         (powerset (names ∖ one_gene)) probabilities)
    (powerset names) probabilities.

Definition trait_step (people : gmap string Person) (names : gset string)
    (probabilities : gmap string Dist) (have_trait : gset string)
    : result (gmap string Dist) :=
  fails ← fails_evidence people names have_trait;
  if (fails : bool) then Ok probabilities
  else gene_loops people names have_trait probabilities.

Definition accumulate (people : gmap string Person) : result (gmap string Dist) :=
  let probabilities := (λ _, zero_dist) <$> people in
  let names := dom people in
  for_loop (trait_step people names) (powerset names) probabilities.

Definition main (people : gmap string Person) : result (gmap string Dist) :=
  probabilities ← accumulate people;
  normalize probabilities.

(** A call of [update], and one call after the other on the same table. *)
Record Call : Type := mkCall {
  call_one_gene : gset string;
  call_two_genes : gset string;
  call_have_trait : gset string;
  call_p : float
}.

Definition update_all (calls : list Call) (probabilities : gmap string Dist)
    : result (gmap string Dist) :=
  for_loop
    (λ probabilities c,
       update probabilities (call_one_gene c) (call_two_genes c)
         (call_have_trait c) (call_p c))
    calls probabilities.

(** What a sequence of calls leaves in a gene cell and in a trait cell of
    [person] that held [start]: the values of the calls that give the person
    this gene count, or this trait value, added one after the other. *)
Definition gene_total (person : string) (copies : nat) (calls : list Call)
    (start : float) : float :=
  foldl (λ x c,
           if decide (copies_of (call_one_gene c) (call_two_genes c) (Some person) = copies)
           then (x + call_p c)%float else x)
    start calls.

Definition trait_total (person : string) (has_trait : bool) (calls : list Call)
    (start : float) : float :=
  foldl (λ x c,
           if decide (is_in person (call_have_trait c) = has_trait)
           then (x + call_p c)%float else x)
    start calls.

(** The entry [d] of [person] after the calls, cell by cell. *)
Definition after_calls (person : string) (calls : list Call) (d : Dist) : Dist :=
  mkDist (gene_total person 2 calls (gene_2 d))
    (gene_total person 1 calls (gene_1 d))
    (gene_total person 0 calls (gene_0 d))
    (trait_total person true calls (trait_True d))
    (trait_total person false calls (trait_False d)).

(** The calls of [update] that [main] makes for [single], in its order:
    nobody has the trait, then the person has it; within each, no copy, one
    copy, two copies. *)
Definition single_calls (have_trait : gset string) : list Call :=
  [ mkCall ∅ ∅ have_trait
      (if is_in "A" have_trait then 0.96 * 0.01 else 0.96 * 0.99)%float;
    mkCall {["A"]} ∅ have_trait
      (if is_in "A" have_trait then 0.03 * 0.56 else 0.03 * 0.44)%float;
    mkCall ∅ {["A"]} have_trait
      (if is_in "A" have_trait then 0.01 * 0.65 else 0.01 * 0.35)%float ].


Definition scale (c : float) (d : Dist) : Dist :=
  mkDist (c * gene_2 d)%float (c * gene_1 d)%float (c * gene_0 d)%float
    (c * trait_True d)%float (c * trait_False d)%float.

End Binary64.

(** ** Loops and lookups *)

Section Loops.
Context {S A : Type}.
Implicit Types (body : S → A → result S) (xs : list A) (s : S).

(** A loop whose body never raises and keeps an invariant returns, in a
    state that satisfies the invariant. *)
Lemma for_loop_invariant (I : S → Prop) body xs s :
  I s →
  (∀ s x, x ∈ xs → I s → ∃ s', body s x = Ok s' ∧ I s') →
  ∃ s', for_loop body xs s = Ok s' ∧ I s'.
Proof.
  revert s. induction xs as [|x xs IH]; intros s Hs Hbody; simpl.
  - eauto.
  - destruct (Hbody s x) as (s1 & -> & Hs1); [left | done |]. simpl.
    apply IH; [done |]. intros s2 y Hy. apply Hbody. by right.
Qed.

Lemma for_loop_app body xs ys s :
  for_loop body (xs ++ ys) s = for_loop body xs s ≫= for_loop body ys.
Proof.
  revert s. induction xs as [|x xs IH]; intros s; simpl; [done |].
  destruct (body s x) as [s1|e]; simpl; [apply IH | done].
Qed.
End Loops.

Lemma elem_of_keys {V : Type} (d : gmap string V) (k : string) :
  k ∈ keys d ↔ is_Some (d !! k).
Proof.
  unfold keys. rewrite list_elem_of_fmap. split.
  - intros ([k' v] & -> & Hin). apply elem_of_map_to_list in Hin. eauto.
  - intros [v Hv]. exists (k, v). split; [done |]. by apply elem_of_map_to_list.
Qed.

Lemma NoDup_keys {V : Type} (d : gmap string V) : NoDup (keys d).
Proof. apply NoDup_fst_map_to_list. Qed.

Lemma subscript_Ok {V : Type} (d : gmap string V) (k : string) (v : V) :
  d !! k = Some v → subscript d k = Ok v.
Proof. unfold subscript. by intros ->. Qed.

(** ** Bounds on the factors *)

Lemma copies_of_cases (one_gene two_genes : gset string) (x : option string) :
  copies_of one_gene two_genes x ≤ 2.
Proof. unfold copies_of. repeat case_match; lia. Qed.

(** The three branches on the person's gene count, for each of the gene
    counts 0, 1 and 2 of the two parents: 27 closed computations. *)
Ltac gene_count_cases gene_copies mother_has_gene father_has_gene :=
  destruct gene_copies as [|[|?]];
  destruct mother_has_gene as [|[|[|?]]]; try lia;
  destruct father_has_gene as [|[|[|?]]]; try lia.

Lemma inherited_bounds (gene_copies mother_has_gene father_has_gene : nat) :
  mother_has_gene ≤ 2 → father_has_gene ≤ 2 →
  (0 < inherited gene_copies mother_has_gene father_has_gene
   ∧ inherited gene_copies mother_has_gene father_has_gene <= 1)%Q.
Proof.
  intros Hm Hf.
  gene_count_cases gene_copies mother_has_gene father_has_gene; split; by vm_compute.
Qed.

Lemma PROBS_gene_bounds (copies : nat) :
  copies ≤ 2 → ∃ q, PROBS_gene copies = Ok q ∧ (0 < q ∧ q <= 1)%Q.
Proof.
  intros H. destruct copies as [|[|[|?]]]; try lia;
    eexists; (split; [reflexivity |]); split; by vm_compute.
Qed.

Lemma PROBS_trait_bounds (copies : nat) (has_trait : bool) :
  copies ≤ 2 → ∃ q, PROBS_trait copies has_trait = Ok q ∧ (0 < q ∧ q <= 1)%Q.
Proof.
  intros H. destruct copies as [|[|[|?]]]; try lia; destruct has_trait;
    eexists; (split; [reflexivity |]); split; by vm_compute.
Qed.

Lemma gene_factor_bounds (one_gene two_genes : gset string) (person : string) (row : Person) :
  ∃ q, gene_factor one_gene two_genes person row = Ok q ∧ (0 < q ∧ q <= 1)%Q.
Proof.
  unfold gene_factor. case_match.
  - apply PROBS_gene_bounds, copies_of_cases.
  - eexists. split; [reflexivity |]. apply inherited_bounds; apply copies_of_cases.
Qed.

Lemma unit_interval_mult (a b : Q) :
  (0 < a ∧ a <= 1)%Q → (0 < b ∧ b <= 1)%Q → (0 < a * b ∧ a * b <= 1)%Q.
Proof. intros [Ha0 Ha1] [Hb0 Hb1]. split; nra. Qed.

Lemma person_prob_bounds (people : gmap string Person)
    (one_gene two_genes have_trait : gset string) (person : string) :
  person ∈ keys people →
  ∃ q, person_prob people one_gene two_genes have_trait person = Ok q
       ∧ (0 < q ∧ q <= 1)%Q.
Proof.
  intros [row Hrow]%elem_of_keys. unfold person_prob.
  rewrite (subscript_Ok _ _ _ Hrow). simpl.
  destruct (gene_factor_bounds one_gene two_genes person row) as (g & -> & Hg).
  destruct (PROBS_trait_bounds (copies_of one_gene two_genes (Some person))
              (is_in person have_trait)) as (t & -> & Ht);
    [apply copies_of_cases |].
  simpl. eexists. split; [reflexivity |]. by apply unit_interval_mult.
Qed.

Lemma joint_probability_bounds (people : gmap string Person)
    (one_gene two_genes have_trait : gset string) :
  ∃ q, joint_probability people one_gene two_genes have_trait = Ok q
       ∧ (0 < q ∧ q <= 1)%Q.
Proof.
  unfold joint_probability.
  apply (for_loop_invariant (λ q, 0 < q ∧ q <= 1)%Q); [by vm_compute |].
  intros q person Hin Hq.
  destruct (person_prob_bounds people one_gene two_genes have_trait person Hin)
    as (pp & -> & Hpp).
  simpl. eexists. split; [reflexivity |]. by apply unit_interval_mult.
Qed.

(** ** The evaluator *)

(** C2: for every pedigree and every hypothesis, [joint_probability]
    returns (it raises nothing) one number, and that number lies in
    [[0,1]]; disjointness of the gene sets is not needed. *)
Theorem joint_probability_in_unit_interval (people : gmap string Person)
    (one_gene two_genes have_trait : gset string) :
  ∃ q, joint_probability people one_gene two_genes have_trait = Ok q
       ∧ (0 <= q)%Q ∧ (q <= 1)%Q.
Proof.
  destruct (joint_probability_bounds people one_gene two_genes have_trait)
    as (q & Hq & Hpos & Hle).
  exists q. split; [done |]. split; [by apply Qlt_le_weak | done].
Qed.

(** C8: when the mother and the father are both assigned two copies, the
    gene-count factor of their child is 0.01 * 0.01 = 0.0001 if the child is
    assigned no copy and 0.99 * 0.99 = 0.9801 if it is assigned two. *)
Theorem gene_factor_both_parents_two_copies (one_gene two_genes : gset string)
    (person : string) (row : Person) :
  copies_of one_gene two_genes (mother row) = 2 →
  copies_of one_gene two_genes (father row) = 2 →
  (copies_of one_gene two_genes (Some person) = 0 →
     gene_factor one_gene two_genes person row = Ok (0.01 * 0.01)%Q
     ∧ (0.01 * 0.01)%Q = 0.0001%Q)
  ∧ (copies_of one_gene two_genes (Some person) = 2 →
     gene_factor one_gene two_genes person row = Ok (0.99 * 0.99)%Q
     ∧ (0.99 * 0.99)%Q = 0.9801%Q).
Proof.
  intros Hm Hf. unfold gene_factor.
  assert (bool_decide (mother row = None) = false) as ->.
  { apply bool_decide_eq_false. intros Hnone. by rewrite Hnone in Hm. }
  rewrite Hm, Hf. simpl. split; intros ->; split; reflexivity.
Qed.

Lemma gene_factor_both_parents_two_copies_witness :
  (gene_factor ∅ {["M"; "F"]} "C" (mkPerson "C" (Some "M") (Some "F") None)
     = Ok (0.01 * 0.01)%Q
   ∧ (0.01 * 0.01)%Q = 0.0001%Q)
  ∧ (gene_factor ∅ {["M"; "F"; "C"]} "C" (mkPerson "C" (Some "M") (Some "F") None)
     = Ok (0.99 * 0.99)%Q
   ∧ (0.99 * 0.99)%Q = 0.9801%Q).
Proof.
  split.
  - apply (gene_factor_both_parents_two_copies ∅ {["M"; "F"]} "C"
             (mkPerson "C" (Some "M") (Some "F") None)); reflexivity.
  - apply (gene_factor_both_parents_two_copies ∅ {["M"; "F"; "C"]} "C"
             (mkPerson "C" (Some "M") (Some "F") None)); reflexivity.
Defined.

(** X2: where no parent is assigned exactly one copy, the source computes
    the factor of the transmission model. *)
Lemma inherited_without_carrier (gene_copies mother_has_gene father_has_gene : nat) :
  mother_has_gene ≤ 2 → father_has_gene ≤ 2 →
  mother_has_gene ≠ 1 → father_has_gene ≠ 1 →
  (inherited gene_copies mother_has_gene father_has_gene
   == spec_gene_factor gene_copies mother_has_gene father_has_gene)%Q.
Proof.
  intros Hm Hf Hm1 Hf1.
  gene_count_cases gene_copies mother_has_gene father_has_gene; by vm_compute.
Qed.

Lemma inherited_without_carrier_witness :
  (inherited 1 2 0 == spec_gene_factor 1 2 0)%Q.
Proof. apply (inherited_without_carrier 1 2 0); lia. Defined.

(** C1, at a mother assigned one copy: the model makes her pass the gene on
    with probability 0.5, so that a child without the gene has the factor
    (1 - 0.5) * (1 - 0.01) = 0.495, where [joint_probability] computes
    0.01 * 0.99 = 0.0099, and the joint probability of the family differs
    with it.  With two such parents the three factors of the source add up
    to 0.0004, where those of the model add up to 1. *)
Theorem gene_factor_carrier_mother :
  copies_of {["M"]} ∅ (Some "C") = 0
  ∧ copies_of {["M"]} ∅ (mother child_row) = 1
  ∧ copies_of {["M"]} ∅ (father child_row) = 0
  ∧ (spec_transmit 1 == 0.5)%Q
  ∧ (spec_gene_factor 0 1 0 == 0.495)%Q
  ∧ gene_factor {["M"]} ∅ "C" child_row = Ok 0.0099%Q
  ∧ ¬ (0.0099 == spec_gene_factor 0 1 0)%Q
  ∧ joint_probability family {["M"]} ∅ ∅ = Ok 0.00012295628928%Q
  ∧ (0.00012295628928 == (0.03 * 0.44) * (0.96 * 0.99) * (0.0099 * 0.99))%Q
  ∧ ¬ (0.00012295628928
       == (0.03 * 0.44) * (0.96 * 0.99) * (spec_gene_factor 0 1 0 * 0.99))%Q
  ∧ (inherited 0 1 1 + inherited 1 1 1 + inherited 2 1 1 == 0.0004)%Q
  ∧ (spec_gene_factor 0 1 1 + spec_gene_factor 1 1 1 + spec_gene_factor 2 1 1 == 1)%Q.
Proof. repeat split; by vm_compute. Qed.

(** ** Loops that rewrite every entry of a dictionary *)

Section EntryLoop.
Context {V : Type} (f : string → V → result V).

(** Over distinct keys that are all present, the loop raises only if [f]
    does; it rewrites the entries of the keys and no other. *)
Lemma entry_loop_spec (l : list string) (d : gmap string V) :
  NoDup l →
  (∀ k, k ∈ l → is_Some (d !! k)) →
  (∀ k v, ∃ v', f k v = Ok v') →
  ∃ d', for_loop (entry_body f) l d = Ok d'
        ∧ (∀ k, k ∈ l → ∃ v v', d !! k = Some v ∧ f k v = Ok v' ∧ d' !! k = Some v')
        ∧ (∀ k, k ∉ l → d' !! k = d !! k).
Proof.
  intros Hnd Hin Hf. revert d Hin.
  induction Hnd as [|x l Hx Hnd IH]; intros d Hin.
  - exists d. split; [done |]. split; [|done]. intros k Hk. by apply elem_of_nil in Hk.
  - destruct (Hin x) as [v Hv]; [left |].
    destruct (Hf x v) as [v' Hv'].
    assert (entry_body f d x = Ok (<[x := v']> d)) as Hbody.
    { unfold entry_body. rewrite (subscript_Ok _ _ _ Hv). simpl. by rewrite Hv'. }
    cbn [for_loop]. rewrite Hbody. simpl.
    destruct (IH (<[x := v']> d)) as (d' & Hloop & Hl & Hother).
    { intros k Hk. destruct (decide (x = k)) as [->|Hne].
      - rewrite lookup_insert_eq. eauto.
      - rewrite lookup_insert_ne by done. apply Hin. by right. }
    exists d'. split; [done |]. split.
    + intros k [->|Hk]%elem_of_cons.
      * exists v, v'. split; [done |]. split; [done |].
        rewrite (Hother x Hx). apply lookup_insert_eq.
      * destruct (Hl k Hk) as (w & w' & Hw & Hfw & Hd').
        exists w, w'. split; [|done].
        rewrite lookup_insert_ne in Hw; [done |]. intros ->. contradiction.
    + intros k Hk. apply not_elem_of_cons in Hk as [Hne Hk].
      rewrite (Hother k Hk). by apply lookup_insert_ne.
Qed.

(** The loop over all the keys of the dictionary itself. *)
Lemma entry_loop_keys (d : gmap string V) :
  (∀ k v, ∃ v', f k v = Ok v') →
  ∃ d', for_loop (entry_body f) (keys d) d = Ok d'
        ∧ (∀ k v, d !! k = Some v → ∃ v', f k v = Ok v' ∧ d' !! k = Some v')
        ∧ (∀ k, d !! k = None → d' !! k = None).
Proof.
  intros Hf.
  destruct (entry_loop_spec (keys d) d) as (d' & Hloop & Hl & Hother);
    [apply NoDup_keys | by intros k ?%elem_of_keys | done |].
  exists d'. split; [done |]. split.
  - intros k v Hv. destruct (Hl k) as (w & w' & Hw & Hfw & Hd').
    { apply elem_of_keys. eauto. }
    exists w'. split; [congruence | done].
  - intros k Hk. rewrite Hother; [done |].
    rewrite elem_of_keys, Hk. by intros [? ?].
Qed.
End EntryLoop.

(** ** update *)

Lemma update_spec (probabilities : gmap string Dist)
    (one_gene two_genes have_trait : gset string) (p : Q) :
  ∃ probabilities',
    update probabilities one_gene two_genes have_trait p = Ok probabilities'
    ∧ ∀ person,
        probabilities' !! person
        = update_entry one_gene two_genes have_trait p person
            <$> probabilities !! person.
Proof.
  destruct (entry_loop_keys
              (λ person d, Ok (update_entry one_gene two_genes have_trait p person d))
              probabilities) as (d' & Hloop & Hsome & Hnone); [by eauto |].
  exists d'. split; [exact Hloop |]. intros person.
  destruct (probabilities !! person) as [d|] eqn:Hd; simpl.
  - destruct (Hsome person d Hd) as (v' & [= <-] & Hd'). done.
  - by apply Hnone.
Qed.

Lemma update_entry_cells (one_gene two_genes have_trait : gset string) (p : Q)
    (person : string) (d : Dist) :
  one_gene_cell_added p d (update_entry one_gene two_genes have_trait p person d)
  ∧ one_trait_cell_added p d (update_entry one_gene two_genes have_trait p person d).
Proof.
  unfold update_entry, one_gene_cell_added, one_trait_cell_added.
  destruct (is_in person two_genes), (is_in person one_gene),
    (is_in person have_trait); simpl; naive_solver.
Qed.

Lemma cells_added_sums (p : Q) (d d' : Dist) :
  one_gene_cell_added p d d' → one_trait_cell_added p d d' →
  (gene_sum d' == gene_sum d + p)%Q ∧ (trait_sum d' == trait_sum d + p)%Q.
Proof.
  unfold one_gene_cell_added, one_trait_cell_added, gene_sum, trait_sum.
  intros Hg Ht. split.
  - destruct Hg as [(-> & -> & ->)|[(-> & -> & ->)|(-> & -> & ->)]]; ring.
  - destruct Ht as [(-> & ->)|(-> & ->)]; ring.
Qed.

Lemma accumulated_sums (people : gmap string Person)
    (probabilities : gmap string Dist) (total : Q) :
  accumulated people probabilities total →
  ∀ person d, probabilities !! person = Some d →
    (gene_sum d == total)%Q ∧ (trait_sum d == total)%Q.
Proof.
  induction 1 as [|probs total og tg ht p probs' Hacc IH Hcons Hp Hupd];
    intros person d Hd.
  - rewrite lookup_fmap in Hd. destruct (people !! person); [|done].
    injection Hd as <-. split; by vm_compute.
  - destruct (update_spec probs og tg ht p) as (probs2 & Hupd2 & Hlook).
    rewrite Hupd in Hupd2. injection Hupd2 as <-.
    rewrite Hlook in Hd. destruct (probs !! person) as [d0|] eqn:Hd0; [|done].
    injection Hd as <-.
    destruct (IH person d0 Hd0) as [Hg Ht].
    destruct (update_entry_cells og tg ht p person d0) as [Hcg Hct].
    destruct (cells_added_sums p d0 _ Hcg Hct) as [-> ->].
    rewrite Hg, Ht. done.
Qed.

(** ** powerset *)

Section Combinations.
Context {A : Type}.
Implicit Types (l x y : list A) (r : nat).

Lemma combinations_0 l : combinations l 0 = [[]].
Proof. by destruct l. Qed.

(** The combinations of length [r] are the sub-sequences of length [r]. *)
Lemma elem_of_combinations l r x :
  x ∈ combinations l r ↔ x `sublist_of` l ∧ length x = r.
Proof.
  revert r x. induction l as [|a l IH]; intros r x.
  - destruct r as [|r]; simpl.
    + rewrite list_elem_of_singleton, sublist_nil_r. split.
      * by intros ->.
      * by intros [-> _].
    + rewrite elem_of_nil, sublist_nil_r. split; [done |]. by intros [-> ?].
  - destruct r as [|r].
    + rewrite combinations_0, list_elem_of_singleton. split.
      * intros ->. split; [apply sublist_nil_l | done].
      * intros [_ Hlen]. by apply nil_length_inv.
    + simpl. rewrite elem_of_app, list_elem_of_fmap, sublist_cons_r. split.
      * intros [(y & -> & Hy)|Hx].
        -- apply IH in Hy as [Hsub <-]. split; [|done]. right. eauto.
        -- apply IH in Hx as [Hsub Hlen]. split; [by left | done].
      * intros [[Hsub|(y & -> & Hsub)] Hlen].
        -- right. by apply IH.
        -- left. exists y. split; [done |]. apply IH. simpl in Hlen. split; [done | lia].
Qed.

Lemma NoDup_combinations l r : NoDup l → NoDup (combinations l r).
Proof.
  intros Hnd. revert r. induction Hnd as [|a l Ha Hnd IH]; intros r.
  - destruct r; simpl; [apply NoDup_singleton | apply NoDup_nil_2].
  - destruct r as [|r]; [rewrite combinations_0; apply NoDup_singleton |].
    simpl. apply NoDup_app. split; [|split].
    + apply NoDup_fmap_2; [|apply IH]. by intros y1 y2 [= ->].
    + intros x (y & -> & Hy)%list_elem_of_fmap [Hsub _]%elem_of_combinations.
      apply Ha. eapply elem_of_sublist; [|exact Hsub]. left.
    + apply IH.
Qed.

(** Two sub-sequences of a list without repetition that have the same
    elements are the same. *)
Lemma sublist_same_elements l x y :
  NoDup l → x `sublist_of` l → y `sublist_of` l →
  (∀ a, a ∈ x ↔ a ∈ y) → x = y.
Proof.
  intros Hnd. revert x y. induction Hnd as [|a l Ha Hnd IH]; intros x y Hx Hy Hxy.
  - apply sublist_nil_r in Hx, Hy. congruence.
  - apply sublist_cons_r in Hx as [Hx|(x' & -> & Hx)];
      apply sublist_cons_r in Hy as [Hy|(y' & -> & Hy)].
    + by apply IH.
    + exfalso. apply Ha. eapply elem_of_sublist; [|exact Hx].
      apply Hxy. left.
    + exfalso. apply Ha. eapply elem_of_sublist; [|exact Hy].
      apply Hxy. left.
    + f_equal. apply IH; [done | done |]. intros b.
      assert (a ∉ x') as Hax by (intros ?; apply Ha; by eapply elem_of_sublist).
      assert (a ∉ y') as Hay by (intros ?; apply Ha; by eapply elem_of_sublist).
      specialize (Hxy b). rewrite !elem_of_cons in Hxy. split; intros Hb.
      * destruct Hxy as [[->|?] _]; [by right | done | done].
      * destruct Hxy as [_ [->|?]]; [by right | done | done].
Qed.

Lemma elem_of_all_combinations l x :
  x ∈ seq 0 (length l + 1) ≫= combinations l ↔ x `sublist_of` l.
Proof.
  rewrite list_elem_of_bind. split.
  - by intros (r & [Hsub _]%elem_of_combinations & _).
  - intros Hsub. exists (length x). split; [by apply elem_of_combinations |].
    apply elem_of_seq. apply sublist_length in Hsub. lia.
Qed.

Lemma NoDup_all_combinations l :
  NoDup l → NoDup (seq 0 (length l + 1) ≫= combinations l).
Proof.
  intros Hnd. apply NoDup_bind; [| |apply NoDup_seq].
  - intros r1 r2 x _ _ [_ <-]%elem_of_combinations [_ <-]%elem_of_combinations. done.
  - intros r _. by apply NoDup_combinations.
Qed.
End Combinations.

(** [powerset(s)] holds the subsets of [s], each one once. *)
Lemma elem_of_powerset (s X : gset string) : X ∈ powerset s ↔ X ⊆ s.
Proof.
  unfold powerset. rewrite list_elem_of_fmap. split.
  - intros (x & -> & Hx%elem_of_all_combinations) a Ha%elem_of_list_to_set.
    apply elem_of_elements. by eapply elem_of_sublist.
  - intros HX. exists (filter (λ a, a ∈ X) (elements s)). split.
    + apply set_eq. intros a.
      rewrite elem_of_list_to_set, list_elem_of_filter, elem_of_elements.
      split; [intros Ha; split; [done | by apply HX] | by intros [Ha _]].
    + apply elem_of_all_combinations, sublist_filter.
Qed.

Lemma NoDup_powerset (s : gset string) : NoDup (powerset s).
Proof.
  unfold powerset. apply NoDup_fmap_2_strong.
  - intros x y Hx%elem_of_all_combinations Hy%elem_of_all_combinations Hxy.
    apply (sublist_same_elements (elements s)); [apply NoDup_elements | done | done |].
    intros a. by rewrite <- !(elem_of_list_to_set (C := gset string)), Hxy.
  - apply NoDup_all_combinations, NoDup_elements.
Qed.

Lemma powerset_first (s : gset string) : ∃ rest, powerset s = ∅ :: rest.
Proof.
  unfold powerset. replace (length (elements s) + 1) with (S (length (elements s))) by lia.
  simpl. rewrite combinations_0. simpl. eauto.
Qed.

(** Two nested loops are one loop over the pairs. *)
Lemma for_loop_nested {S A B : Type} (body : S → A → B → result S)
    (outer : list A) (inner : A → list B) (s : S) :
  for_loop (λ s x, for_loop (λ s y, body s x y) (inner x) s) outer s
  = for_loop (λ s xy, body s xy.1 xy.2) (outer ≫= λ x, inner x ≫= λ y, [(x, y)]) s.
Proof.
  revert s. induction outer as [|x outer IH]; intros s; [done |].
  rewrite bind_cons, for_loop_app. cbn [for_loop].
  assert (∀ l s, for_loop (λ s xy, body s xy.1 xy.2) (l ≫= λ y, [(x, y)]) s
                 = for_loop (λ s y, body s x y) l s) as ->.
  { induction l as [|y l IHl]; intros s0; [done |].
    rewrite bind_cons. simpl. destruct (body s0 x y); simpl; [apply IHl | done]. }
  destruct (for_loop (λ s y, body s x y) (inner x) s); simpl; [apply IH | done].
Qed.

Lemma gene_loops_flat (people : gmap string Person) (names have_trait : gset string)
    (probabilities : gmap string Dist) :
  gene_loops people names have_trait probabilities
  = for_loop
      (λ probabilities h,
         p ← joint_probability people h.1 h.2 have_trait;
         update probabilities h.1 h.2 have_trait p)
      (gene_hypotheses names) probabilities.
Proof.
  unfold gene_loops, gene_hypotheses.
  apply (for_loop_nested
           (λ probabilities one_gene two_genes,
              p ← joint_probability people one_gene two_genes have_trait;
              update probabilities one_gene two_genes have_trait p)).
Qed.

Lemma gene_hypotheses_first (names : gset string) :
  ∃ rest, gene_hypotheses names = (∅, ∅) :: rest.
Proof.
  unfold gene_hypotheses.
  destruct (powerset_first names) as [r1 ->].
  destruct (powerset_first (names ∖ ∅)) as [r2 Hr2].
  rewrite bind_cons, Hr2, bind_cons. simpl. eauto.
Qed.

(** C3: the two loops over [one_gene] and [two_genes] are one loop over
    [gene_hypotheses names]; that list holds every pair of disjoint subsets
    of the names, holds nothing else, and holds no pair twice. *)
Theorem gene_hypotheses_exactly_once (names : gset string) :
  NoDup (gene_hypotheses names)
  ∧ (∀ one_gene two_genes,
       (one_gene, two_genes) ∈ gene_hypotheses names
       ↔ one_gene ⊆ names ∧ two_genes ⊆ names ∧ one_gene ## two_genes)
  ∧ (∀ people have_trait probabilities,
       gene_loops people names have_trait probabilities
       = for_loop
           (λ probabilities h,
              p ← joint_probability people h.1 h.2 have_trait;
              update probabilities h.1 h.2 have_trait p)
           (gene_hypotheses names) probabilities).
Proof.
  split; [|split].
  - unfold gene_hypotheses. apply NoDup_bind; [| |apply NoDup_powerset].
    + intros og1 og2 [og tg] _ _ (tg1 & H1 & _)%list_elem_of_bind
        (tg2 & H2 & _)%list_elem_of_bind.
      apply list_elem_of_singleton in H1, H2. congruence.
    + intros og _. apply NoDup_bind; [| |apply NoDup_powerset].
      * intros tg1 tg2 [og' tg] _ _ H1%list_elem_of_singleton H2%list_elem_of_singleton.
        congruence.
      * intros tg _. apply NoDup_singleton.
  - intros one_gene two_genes. unfold gene_hypotheses.
    rewrite list_elem_of_bind. split.
    + intros (og & (tg & Heq%list_elem_of_singleton & Htg%elem_of_powerset)%list_elem_of_bind
              & Hog%elem_of_powerset).
      injection Heq as -> ->. split; [done |].
      split.
      * intros a Ha. apply Htg in Ha. by apply elem_of_difference in Ha as [? _].
      * intros a Ha Ha'. apply Htg in Ha'. by apply elem_of_difference in Ha' as [_ ?].
    + intros (Hog & Htg & Hdisj). exists one_gene. split; [|by apply elem_of_powerset].
      apply list_elem_of_bind. exists two_genes. split; [apply list_elem_of_singleton; done |].
      apply elem_of_powerset. intros a Ha. apply elem_of_difference.
      split; [by apply Htg | intros Ha'; by apply (Hdisj a)].
  - intros people have_trait probabilities. apply gene_loops_flat.
Qed.

(** ** The loops of main *)

(** A loop over at least one item whose body strictly raises a measure. *)
Lemma for_loop_increasing {S A : Type} (I : S → Q → Prop)
    (body : S → A → result S) (xs : list A) (s : S) (t : Q) :
  xs ≠ [] →
  I s t →
  (∀ s t x, x ∈ xs → I s t → ∃ s' t', body s x = Ok s' ∧ I s' t' ∧ (t < t')%Q) →
  ∃ s' t', for_loop body xs s = Ok s' ∧ I s' t' ∧ (t < t')%Q.
Proof.
  revert s t. induction xs as [|x xs IH]; intros s t Hne Hs Hbody; [done |].
  destruct (Hbody s t x) as (s1 & t1 & Hb & Hs1 & Ht1); [left | done |].
  cbn [for_loop]. rewrite Hb. simpl.
  destruct xs as [|y xs].
  - simpl. eauto.
  - destruct (IH s1 t1) as (s2 & t2 & Hloop & Hs2 & Ht2); [done | done | |].
    { intros s' t' z Hz. apply Hbody. by right. }
    exists s2, t2. split; [done |]. split; [done |]. by apply Qlt_trans with t1.
Qed.

Lemma any_of_spec {A : Type} (f : A → result bool) (P : A → Prop) (xs : list A) :
  (∀ x, x ∈ xs → (f x = Ok true ∧ P x) ∨ (f x = Ok false ∧ ¬ P x)) →
  ∃ b, any_of f xs = Ok b ∧ (b = false ↔ ∀ x, x ∈ xs → ¬ P x).
Proof.
  induction xs as [|x xs IH]; intros Hf; simpl.
  - exists false. split; [done |]. split; [|done]. by intros _ x ?%elem_of_nil.
  - destruct (Hf x) as [[-> HP]|[-> HP]]; [left | |]; simpl.
    + exists true. split; [done |]. split; [done |]. intros Hall.
      exfalso. apply (Hall x); [left | done].
    + destruct IH as (b & -> & Hb); [intros y Hy; apply Hf; by right |].
      exists b. split; [done |]. rewrite Hb. split.
      * intros Hall y [->|Hy]%elem_of_cons; [done | by apply Hall].
      * intros Hall y Hy. apply Hall. by right.
Qed.

Lemma fails_evidence_spec (people : gmap string Person) (have_trait : gset string) :
  ∃ b, fails_evidence people (dom people) have_trait = Ok b
       ∧ (b = false ↔ evidence_consistent people have_trait).
Proof.
  unfold fails_evidence.
  set (P := λ person, ∃ row, people !! person = Some row ∧ trait row ≠ None
                             ∧ trait row ≠ Some (is_in person have_trait)).
  edestruct (any_of_spec
              (λ person, row ← subscript people person;
                 Ok (bool_decide (trait row ≠ None)
                     && bool_decide (trait row ≠ Some (is_in person have_trait))))
              P (elements (dom people))) as (b & Hb & Hiff).
  { intros person [row Hrow]%elem_of_elements%elem_of_dom.
    rewrite (subscript_Ok _ _ _ Hrow). simpl.
    destruct (decide (trait row ≠ None)) as [Hn|Hn];
      [destruct (decide (trait row ≠ Some (is_in person have_trait))) as [Hs|Hs] |].
    - left. rewrite !bool_decide_eq_true_2 by done. split; [done |]. by exists row.
    - right. rewrite (bool_decide_eq_false_2 _ Hs), andb_false_r. split; [done |].
      intros (row' & Hrow' & _ & Hs'). apply Hs. congruence.
    - right. rewrite (bool_decide_eq_false_2 _ Hn). split; [done |].
      intros (row' & Hrow' & Hn' & _). apply Hn. congruence. }
  exists b. split; [exact Hb |]. rewrite Hiff. unfold evidence_consistent, P, is_in. split.
  - intros Hall person row Hrow.
    assert (person ∈ elements (dom people)) as Hin.
    { apply elem_of_elements, elem_of_dom. eauto. }
    specialize (Hall person Hin).
    split; intros Ht.
    + destruct (decide (person ∈ have_trait)) as [|Hnin]; [done |].
      exfalso. apply Hall. exists row. rewrite Ht, (bool_decide_eq_false_2 _ Hnin). done.
    + intros Hht. apply Hall. exists row. rewrite Ht, (bool_decide_eq_true_2 _ Hht). done.
  - intros Hcons person _ (row & Hrow & Hn & Hs).
    destruct (Hcons person row Hrow) as [Ht Hf].
    destruct (trait row) as [[|]|]; [| |done].
    + apply Hs. by rewrite bool_decide_eq_true_2 by auto.
    + apply Hs. by rewrite bool_decide_eq_false_2 by auto.
Qed.

Lemma gene_loops_accumulated (people : gmap string Person) (names have_trait : gset string)
    (probabilities : gmap string Dist) (total : Q) :
  accumulated people probabilities total →
  evidence_consistent people have_trait →
  ∃ probabilities' total',
    gene_loops people names have_trait probabilities = Ok probabilities'
    ∧ accumulated people probabilities' total' ∧ (total < total')%Q.
Proof.
  intros Hacc Hcons. rewrite gene_loops_flat.
  apply (for_loop_increasing (accumulated people)); [|done|].
  - destruct (gene_hypotheses_first names) as [rest ->]. done.
  - intros probs t [og tg] _ Hprobs. simpl.
    destruct (joint_probability_bounds people og tg have_trait) as (p & Hp & Hpos & _).
    destruct (update_spec probs og tg have_trait p) as (probs' & Hupd & _).
    rewrite Hp. simpl. exists probs', (t + p)%Q.
    split; [done |]. split; [by eapply accumulated_update | lra].
Qed.

Lemma trait_step_spec (people : gmap string Person) (have_trait : gset string)
    (probabilities : gmap string Dist) (total : Q) :
  accumulated people probabilities total →
  (evidence_consistent people have_trait →
     ∃ probabilities' total',
       trait_step people (dom people) probabilities have_trait = Ok probabilities'
       ∧ accumulated people probabilities' total' ∧ (total < total')%Q)
  ∧ (¬ evidence_consistent people have_trait →
     trait_step people (dom people) probabilities have_trait = Ok probabilities).
Proof.
  intros Hacc. unfold trait_step.
  destruct (fails_evidence_spec people have_trait) as (b & -> & Hb). simpl.
  split; intros Hcons.
  - apply Hb in Hcons as ->. by apply gene_loops_accumulated, Hb.
  - destruct b; [done |]. exfalso. by apply Hcons, Hb.
Qed.

Lemma accumulate_accumulated (people : gmap string Person) :
  ∃ probabilities total,
    accumulate people = Ok probabilities ∧ accumulated people probabilities total.
Proof.
  unfold accumulate.
  destruct (for_loop_invariant (λ probs, ∃ total, accumulated people probs total)
              (trait_step people (dom people)) (powerset (dom people))
              ((λ _, zero_dist) <$> people)) as (probs & Hloop & total & Hacc).
  - exists 0%Q. constructor.
  - intros probs have_trait _ [total Hacc].
    destruct (trait_step_spec people have_trait probs total Hacc) as [Hyes Hno].
    destruct (fails_evidence_spec people have_trait) as (b & _ & Hb).
    destruct b.
    + rewrite Hno; [eauto |]. intros Hcons. by apply Hb in Hcons.
    + destruct Hyes as (probs' & total' & -> & Hacc' & _); [by apply Hb | eauto].
  - eauto.
Qed.

(** ** normalize *)

Lemma Qgt_bool_true (x y : Q) : Qgt_bool x y = true ↔ (y < x)%Q.
Proof.
  unfold Qgt_bool. rewrite negb_true_iff, <- not_true_iff_false, Qle_bool_iff.
  split; [apply Qnot_le_lt | apply Qlt_not_le].
Qed.

Lemma Qgt_bool_false (x y : Q) : Qgt_bool x y = false ↔ (x <= y)%Q.
Proof. unfold Qgt_bool. by rewrite negb_false_iff, Qle_bool_iff. Qed.

Lemma divide_positive (x y : Q) : (0 < y)%Q → divide x y = Ok (x / y)%Q.
Proof.
  intros Hy. unfold divide.
  destruct (Qeq_bool y 0) eqn:Heq; [|done].
  apply Qeq_bool_iff in Heq. rewrite Heq in Hy. by apply Qlt_irrefl in Hy.
Qed.

(** The division is guarded: each half of the loop body returns. *)
Lemma normalize_gene_Ok (d : Dist) :
  normalize_gene d
  = Ok (if Qgt_bool (gene_sum d) 0
        then mkDist (gene_2 d / gene_sum d) (gene_1 d / gene_sum d)
               (gene_0 d / gene_sum d) (trait_True d) (trait_False d)
        else d).
Proof.
  unfold normalize_gene. destruct (Qgt_bool (gene_sum d) 0) eqn:Hs; [|done].
  apply Qgt_bool_true in Hs. by rewrite !(divide_positive _ _ Hs).
Qed.

Lemma normalize_trait_Ok (d : Dist) :
  normalize_trait d
  = Ok (if Qgt_bool (trait_sum d) 0
        then mkDist (gene_2 d) (gene_1 d) (gene_0 d)
               (trait_True d / trait_sum d) (trait_False d / trait_sum d)
        else d).
Proof.
  unfold normalize_trait. destruct (Qgt_bool (trait_sum d) 0) eqn:Hs; [|done].
  apply Qgt_bool_true in Hs. by rewrite !(divide_positive _ _ Hs).
Qed.

Lemma normalize_entry_Ok (d : Dist) :
  ∃ d1 d2, normalize_gene d = Ok d1 ∧ normalize_trait d1 = Ok d2
           ∧ normalize_entry d = Ok d2
           ∧ trait_True d1 = trait_True d ∧ trait_False d1 = trait_False d
           ∧ gene_2 d2 = gene_2 d1 ∧ gene_1 d2 = gene_1 d1 ∧ gene_0 d2 = gene_0 d1.
Proof.
  unfold normalize_entry. rewrite normalize_gene_Ok. simpl.
  eexists _, _. split; [reflexivity |]. rewrite normalize_trait_Ok.
  split; [reflexivity |]. split; [reflexivity |].
  split; [by case_match |]. split; [by case_match |].
  repeat split; by case_match.
Qed.

Lemma normalize_spec (probabilities : gmap string Dist) :
  ∃ probabilities',
    normalize probabilities = Ok probabilities'
    ∧ (∀ person d, probabilities !! person = Some d →
         ∃ d', normalize_entry d = Ok d' ∧ probabilities' !! person = Some d')
    ∧ (∀ person, probabilities !! person = None → probabilities' !! person = None).
Proof.
  apply (entry_loop_keys (λ _ d, normalize_entry d)).
  intros _ d. destruct (normalize_entry_Ok d) as (d1 & d2 & _ & _ & Hd & _). eauto.
Qed.

Lemma main_total (people : gmap string Person) : ∃ table, main people = Ok table.
Proof.
  unfold main. destruct (accumulate_accumulated people) as (probs & total & -> & _).
  simpl. destruct (normalize_spec probs) as (table & -> & _). eauto.
Qed.

Lemma normalize_entry_positive (d : Dist) :
  (0 < gene_sum d)%Q → (0 < trait_sum d)%Q →
  normalize_entry d
  = Ok (mkDist (gene_2 d / gene_sum d) (gene_1 d / gene_sum d) (gene_0 d / gene_sum d)
          (trait_True d / trait_sum d) (trait_False d / trait_sum d)).
Proof.
  intros Hg Ht. unfold normalize_entry. rewrite normalize_gene_Ok.
  rewrite (proj2 (Qgt_bool_true _ _) Hg). simpl.
  rewrite normalize_trait_Ok.
  change (trait_sum (mkDist _ _ _ (trait_True d) (trait_False d))) with (trait_sum d).
  by rewrite (proj2 (Qgt_bool_true _ _) Ht).
Qed.

Lemma normalized_sums (d : Dist) :
  (0 < gene_sum d)%Q → (0 < trait_sum d)%Q →
  (gene_2 d / gene_sum d + gene_1 d / gene_sum d + gene_0 d / gene_sum d == 1)%Q
  ∧ (trait_True d / trait_sum d + trait_False d / trait_sum d == 1)%Q.
Proof.
  unfold gene_sum, trait_sum. intros Hg Ht. split; field; lra.
Qed.

(** C5: an entry whose gene cells and whose trait cells have positive sums
    leaves [normalize] with each cell divided by the sum of its distribution,
    so that the proportions are kept, the three gene cells add up to 1 and
    the two trait cells add up to 1 (exactly, hence within 1e-9). *)
Theorem normalize_sums_to_one (probabilities : gmap string Dist)
    (person : string) (d : Dist) :
  probabilities !! person = Some d →
  (0 < gene_sum d)%Q →
  (0 < trait_sum d)%Q →
  ∃ probabilities' d',
    normalize probabilities = Ok probabilities'
    ∧ probabilities' !! person = Some d'
    ∧ gene_2 d' = (gene_2 d / gene_sum d)%Q
    ∧ gene_1 d' = (gene_1 d / gene_sum d)%Q
    ∧ gene_0 d' = (gene_0 d / gene_sum d)%Q
    ∧ trait_True d' = (trait_True d / trait_sum d)%Q
    ∧ trait_False d' = (trait_False d / trait_sum d)%Q
    ∧ (gene_2 d' + gene_1 d' + gene_0 d' == 1)%Q
    ∧ (trait_True d' + trait_False d' == 1)%Q
    ∧ (Qabs (gene_2 d' + gene_1 d' + gene_0 d' - 1) <= 1e-9)%Q
    ∧ (Qabs (trait_True d' + trait_False d' - 1) <= 1e-9)%Q.
Proof.
  intros Hd Hg Ht.
  destruct (normalize_spec probabilities) as (probs' & Hnorm & Hsome & _).
  destruct (Hsome person d Hd) as (d' & Hentry & Hd').
  exists probs', d'. split; [done |]. split; [done |].
  rewrite (normalize_entry_positive d Hg Ht) in Hentry. injection Hentry as <-.
  cbn [gene_2 gene_1 gene_0 trait_True trait_False].
  destruct (normalized_sums d Hg Ht) as [Hgs Hts].
  repeat (split; [done |]). split; [by rewrite Hgs | by rewrite Hts].
Qed.

Lemma normalize_sums_to_one_witness :
  ∃ probabilities' d',
    normalize sample_table = Ok probabilities'
    ∧ probabilities' !! "A" = Some d'
    ∧ gene_2 d' = (0.25 / (0 + 0.25 + 0.5 + 0.25))%Q
    ∧ gene_1 d' = (0.5 / (0 + 0.25 + 0.5 + 0.25))%Q
    ∧ gene_0 d' = (0.25 / (0 + 0.25 + 0.5 + 0.25))%Q
    ∧ trait_True d' = (3 / (0 + 3 + 1))%Q
    ∧ trait_False d' = (1 / (0 + 3 + 1))%Q
    ∧ (gene_2 d' + gene_1 d' + gene_0 d' == 1)%Q
    ∧ (trait_True d' + trait_False d' == 1)%Q
    ∧ (Qabs (gene_2 d' + gene_1 d' + gene_0 d' - 1) <= 1e-9)%Q
    ∧ (Qabs (trait_True d' + trait_False d' - 1) <= 1e-9)%Q.
Proof.
  apply (normalize_sums_to_one sample_table "A" (mkDist 0.25 0.5 0.25 3 1));
    [reflexivity | by vm_compute | by vm_compute].
Defined.

(** C6: [normalize] never raises, so it never divides by zero: on every
    entry the gene step divides only if the gene sum is positive and the
    trait step only if the trait sum is positive.  A distribution whose sum
    is zero is left as it is, whatever the other distribution of the same
    person is. *)
Theorem normalize_skips_zero_sums (probabilities : gmap string Dist) :
  ∃ probabilities',
    normalize probabilities = Ok probabilities'
    ∧ ∀ person d, probabilities !! person = Some d →
        ∃ d1 d',
          normalize_gene d = Ok d1 ∧ normalize_trait d1 = Ok d'
          ∧ probabilities' !! person = Some d'
          ∧ ((gene_sum d == 0)%Q → d1 = d)
          ∧ ((trait_sum d == 0)%Q → d' = d1)
          ∧ ((0 < gene_sum d)%Q →
               gene_2 d1 = (gene_2 d / gene_sum d)%Q
               ∧ gene_1 d1 = (gene_1 d / gene_sum d)%Q
               ∧ gene_0 d1 = (gene_0 d / gene_sum d)%Q)
          ∧ ((0 < trait_sum d)%Q →
               trait_True d' = (trait_True d / trait_sum d)%Q
               ∧ trait_False d' = (trait_False d / trait_sum d)%Q)
          ∧ (trait_True d1 = trait_True d ∧ trait_False d1 = trait_False d)
          ∧ (gene_2 d' = gene_2 d1 ∧ gene_1 d' = gene_1 d1 ∧ gene_0 d' = gene_0 d1).
Proof.
  destruct (normalize_spec probabilities) as (probs' & Hnorm & Hsome & _).
  exists probs'. split; [done |]. intros person d Hd.
  destruct (Hsome person d Hd) as (d' & Hentry & Hd').
  destruct (normalize_entry_Ok d)
    as (d1 & d2 & Hg & Ht & Hentry2 & HtT & HtF & Hg2 & Hg1 & Hg0).
  rewrite Hentry in Hentry2. injection Hentry2 as <-.
  exists d1, d'. split; [done |]. split; [done |]. split; [done |].
  rewrite normalize_gene_Ok in Hg. injection Hg as Hg.
  rewrite normalize_trait_Ok in Ht. injection Ht as Ht.
  assert (trait_sum d1 = trait_sum d) as Hsum by (unfold trait_sum; congruence).
  rewrite Hsum in Ht.
  split; [|split; [|split; [|split]]].
  - intros H0. rewrite (proj2 (Qgt_bool_false _ _)) in Hg; [done | lra].
  - intros H0. rewrite (proj2 (Qgt_bool_false _ _)) in Ht; [done | lra].
  - intros Hpos. rewrite (proj2 (Qgt_bool_true _ _) Hpos) in Hg. by subst d1.
  - intros Hpos. rewrite (proj2 (Qgt_bool_true _ _) Hpos) in Ht. subst d'. simpl.
    by rewrite HtT, HtF.
  - done.
Qed.

Example normalize_gene_only :
  ∃ table d, normalize gene_only = Ok table ∧ table !! "A" = Some d
    ∧ d = mkDist (1 / (0 + 1 + 2 + 1)) (2 / (0 + 1 + 2 + 1)) (1 / (0 + 1 + 2 + 1)) 0 0.
Proof. eexists _, _. repeat split; by vm_compute. Qed.

Example normalize_trait_only :
  ∃ table d, normalize trait_only = Ok table ∧ table !! "A" = Some d
    ∧ d = mkDist 0 0 0 (3 / (0 + 3 + 1)) (1 / (0 + 3 + 1)).
Proof. eexists _, _. repeat split; by vm_compute. Qed.

(** ** The accumulators *)

(** A cell that the evidence rules out is never added to. *)
Lemma accumulated_evidence (people : gmap string Person)
    (probabilities : gmap string Dist) (total : Q) :
  accumulated people probabilities total →
  ∀ person row d, people !! person = Some row → probabilities !! person = Some d →
    (trait row = Some true → trait_False d = 0%Q)
    ∧ (trait row = Some false → trait_True d = 0%Q).
Proof.
  induction 1 as [|probs total og tg ht p probs' Hacc IH Hcons Hp Hupd];
    intros person row d Hrow Hd.
  - rewrite lookup_fmap, Hrow in Hd. injection Hd as <-. done.
  - destruct (update_spec probs og tg ht p) as (probs2 & Hupd2 & Hlook).
    rewrite Hupd in Hupd2. injection Hupd2 as <-.
    rewrite Hlook in Hd. destruct (probs !! person) as [d0|] eqn:Hd0; [|done].
    injection Hd as <-.
    destruct (IH person row d0 Hrow Hd0) as [IHt IHf].
    destruct (Hcons person row Hrow) as [Ht Hf].
    unfold update_entry, is_in. split; intros Htrait.
    + rewrite (bool_decide_eq_true_2 _ (Ht Htrait)).
      unfold add_trait, add_gene. repeat case_match; simpl; auto.
    + rewrite (bool_decide_eq_false_2 _ (Hf Htrait)).
      unfold add_trait, add_gene. repeat case_match; simpl; auto.
Qed.

(** C4: the evidence test fails exactly for the candidates that disagree
    with an observed trait.  A candidate that fails leaves the accumulators
    as they are; one that passes adds a positive probability to the total of
    every person.  Hence, in the table that [main] hands to [normalize], the
    cell for "no trait" of a person observed with the trait is zero, and so
    is the cell for "trait" of a person observed without it. *)
Theorem evidence_filter (people : gmap string Person) (have_trait : gset string) :
  (∃ fails, fails_evidence people (dom people) have_trait = Ok fails
            ∧ (fails = false ↔ evidence_consistent people have_trait))
  ∧ (∀ probabilities total, accumulated people probabilities total →
       (¬ evidence_consistent people have_trait →
          trait_step people (dom people) probabilities have_trait = Ok probabilities)
       ∧ (evidence_consistent people have_trait →
          ∃ probabilities' total',
            trait_step people (dom people) probabilities have_trait = Ok probabilities'
            ∧ accumulated people probabilities' total' ∧ (total < total')%Q
            ∧ ∀ person d d',
                probabilities !! person = Some d → probabilities' !! person = Some d' →
                (gene_sum d < gene_sum d')%Q ∧ (trait_sum d < trait_sum d')%Q))
  ∧ (∃ probabilities total,
       accumulate people = Ok probabilities
       ∧ accumulated people probabilities total
       ∧ ∀ person row d,
           people !! person = Some row → probabilities !! person = Some d →
           (trait row = Some true → trait_False d = 0%Q)
           ∧ (trait row = Some false → trait_True d = 0%Q)).
Proof.
  split; [apply fails_evidence_spec |]. split.
  - intros probs total Hacc.
    destruct (trait_step_spec people have_trait probs total Hacc) as [Hyes Hno].
    split; [done |]. intros Hcons.
    destruct (Hyes Hcons) as (probs' & total' & Hstep & Hacc' & Hlt).
    exists probs', total'. repeat (split; [done |]).
    intros person d d' Hd Hd'.
    destruct (accumulated_sums _ _ _ Hacc person d Hd) as [-> ->].
    destruct (accumulated_sums _ _ _ Hacc' person d' Hd') as [-> ->]. done.
  - destruct (accumulate_accumulated people) as (probs & total & Hrun & Hacc).
    exists probs, total. split; [done |]. split; [done |].
    by apply accumulated_evidence with total.
Qed.

Lemma evidence_filter_witness :
  ∃ probabilities total,
    accumulate observed = Ok probabilities
    ∧ accumulated observed probabilities total
    ∧ ∀ person row d,
        observed !! person = Some row → probabilities !! person = Some d →
        (trait row = Some true → trait_False d = 0%Q)
        ∧ (trait row = Some false → trait_True d = 0%Q).
Proof. exact (proj2 (proj2 (evidence_filter observed {["A"]}))). Defined.

Example accumulate_observed :
  ∃ table d, accumulate observed = Ok table ∧ table !! "A" = Some d
    ∧ trait_False d = 0%Q ∧ (trait_True d == 0.96 * 0.01 + 0.03 * 0.56 + 0.01 * 0.65)%Q.
Proof. eexists _, _. repeat split; by vm_compute. Qed.

(** In exact arithmetic: a call of [update] never raises; on the entry of
    each person it adds [p] to one gene cell and to one trait cell and keeps
    the other cells.  So in every table of the accumulation, the one handed
    to [normalize] included, the gene cells and the trait cells of a person
    both add up to the total added so far.  With rounded additions the two
    sums need not be the same number (see the part on binary64). *)
Lemma update_keeps_sums_equal (probabilities : gmap string Dist)
    (one_gene two_genes have_trait : gset string) (p : Q) :
  (∃ probabilities',
     update probabilities one_gene two_genes have_trait p = Ok probabilities'
     ∧ (∀ person, probabilities !! person = None → probabilities' !! person = None)
     ∧ ∀ person d, probabilities !! person = Some d →
         ∃ d', probabilities' !! person = Some d'
               ∧ one_gene_cell_added p d d' ∧ one_trait_cell_added p d d'
               ∧ ((gene_sum d == trait_sum d)%Q → (gene_sum d' == trait_sum d')%Q))
  ∧ (∀ people total, accumulated people probabilities total →
       ∀ person d, probabilities !! person = Some d →
         (gene_sum d == total)%Q ∧ (trait_sum d == total)%Q
         ∧ (gene_sum d == trait_sum d)%Q)
  ∧ (∀ people, ∃ final total,
       accumulate people = Ok final ∧ accumulated people final total
       ∧ ∀ person d, final !! person = Some d → (gene_sum d == trait_sum d)%Q).
Proof.
  split; [|split].
  - destruct (update_spec probabilities one_gene two_genes have_trait p)
      as (probs' & Hupd & Hlook).
    exists probs'. split; [done |]. split.
    + intros person Hnone. by rewrite Hlook, Hnone.
    + intros person d Hd. rewrite Hlook, Hd. simpl. eexists. split; [done |].
      destruct (update_entry_cells one_gene two_genes have_trait p person d) as [Hg Ht].
      split; [done |]. split; [done |]. intros Heq.
      destruct (cells_added_sums p d _ Hg Ht) as [-> ->]. by rewrite Heq.
  - intros people total Hacc person d Hd.
    destruct (accumulated_sums _ _ _ Hacc person d Hd) as [Hg Ht].
    split; [done |]. split; [done |]. by rewrite Hg, Ht.
  - intros people.
    destruct (accumulate_accumulated people) as (final & total & Hrun & Hacc).
    exists final, total. split; [done |]. split; [done |]. intros person d Hd.
    destruct (accumulated_sums _ _ _ Hacc person d Hd) as [Hg Ht]. by rewrite Hg, Ht.
Qed.

(** ** Parents that are not in the data *)

(** C7, as stated, fails: the parents "Y" and "Z" of "X" are no rows of the
    data, and both [joint_probability] and [main] return. *)
Lemma missing_parent_not_raised :
  has_missing_parent orphan
  ∧ joint_probability orphan ∅ ∅ ∅ = Ok 0.970299%Q
  ∧ ¬ (∃ e, joint_probability orphan ∅ ∅ ∅ = Raise e)
  ∧ ¬ (∃ e, main orphan = Raise e).
Proof.
  split; [|split; [|split]].
  - exists "X", (mkPerson "X" (Some "Y") (Some "Z") None), "Y".
    split; [reflexivity |]. split; [by left | reflexivity].
  - by vm_compute.
  - intros [e He]. vm_compute in He. discriminate He.
  - intros [e He]. destruct (main_total orphan) as [table Ht]. congruence.
Qed.

(** C7, amended: a recorded parent that is no row of the data raises
    nothing.  [joint_probability] and [main] return; the person is handled
    by the branch for recorded parents, and the gene count of the missing
    parent is read off the two gene sets, which gives 0 for every
    hypothesis drawn from the names of the data. *)
Theorem missing_parent_counts_by_membership (people : gmap string Person)
    (person parent : string) (row : Person)
    (one_gene two_genes have_trait : gset string) :
  people !! person = Some row →
  mother row = Some parent ∨ father row = Some parent →
  people !! parent = None →
  (∃ q, joint_probability people one_gene two_genes have_trait = Ok q)
  ∧ (∃ table, main people = Ok table)
  ∧ gene_factor one_gene two_genes person row
    = Ok (inherited (copies_of one_gene two_genes (Some person))
            (copies_of one_gene two_genes (mother row))
            (copies_of one_gene two_genes (father row)))
  ∧ (one_gene ⊆ dom people → two_genes ⊆ dom people →
     copies_of one_gene two_genes (Some parent) = 0).
Proof.
  intros Hrow Hparent Hmissing. split; [|split; [|split]].
  - destruct (joint_probability_bounds people one_gene two_genes have_trait)
      as (q & Hq & _). eauto.
  - apply main_total.
  - unfold gene_factor.
    destruct Hparent as [Hm|Hf].
    + rewrite Hm. done.
    + rewrite Hf. by rewrite andb_false_r.
  - intros Hog Htg. unfold copies_of, parent_in, is_in.
    assert (parent ∉ dom people) as Hdom by by apply not_elem_of_dom.
    rewrite !bool_decide_eq_false_2; [done | |]; intros Hin; apply Hdom; auto.
Qed.

Lemma missing_parent_counts_by_membership_witness :
  (∃ q, joint_probability orphan ∅ ∅ ∅ = Ok q)
  ∧ (∃ table, main orphan = Ok table)
  ∧ gene_factor ∅ ∅ "X" (mkPerson "X" (Some "Y") (Some "Z") None)
    = Ok (inherited (copies_of ∅ ∅ (Some "X")) (copies_of ∅ ∅ (Some "Y"))
            (copies_of ∅ ∅ (Some "Z")))
  ∧ (∅ ⊆ dom orphan → ∅ ⊆ dom orphan → copies_of ∅ ∅ (Some "Y") = 0).
Proof.
  apply (missing_parent_counts_by_membership orphan "X" "Y"
           (mkPerson "X" (Some "Y") (Some "Z") None) ∅ ∅ ∅);
    [reflexivity | by left | reflexivity].
Defined.

(** ** One person without parents *)

(** C9: for the single person "A", without parents and without an observed
    trait, [main] returns the gene distribution 0.96, 0.03, 0.01 for 0, 1 and
    2 copies.  The accumulated trait cells are
    0.96*0.99 + 0.03*0.44 + 0.01*0.35 for "absent" and
    0.96*0.01 + 0.03*0.56 + 0.01*0.65 for "present", and [main] returns each
    divided by their sum, so that the two add up to 1. *)
Theorem single_person_posterior :
  ∃ accumulators a table d,
    accumulate single = Ok accumulators ∧ accumulators !! "A" = Some a
    ∧ main single = Ok table ∧ table !! "A" = Some d
    ∧ (gene_0 d == 0.96)%Q ∧ (gene_1 d == 0.03)%Q ∧ (gene_2 d == 0.01)%Q
    ∧ (trait_False a == 0.96 * 0.99 + 0.03 * 0.44 + 0.01 * 0.35)%Q
    ∧ (trait_True a == 0.96 * 0.01 + 0.03 * 0.56 + 0.01 * 0.65)%Q
    ∧ (trait_False d
       == (0.96 * 0.99 + 0.03 * 0.44 + 0.01 * 0.35)
          / ((0.96 * 0.99 + 0.03 * 0.44 + 0.01 * 0.35)
             + (0.96 * 0.01 + 0.03 * 0.56 + 0.01 * 0.65)))%Q
    ∧ (trait_True d
       == (0.96 * 0.01 + 0.03 * 0.56 + 0.01 * 0.65)
          / ((0.96 * 0.99 + 0.03 * 0.44 + 0.01 * 0.35)
             + (0.96 * 0.01 + 0.03 * 0.56 + 0.01 * 0.65)))%Q
    ∧ (trait_True d + trait_False d == 1)%Q
    ∧ (trait_False d == 0.9671)%Q ∧ (trait_True d == 0.0329)%Q.
Proof.
  destruct (accumulate single) as [accumulators|e] eqn:Hacc;
    [|vm_compute in Hacc; discriminate Hacc].
  destruct (accumulators !! "A") as [a|] eqn:Ha;
    [|vm_compute in Hacc; injection Hacc as <-; vm_compute in Ha; discriminate Ha].
  destruct (main single) as [table|e] eqn:Hmain;
    [|vm_compute in Hmain; discriminate Hmain].
  exists accumulators, a, table.
  vm_compute in Hacc. injection Hacc as <-. vm_compute in Ha. injection Ha as <-.
  vm_compute in Hmain. injection Hmain as <-.
  eexists. split; [done |]. split; [done |]. split; [done |].
  split; [by vm_compute |]. repeat split; by vm_compute.
Qed.

(** ** The table that main prints *)

Lemma accumulated_dom (people : gmap string Person)
    (probabilities : gmap string Dist) (total : Q) :
  accumulated people probabilities total →
  ∀ person, is_Some (probabilities !! person) ↔ is_Some (people !! person).
Proof.
  induction 1 as [|probs total og tg ht p probs' Hacc IH Hcons Hp Hupd]; intros person.
  - rewrite lookup_fmap. apply fmap_is_Some.
  - destruct (update_spec probs og tg ht p) as (probs2 & Hupd2 & Hlook).
    rewrite Hupd in Hupd2. injection Hupd2 as <-.
    rewrite Hlook, fmap_is_Some. apply IH.
Qed.

Lemma observed_with_trait_consistent (people : gmap string Person) :
  observed_with_trait people ∈ powerset (dom people)
  ∧ evidence_consistent people (observed_with_trait people).
Proof.
  unfold observed_with_trait. split.
  - apply elem_of_powerset, dom_filter_subseteq.
  - intros person row Hrow. split.
    + intros Ht. apply elem_of_dom. exists row. by apply map_lookup_filter_Some.
    + intros Hf [row' [Hrow' Ht]%map_lookup_filter_Some]%elem_of_dom.
      simpl in Ht. congruence.
Qed.

(** A step of the loop over [have_trait] never lowers the total. *)
Lemma trait_step_above (people : gmap string Person) (have_trait : gset string)
    (probabilities : gmap string Dist) (bound : Q) :
  (∃ total, accumulated people probabilities total ∧ (bound < total)%Q) →
  ∃ probabilities',
    trait_step people (dom people) probabilities have_trait = Ok probabilities'
    ∧ ∃ total', accumulated people probabilities' total' ∧ (bound < total')%Q.
Proof.
  intros (total & Hacc & Hb).
  destruct (trait_step_spec people have_trait probabilities total Hacc) as [Hyes Hno].
  destruct (fails_evidence_spec people have_trait) as (b & _ & Hb').
  destruct b.
  - rewrite Hno; [eauto |]. intros Hcons. by apply Hb' in Hcons.
  - destruct Hyes as (probs' & total' & -> & Hacc' & Hlt); [by apply Hb' |].
    exists probs'. split; [done |]. exists total'. split; [done |].
    by apply Qlt_trans with total.
Qed.

(** Some candidate passes the evidence test, so the total that [main]
    accumulates is positive. *)
Lemma accumulate_positive (people : gmap string Person) :
  ∃ probabilities total,
    accumulate people = Ok probabilities
    ∧ accumulated people probabilities total ∧ (0 < total)%Q.
Proof.
  unfold accumulate.
  destruct (observed_with_trait_consistent people) as [Hin Hcons].
  apply list_elem_of_split in Hin as (before & after & ->).
  rewrite for_loop_app.
  destruct (for_loop_invariant (λ probs, ∃ total, accumulated people probs total ∧ (-1 < total)%Q)
              (trait_step people (dom people)) before ((λ _, zero_dist) <$> people))
    as (probs1 & -> & total1 & Hacc1 & Hlow1).
  { exists 0%Q. split; [constructor | done]. }
  { intros probs ht _. apply trait_step_above. }
  simpl.
  assert (0 <= total1)%Q as Hnonneg.
  { clear Hlow1. induction Hacc1 as [|? ? og tg ht p ? ? IH ? Hp ?]; [done |].
    destruct (joint_probability_bounds people og tg ht) as (q & Hq & Hpos & _).
    rewrite Hp in Hq. injection Hq as <-. lra. }
  destruct (trait_step_spec people (observed_with_trait people) probs1 total1 Hacc1)
    as [Hyes _].
  destruct (Hyes Hcons) as (probs2 & total2 & -> & Hacc2 & Hlt). simpl.
  destruct (for_loop_invariant (λ probs, ∃ total, accumulated people probs total ∧ (0 < total)%Q)
              (trait_step people (dom people)) after probs2)
    as (probs3 & -> & total3 & Hacc3 & Hpos3).
  { exists total2. split; [done | lra]. }
  { intros probs ht _. apply trait_step_above. }
  eauto.
Qed.

(** X1: for every pedigree [main] returns a table with one entry per person, in
    which the three gene cells add up to 1, the two trait cells add up to 1,
    and each cell is the accumulated cell divided by the sum of its
    distribution. *)
Theorem main_returns_distributions (people : gmap string Person) :
  ∃ accumulators total table,
    accumulate people = Ok accumulators
    ∧ accumulated people accumulators total ∧ (0 < total)%Q
    ∧ main people = Ok table
    ∧ ∀ person,
        (is_Some (table !! person) ↔ is_Some (people !! person))
        ∧ ∀ d, table !! person = Some d →
            ∃ a, accumulators !! person = Some a
              ∧ (gene_sum a == total)%Q ∧ (trait_sum a == total)%Q
              ∧ d = mkDist (gene_2 a / gene_sum a) (gene_1 a / gene_sum a)
                      (gene_0 a / gene_sum a)
                      (trait_True a / trait_sum a) (trait_False a / trait_sum a)
              ∧ (gene_2 d + gene_1 d + gene_0 d == 1)%Q
              ∧ (trait_True d + trait_False d == 1)%Q.
Proof.
  destruct (accumulate_positive people) as (acc & total & Hrun & Hacc & Hpos).
  destruct (normalize_spec acc) as (table & Hnorm & Hsome & Hnone).
  exists acc, total, table. split; [done |]. split; [done |]. split; [done |].
  split; [unfold main; by rewrite Hrun |].
  intros person. split.
  - rewrite <- (accumulated_dom _ _ _ Hacc person).
    destruct (acc !! person) as [a|] eqn:Ha.
    + destruct (Hsome person a Ha) as (d & _ & ->). split; eauto.
    + rewrite (Hnone person Ha). done.
  - intros d Hd. destruct (acc !! person) as [a|] eqn:Ha;
      [|rewrite (Hnone person Ha) in Hd; done].
    destruct (Hsome person a Ha) as (d' & Hentry & Hd'). rewrite Hd in Hd'.
    injection Hd' as <-.
    destruct (accumulated_sums _ _ _ Hacc person a Ha) as [Hg Ht].
    assert (0 < gene_sum a)%Q as Hgpos by lra.
    assert (0 < trait_sum a)%Q as Htpos by lra.
    rewrite (normalize_entry_positive a Hgpos Htpos) in Hentry. injection Hentry as <-.
    exists a. split; [done |]. split; [done |]. split; [done |]. split; [done |].
    apply (normalized_sums a Hgpos Htpos).
Qed.

(** ** The table of main, cell by cell *)

(** What [main] returns, in terms of the accumulators. *)
Lemma main_table_spec (people : gmap string Person) :
  ∃ accumulators total table,
    accumulate people = Ok accumulators
    ∧ accumulated people accumulators total ∧ (0 < total)%Q
    ∧ main people = Ok table
    ∧ ∀ person d, table !! person = Some d →
        ∃ a, accumulators !! person = Some a
          ∧ (gene_sum a == total)%Q ∧ (trait_sum a == total)%Q
          ∧ d = mkDist (gene_2 a / gene_sum a) (gene_1 a / gene_sum a)
                  (gene_0 a / gene_sum a)
                  (trait_True a / trait_sum a) (trait_False a / trait_sum a).
Proof.
  destruct (accumulate_positive people) as (acc & total & Hrun & Hacc & Hpos).
  destruct (normalize_spec acc) as (table & Hnorm & Hsome & Hnone).
  exists acc, total, table. repeat (split; [done |]).
  split; [unfold main; by rewrite Hrun |].
  intros person d Hd. destruct (acc !! person) as [a|] eqn:Ha;
    [|rewrite (Hnone person Ha) in Hd; done].
  destruct (Hsome person a Ha) as (d' & Hentry & Hd'). rewrite Hd in Hd'.
  injection Hd' as <-.
  destruct (accumulated_sums _ _ _ Hacc person a Ha) as [Hg Ht].
  rewrite normalize_entry_positive in Hentry by lra. injection Hentry as <-.
  exists a. done.
Qed.

(** No call of [update] in [main] makes a cell negative. *)
Lemma accumulated_nonneg (people : gmap string Person)
    (probabilities : gmap string Dist) (total : Q) :
  accumulated people probabilities total →
  ∀ person d, probabilities !! person = Some d →
    (0 <= gene_2 d)%Q ∧ (0 <= gene_1 d)%Q ∧ (0 <= gene_0 d)%Q
    ∧ (0 <= trait_True d)%Q ∧ (0 <= trait_False d)%Q.
Proof.
  induction 1 as [|probs total og tg ht p probs' Hacc IH Hcons Hp Hupd];
    intros person d Hd.
  - rewrite lookup_fmap in Hd. destruct (people !! person); [|done].
    injection Hd as <-. repeat split; by vm_compute.
  - destruct (update_spec probs og tg ht p) as (probs2 & Hupd2 & Hlook).
    rewrite Hupd in Hupd2. injection Hupd2 as <-.
    rewrite Hlook in Hd. destruct (probs !! person) as [d0|] eqn:Hd0; [|done].
    injection Hd as <-.
    destruct (IH person d0 Hd0) as (H2 & H1 & H0 & HT & HF).
    destruct (joint_probability_bounds people og tg ht) as (q & Hq & Hpos & _).
    rewrite Hp in Hq. injection Hq as <-.
    destruct (update_entry_cells og tg ht p person d0) as [Hg Ht].
    unfold one_gene_cell_added, one_trait_cell_added in Hg, Ht.
    destruct Hg as [(-> & -> & ->)|[(-> & -> & ->)|(-> & -> & ->)]];
      destruct Ht as [(-> & ->)|(-> & ->)]; repeat split; lra.
Qed.

Lemma ratio_in_unit_interval (x s : Q) :
  (0 <= x)%Q → (x <= s)%Q → (0 < s)%Q → (0 <= x / s)%Q ∧ (x / s <= 1)%Q.
Proof.
  intros Hx Hxs Hs. split.
  - apply Qle_shift_div_l; [done | lra].
  - apply Qle_shift_div_r; [done | lra].
Qed.

(** X3: every cell of the table that [main] returns is a probability: it
    lies between 0 and 1. *)
Theorem main_cells_in_unit_interval (people : gmap string Person) :
  ∃ table,
    main people = Ok table
    ∧ ∀ person d, table !! person = Some d →
        (0 <= gene_2 d ∧ gene_2 d <= 1)%Q
        ∧ (0 <= gene_1 d ∧ gene_1 d <= 1)%Q
        ∧ (0 <= gene_0 d ∧ gene_0 d <= 1)%Q
        ∧ (0 <= trait_True d ∧ trait_True d <= 1)%Q
        ∧ (0 <= trait_False d ∧ trait_False d <= 1)%Q.
Proof.
  destruct (main_table_spec people)
    as (acc & total & table & Hrun & Hacc & Hpos & Hmain & Hcells).
  exists table. split; [done |]. intros person d Hd.
  destruct (Hcells person d Hd) as (a & Ha & Hg & Ht & ->).
  destruct (accumulated_nonneg _ _ _ Hacc person a Ha) as (H2 & H1 & H0 & HT & HF).
  cbn [gene_2 gene_1 gene_0 trait_True trait_False].
  assert (0 < gene_sum a)%Q as Hgs by lra.
  assert (0 < trait_sum a)%Q as Hts by lra.
  repeat split; apply ratio_in_unit_interval; try done;
    unfold gene_sum, trait_sum in *; lra.
Qed.

(** X4: in the table that [main] returns, a person observed with the trait has
    the trait distribution 1 for "present" and 0 for "absent", and a person
    observed without it has 0 and 1: an observed trait is returned as a
    certainty. *)
Theorem main_returns_observed_traits (people : gmap string Person) :
  ∃ table,
    main people = Ok table
    ∧ ∀ person row d, people !! person = Some row → table !! person = Some d →
        (trait row = Some true → (trait_True d == 1)%Q ∧ (trait_False d == 0)%Q)
        ∧ (trait row = Some false → (trait_True d == 0)%Q ∧ (trait_False d == 1)%Q).
Proof.
  destruct (main_table_spec people)
    as (acc & total & table & Hrun & Hacc & Hpos & Hmain & Hcells).
  exists table. split; [done |]. intros person row d Hrow Hd.
  destruct (Hcells person d Hd) as (a & Ha & Hg & Ht & ->).
  destruct (accumulated_evidence _ _ _ Hacc person row a Hrow Ha) as [Htrue Hfalse].
  cbn [trait_True trait_False].
  assert (0 < trait_sum a)%Q as Hts by lra.
  split; intros Hobs.
  - specialize (Htrue Hobs). unfold trait_sum in *. rewrite Htrue in *.
    split; field; lra.
  - specialize (Hfalse Hobs). unfold trait_sum in *. rewrite Hfalse in *.
    split; field; lra.
Qed.

(** X5: on the empty pedigree [joint_probability] returns the empty product
    1, whatever the three sets are, and [main] returns the empty table. *)
Theorem empty_pedigree (one_gene two_genes have_trait : gset string) :
  joint_probability ∅ one_gene two_genes have_trait = Ok 1%Q
  ∧ accumulate ∅ = Ok ∅
  ∧ main ∅ = Ok ∅.
Proof.
  split; [|split].
  - unfold joint_probability, keys. by rewrite map_to_list_empty.
  - by vm_compute.
  - by vm_compute.
Qed.

(** ** How many subsets, in which order *)

Section Sublists.
Context {A : Type}.
Implicit Types (l x : list A).

Lemma elem_of_sublists l x : x ∈ sublists l ↔ x `sublist_of` l.
Proof.
  revert x. induction l as [|a l IH]; intros x; simpl.
  - by rewrite list_elem_of_singleton, sublist_nil_r.
  - rewrite elem_of_app, list_elem_of_fmap, sublist_cons_r, IH. split.
    + intros [(y & -> & Hy%IH)|Hx]; [right; eauto | by left].
    + intros [Hx|(y & -> & Hy)]; [by right | left]. exists y. by rewrite IH.
Qed.

Lemma NoDup_sublists l : NoDup l → NoDup (sublists l).
Proof.
  induction 1 as [|a l Ha Hnd IH]; simpl; [apply NoDup_singleton |].
  apply NoDup_app. split; [|split; [|done]].
  - apply NoDup_fmap_2; [|done]. by intros y1 y2 [= ->].
  - intros x (y & -> & Hy)%list_elem_of_fmap Hsub%elem_of_sublists.
    apply Ha. eapply elem_of_sublist; [|exact Hsub]. left.
Qed.

Lemma length_sublists l : length (sublists l) = 2 ^ length l.
Proof.
  induction l as [|a l IH]; [done |].
  simpl. rewrite length_app, length_fmap, IH. lia.
Qed.

(** The combinations of all lengths are the sub-sequences, in another
    order. *)
Lemma all_combinations_sublists l :
  NoDup l → seq 0 (length l + 1) ≫= combinations l ≡ₚ sublists l.
Proof.
  intros Hnd. apply NoDup_Permutation.
  - by apply NoDup_all_combinations.
  - by apply NoDup_sublists.
  - intros x. by rewrite elem_of_all_combinations, elem_of_sublists.
Qed.

(** Along the combinations of the lengths [a], [a+1], ... the length never
    decreases. *)
Lemma combinations_by_length l (a k i j : nat) x y :
  i ≤ j →
  (seq a k ≫= combinations l) !! i = Some x →
  (seq a k ≫= combinations l) !! j = Some y →
  a ≤ length x ∧ length x ≤ length y.
Proof.
  revert a i j x y. induction k as [|k IH]; intros a i j x y Hij Hx Hy; [done |].
  change (seq a (S k)) with (a :: seq (S a) k) in Hx, Hy.
  rewrite bind_cons in Hx, Hy.
  apply lookup_app_Some in Hx as [Hx|[Hi Hx]];
    apply lookup_app_Some in Hy as [Hy|[Hj Hy]].
  - apply list_elem_of_lookup_2, elem_of_combinations in Hx as [_ ->].
    apply list_elem_of_lookup_2, elem_of_combinations in Hy as [_ ->]. lia.
  - apply list_elem_of_lookup_2, elem_of_combinations in Hx as [_ ->].
    destruct (IH (S a) _ _ y y (Nat.le_refl _) Hy Hy) as [Hay _]. lia.
  - apply lookup_lt_Some in Hy. lia.
  - destruct (IH (S a) (i - length (combinations l a)) (j - length (combinations l a))
                x y) as [Hax Hxy]; [lia | done | done |]. lia.
Qed.
End Sublists.

Lemma sum_list_Permutation (l k : list nat) : l ≡ₚ k → sum_list l = sum_list k.
Proof. induction 1; simpl; lia. Qed.

Lemma sum_list_fmap_ext {A : Type} (f g : A → nat) (l : list A) :
  (∀ x, x ∈ l → f x = g x) → sum_list (f <$> l) = sum_list (g <$> l).
Proof.
  induction l as [|x l IH]; intros Hfg; [done |].
  rewrite !fmap_cons. cbn [sum_list_with].
  rewrite (Hfg x) by left. f_equal. apply IH. intros y Hy. apply Hfg. by right.
Qed.

Lemma sum_list_append (l k : list nat) : sum_list (l ++ k) = sum_list l + sum_list k.
Proof. induction l as [|x l IH]; simpl; lia. Qed.

Lemma length_bind_sum {A B : Type} (f : A → list B) (l : list A) :
  length (l ≫= f) = sum_list ((λ x, length (f x)) <$> l).
Proof.
  induction l as [|x l IH]; [done |]. rewrite bind_cons, length_app, IH. done.
Qed.

Lemma sum_list_fmap_double {A : Type} (h : A → nat) (l : list A) :
  sum_list ((λ x, h x + h x) <$> l) = 2 * sum_list (h <$> l).
Proof.
  induction l as [|x l IH]; [done |].
  rewrite !fmap_cons. cbn [sum_list_with]. rewrite IH. unfold id. lia.
Qed.

(** Over the sub-sequences [x] of [l], the numbers [2 ^ (|l| - |x|)] add up
    to [3 ^ |l|]. *)
Lemma sum_sublists_pow {A : Type} (l : list A) :
  sum_list ((λ x, 2 ^ (length l - length x)) <$> sublists l) = 3 ^ length l.
Proof.
  induction l as [|a l IH]; [done |].
  cbn [sublists]. rewrite fmap_app, sum_list_append, <- list_fmap_compose.
  rewrite (sum_list_fmap_ext _ (λ x, 2 ^ (length l - length x))) by done.
  rewrite (sum_list_fmap_ext (λ x, 2 ^ (length (a :: l) - length x))
             (λ x, 2 ^ (length l - length x) + 2 ^ (length l - length x))).
  - rewrite sum_list_fmap_double, IH. cbn [length]. rewrite Nat.pow_succ_r'. lia.
  - intros x Hx%elem_of_sublists%sublist_length. cbn [length].
    replace (S (length l) - length x) with (S (length l - length x)) by lia.
    rewrite Nat.pow_succ_r'. lia.
Qed.

Lemma length_powerset (s : gset string) : length (powerset s) = 2 ^ size s.
Proof.
  unfold powerset. rewrite length_fmap.
  rewrite (Permutation_length (all_combinations_sublists _ (NoDup_elements s))).
  apply length_sublists.
Qed.

(** X6: [powerset(s)] is a list of [2 ^ len(s)] sets without repetition; its
    members are the subsets of [s]; they come by size, the empty set first:
    a set never comes before a smaller one. *)
Theorem powerset_all_subsets_by_size (s : gset string) :
  length (powerset s) = 2 ^ size s
  ∧ NoDup (powerset s)
  ∧ (∀ X, X ∈ powerset s ↔ X ⊆ s)
  ∧ powerset s !! 0 = Some ∅
  ∧ ∀ i j X Y, i ≤ j → powerset s !! i = Some X → powerset s !! j = Some Y →
      size X ≤ size Y.
Proof.
  split; [apply length_powerset |]. split; [apply NoDup_powerset |].
  split; [intros X; apply elem_of_powerset |].
  split; [by destruct (powerset_first s) as [rest ->] |].
  unfold powerset. intros i j X Y Hij HX HY.
  rewrite list_lookup_fmap in HX, HY.
  destruct (_ !! i) as [x|] eqn:Hx; [|done].
  destruct (_ !! j) as [y|] eqn:Hy; [|done].
  injection HX as <-. injection HY as <-.
  destruct (combinations_by_length _ _ _ _ _ _ _ Hij Hx Hy) as [_ Hlen].
  rewrite !size_list_to_set; [done | |].
  - apply list_elem_of_lookup_2, elem_of_all_combinations in Hy.
    eapply sublist_NoDup; [apply (NoDup_elements s) | done].
  - apply list_elem_of_lookup_2, elem_of_all_combinations in Hx.
    eapply sublist_NoDup; [apply (NoDup_elements s) | done].
Qed.

Lemma length_bind_singleton {A B : Type} (g : A → B) (l : list A) :
  length (l ≫= λ x, [g x]) = length l.
Proof. induction l as [|x l IH]; [done |]. rewrite bind_cons. simpl. by rewrite IH. Qed.

(** X7: for [n] names the two loops over [one_gene] and [two_genes] go
    through [3 ^ n] hypotheses, so that a candidate [have_trait] that passes
    the evidence test costs [3 ^ n] calls of [joint_probability]. *)
Theorem gene_hypotheses_count (names : gset string) :
  length (gene_hypotheses names) = 3 ^ size names.
Proof.
  unfold gene_hypotheses. rewrite length_bind_sum.
  rewrite (sum_list_fmap_ext _ (λ one_gene, 2 ^ size (names ∖ one_gene))).
  2:{ intros og _. by rewrite length_bind_singleton, length_powerset. }
  unfold powerset. rewrite <- list_fmap_compose.
  rewrite (sum_list_fmap_ext _ (λ x, 2 ^ (length (elements names) - length x))).
  2:{ intros x Hx%elem_of_all_combinations. simpl.
      assert (NoDup x) as Hnd by (eapply sublist_NoDup; [apply (NoDup_elements names) | done]).
      rewrite size_difference.
      - by rewrite (size_list_to_set x Hnd).
      - intros a Ha%elem_of_list_to_set. apply elem_of_elements.
        by eapply elem_of_sublist. }
  rewrite (sum_list_Permutation _ _
             (fmap_Permutation _ _ _ (all_combinations_sublists _ (NoDup_elements names)))).
  apply sum_sublists_pow.
Qed.

(** ** update, call after call *)

(** X8: [update] adds [p], for every person of the table, to the gene cell
    of the count that [joint_probability] assigns to the person (2 if in
    [two_genes], whatever [one_gene] holds, else 1 if in [one_gene], else 0)
    and to the trait cell of the person's membership in [have_trait]; the
    other cells keep their value and no entry is added or removed. *)
Theorem update_adds_to_assigned_cells (probabilities : gmap string Dist)
    (one_gene two_genes have_trait : gset string) (p : Q) :
  ∃ probabilities',
    update probabilities one_gene two_genes have_trait p = Ok probabilities'
    ∧ dom probabilities' = dom probabilities
    ∧ ∀ person d, probabilities !! person = Some d →
        ∃ d', probabilities' !! person = Some d'
          ∧ ∀ copies has_trait, copies ≤ 2 →
              gene_cell copies d'
              = (if decide (copies = copies_of one_gene two_genes (Some person))
                 then (gene_cell copies d + p)%Q else gene_cell copies d)
              ∧ trait_cell has_trait d'
                = (if decide (has_trait = is_in person have_trait)
                   then (trait_cell has_trait d + p)%Q else trait_cell has_trait d).
Proof.
  destruct (update_spec probabilities one_gene two_genes have_trait p)
    as (probs' & Hupd & Hlook).
  exists probs'. split; [done |]. split.
  - apply set_eq. intros person. rewrite !elem_of_dom, Hlook. apply fmap_is_Some.
  - intros person d Hd. rewrite Hlook, Hd. simpl. eexists. split; [done |].
    intros copies has_trait Hle.
    unfold update_entry, copies_of, parent_in.
    destruct (is_in person two_genes), (is_in person one_gene),
      (is_in person have_trait), has_trait;
      destruct copies as [|[|[|?]]]; try lia; done.
Qed.

#[local] Instance dist_equiv_equivalence : Equivalence dist_equiv.
Proof.
  unfold dist_equiv. split.
  - intros d. repeat split; reflexivity.
  - intros d d' (? & ? & ? & ? & ?). repeat split; by symmetry.
  - intros d1 d2 d3 (? & ? & ? & ? & ?) (? & ? & ? & ? & ?).
    repeat split; etrans; eauto.
Qed.

Lemma update_entry_equiv (one_gene two_genes have_trait : gset string) (p : Q)
    (person : string) (d d' : Dist) :
  dist_equiv d d' →
  dist_equiv (update_entry one_gene two_genes have_trait p person d)
    (update_entry one_gene two_genes have_trait p person d').
Proof.
  unfold dist_equiv, update_entry. intros (H2 & H1 & H0 & HT & HF).
  destruct (is_in person two_genes), (is_in person one_gene),
    (is_in person have_trait); simpl; repeat split; lra.
Qed.

Lemma update_entry_swap (c1 c2 : Call) (person : string) (d : Dist) :
  dist_equiv
    (update_entry (call_one_gene c2) (call_two_genes c2) (call_have_trait c2) (call_p c2)
       person
       (update_entry (call_one_gene c1) (call_two_genes c1) (call_have_trait c1)
          (call_p c1) person d))
    (update_entry (call_one_gene c1) (call_two_genes c1) (call_have_trait c1) (call_p c1)
       person
       (update_entry (call_one_gene c2) (call_two_genes c2) (call_have_trait c2)
          (call_p c2) person d)).
Proof.
  unfold dist_equiv, update_entry.
  destruct (is_in person (call_two_genes c1)), (is_in person (call_one_gene c1)),
    (is_in person (call_have_trait c1)), (is_in person (call_two_genes c2)),
    (is_in person (call_one_gene c2)), (is_in person (call_have_trait c2));
    simpl; repeat split; ring.
Qed.

(** The entry of [person] after the calls, from the entry before them. *)
Lemma update_all_spec (calls : list Call) (probabilities : gmap string Dist) :
  ∃ probabilities',
    update_all calls probabilities = Ok probabilities'
    ∧ ∀ person,
        probabilities' !! person
        = (λ d, foldl (λ d c, update_entry (call_one_gene c) (call_two_genes c)
                               (call_have_trait c) (call_p c) person d) d calls)
            <$> probabilities !! person.
Proof.
  unfold update_all. revert probabilities.
  induction calls as [|c calls IH]; intros probs.
  - exists probs. split; [done |]. intros person. by destruct (probs !! person).
  - destruct (update_spec probs (call_one_gene c) (call_two_genes c)
                (call_have_trait c) (call_p c)) as (probs1 & Hupd & Hlook).
    cbn [for_loop]. rewrite Hupd. simpl.
    destruct (IH probs1) as (probs' & Hrun & Hlook').
    exists probs'. split; [done |]. intros person.
    rewrite Hlook', Hlook. by destruct (probs !! person).
Qed.

Lemma foldl_update_entry_Permutation (calls calls' : list Call) (person : string) :
  calls ≡ₚ calls' →
  ∀ d d', dist_equiv d d' →
    dist_equiv
      (foldl (λ d c, update_entry (call_one_gene c) (call_two_genes c)
                       (call_have_trait c) (call_p c) person d) d calls)
      (foldl (λ d c, update_entry (call_one_gene c) (call_two_genes c)
                       (call_have_trait c) (call_p c) person d) d' calls').
Proof.
  induction 1 as [|c l l' Hperm IH|c1 c2 l|l1 l2 l3 H12 IH12 H23 IH23];
    intros d d' Hd; simpl.
  - done.
  - by apply IH, update_entry_equiv.
  - assert (∀ e e', dist_equiv e e' →
              dist_equiv
                (foldl (λ d c, update_entry (call_one_gene c) (call_two_genes c)
                                 (call_have_trait c) (call_p c) person d) e l)
                (foldl (λ d c, update_entry (call_one_gene c) (call_two_genes c)
                                 (call_have_trait c) (call_p c) person d) e' l)) as Hl.
    { induction l as [|c l IHl]; intros e e' He; simpl; [done |].
      by apply IHl, update_entry_equiv. }
    apply Hl. etrans; [apply update_entry_swap |].
    by do 2 apply update_entry_equiv.
  - etrans; [apply IH12; exact Hd |]. apply IH23. reflexivity.
Qed.

(** In exact arithmetic the order of the calls of [update] does not
    matter: the same calls in another order, on the same table, raise
    nothing either and give the same number in every cell.  With rounded
    additions the order matters (see the part on binary64). *)
Lemma update_order_irrelevant (calls calls' : list Call)
    (probabilities : gmap string Dist) :
  calls ≡ₚ calls' →
  ∃ after after',
    update_all calls probabilities = Ok after
    ∧ update_all calls' probabilities = Ok after'
    ∧ table_equiv after after'.
Proof.
  intros Hperm.
  destruct (update_all_spec calls probabilities) as (t & Hrun & Hlook).
  destruct (update_all_spec calls' probabilities) as (t' & Hrun' & Hlook').
  exists t, t'. split; [done |]. split; [done |].
  intros person. rewrite Hlook, Hlook'.
  destruct (probabilities !! person) as [d|]; constructor.
  by apply foldl_update_entry_Permutation.
Qed.

Lemma update_order_irrelevant_witness :
  ∃ after after',
    update_all [mkCall {["A"]} ∅ ∅ 0.25; mkCall ∅ {["A"]} {["A"]} 0.5] gene_only
    = Ok after
    ∧ update_all [mkCall ∅ {["A"]} {["A"]} 0.5; mkCall {["A"]} ∅ ∅ 0.25] gene_only
      = Ok after'
    ∧ table_equiv after after'.
Proof. apply update_order_irrelevant. apply Permutation_swap. Defined.

(** ** normalize, twice and on another scale *)

Lemma normalize_entry_value (d : Dist) :
  ∃ d', normalize_entry d = Ok d'
    ∧ (if Qgt_bool (gene_sum d) 0
       then gene_2 d' = (gene_2 d / gene_sum d)%Q
            ∧ gene_1 d' = (gene_1 d / gene_sum d)%Q
            ∧ gene_0 d' = (gene_0 d / gene_sum d)%Q
       else gene_2 d' = gene_2 d ∧ gene_1 d' = gene_1 d ∧ gene_0 d' = gene_0 d)
    ∧ (if Qgt_bool (trait_sum d) 0
       then trait_True d' = (trait_True d / trait_sum d)%Q
            ∧ trait_False d' = (trait_False d / trait_sum d)%Q
       else trait_True d' = trait_True d ∧ trait_False d' = trait_False d).
Proof.
  destruct (normalize_entry_Ok d)
    as (d1 & d2 & Hg & Ht & Hentry & HtT & HtF & Hg2 & Hg1 & Hg0).
  exists d2. split; [done |].
  rewrite normalize_gene_Ok in Hg. injection Hg as Hg.
  rewrite normalize_trait_Ok in Ht. injection Ht as Ht.
  assert (trait_sum d1 = trait_sum d) as Hsum by (unfold trait_sum; congruence).
  rewrite Hsum in Ht. rewrite Hg2, Hg1, Hg0. split.
  - destruct (Qgt_bool (gene_sum d) 0); by subst d1.
  - destruct (Qgt_bool (trait_sum d) 0); subst d2; simpl; by rewrite ?HtT, ?HtF.
Qed.

(** Normalizing an entry a second time changes no number. *)
Lemma normalize_entry_idempotent (d d1 : Dist) :
  normalize_entry d = Ok d1 →
  ∃ d2, normalize_entry d1 = Ok d2 ∧ dist_equiv d1 d2.
Proof.
  intros Hd1.
  destruct (normalize_entry_value d) as (d1' & Hd1' & Hg & Ht).
  rewrite Hd1 in Hd1'. injection Hd1' as <-.
  destruct (normalize_entry_value d1) as (d2 & Hd2 & Hg2 & Ht2).
  exists d2. split; [done |]. unfold dist_equiv.
  assert ((gene_2 d1 == gene_2 d2)%Q ∧ (gene_1 d1 == gene_1 d2)%Q
          ∧ (gene_0 d1 == gene_0 d2)%Q) as (? & ? & ?).
  { destruct (Qgt_bool (gene_sum d) 0) eqn:Hs.
    - apply Qgt_bool_true in Hs. destruct Hg as (E2 & E1 & E0).
      assert (gene_sum d1 == 1)%Q as Hone.
      { unfold gene_sum at 1. rewrite E2, E1, E0. unfold gene_sum. field.
        unfold gene_sum in Hs. lra. }
      rewrite (proj2 (Qgt_bool_true (gene_sum d1) 0)) in Hg2 by lra.
      destruct Hg2 as (-> & -> & ->). rewrite Hone. repeat split; field.
    - destruct Hg as (E2 & E1 & E0).
      assert (gene_sum d1 = gene_sum d) as Hsame by (unfold gene_sum; congruence).
      rewrite Hsame, Hs in Hg2. destruct Hg2 as (-> & -> & ->). done. }
  assert ((trait_True d1 == trait_True d2)%Q ∧ (trait_False d1 == trait_False d2)%Q)
    as (? & ?); [|done].
  destruct (Qgt_bool (trait_sum d) 0) eqn:Hs.
  - apply Qgt_bool_true in Hs. destruct Ht as (ET & EF).
    assert (trait_sum d1 == 1)%Q as Hone.
    { unfold trait_sum at 1. rewrite ET, EF. unfold trait_sum. field.
      unfold trait_sum in Hs. lra. }
    rewrite (proj2 (Qgt_bool_true (trait_sum d1) 0)) in Ht2 by lra.
    destruct Ht2 as (-> & ->). rewrite Hone. split; field.
  - destruct Ht as (ET & EF).
    assert (trait_sum d1 = trait_sum d) as Hsame by (unfold trait_sum; congruence).
    rewrite Hsame, Hs in Ht2. destruct Ht2 as (-> & ->). done.
Qed.

(** In exact arithmetic [normalize] is idempotent: applied to its own
    result it raises nothing and returns the same number in every cell,
    whatever the sums of the first table were.  With rounded divisions it
    is not (see the part on binary64). *)
Lemma normalize_idempotent (probabilities : gmap string Dist) :
  ∃ once twice,
    normalize probabilities = Ok once
    ∧ normalize once = Ok twice
    ∧ table_equiv once twice.
Proof.
  destruct (normalize_spec probabilities) as (once & Hnorm & Hsome & Hnone).
  destruct (normalize_spec once) as (twice & Hnorm2 & Hsome2 & Hnone2).
  exists once, twice. split; [done |]. split; [done |].
  intros person. destruct (once !! person) as [d1|] eqn:Hd1.
  - destruct (Hsome2 person d1 Hd1) as (d2 & Hd2 & ->). constructor.
    destruct (probabilities !! person) as [d|] eqn:Hd;
      [|rewrite (Hnone person Hd) in Hd1; done].
    destruct (Hsome person d Hd) as (d1' & Hentry & Hd1'). rewrite Hd1 in Hd1'.
    injection Hd1' as <-.
    destruct (normalize_entry_idempotent d d1 Hentry) as (d2' & Hd2' & Hequiv).
    rewrite Hd2 in Hd2'. by injection Hd2' as <-.
  - rewrite (Hnone2 person Hd1). constructor.
Qed.

(** In exact arithmetic [normalize] depends on the proportions only: when
    the sums of every entry are positive, multiplying all the cells of the
    table by a positive number leaves the result of [normalize] as it is,
    cell by cell.  With rounded operations it does not (see the part on
    binary64). *)
Lemma normalize_scale_invariant (c : Q) (probabilities : gmap string Dist) :
  (0 < c)%Q →
  (∀ person d, probabilities !! person = Some d →
     (0 < gene_sum d)%Q ∧ (0 < trait_sum d)%Q) →
  ∃ plain scaled,
    normalize probabilities = Ok plain
    ∧ normalize (scale c <$> probabilities) = Ok scaled
    ∧ table_equiv plain scaled.
Proof.
  intros Hc Hpos.
  destruct (normalize_spec probabilities) as (plain & Hnorm & Hsome & Hnone).
  destruct (normalize_spec (scale c <$> probabilities))
    as (scaled & Hnorm' & Hsome' & Hnone').
  exists plain, scaled. split; [done |]. split; [done |].
  intros person. destruct (probabilities !! person) as [d|] eqn:Hd.
  - destruct (Hpos person d Hd) as [Hg Ht].
    destruct (Hsome person d Hd) as (d1 & Hentry & ->).
    destruct (Hsome' person (scale c d)) as (d2 & Hentry' & ->);
      [by rewrite lookup_fmap, Hd |].
    constructor.
    assert (gene_sum (scale c d) == c * gene_sum d)%Q as Hgs
      by (unfold gene_sum, scale; simpl; ring).
    assert (trait_sum (scale c d) == c * trait_sum d)%Q as Hts
      by (unfold trait_sum, scale; simpl; ring).
    rewrite normalize_entry_positive in Hentry by done.
    rewrite normalize_entry_positive in Hentry' by (rewrite ?Hgs, ?Hts; nra).
    injection Hentry as <-. injection Hentry' as <-.
    unfold dist_equiv. cbn [gene_2 gene_1 gene_0 trait_True trait_False].
    rewrite Hgs, Hts. unfold scale. cbn [gene_2 gene_1 gene_0 trait_True trait_False].
    repeat split; field; lra.
  - rewrite (Hnone person Hd), (Hnone' person); [constructor |].
    by rewrite lookup_fmap, Hd.
Qed.

Lemma normalize_scale_invariant_witness :
  ∃ plain scaled,
    normalize sample_table = Ok plain
    ∧ normalize (scale 8 <$> sample_table) = Ok scaled
    ∧ table_equiv plain scaled.
Proof.
  apply normalize_scale_invariant; [by vm_compute |].
  intros person d Hd. destruct (decide (person = "A")) as [->|Hne].
  - vm_compute in Hd. injection Hd as <-. split; by vm_compute.
  - unfold sample_table in Hd. by rewrite lookup_singleton_ne in Hd.
Defined.

(** ** The factors of joint_probability *)

(** X12: the tables that [joint_probability] multiplies.  The unconditional
    gene probabilities add up to 1 and so do the two trait probabilities of
    each gene count.  The three probabilities computed for a child from its
    parents' gene counts add up to 1 exactly when neither parent is assigned
    one copy; with one such parent they add up to 0.02, with two to 0.0004. *)
Theorem factor_tables_totals :
  (∃ p0 p1 p2, PROBS_gene 0 = Ok p0 ∧ PROBS_gene 1 = Ok p1 ∧ PROBS_gene 2 = Ok p2
               ∧ (p0 + p1 + p2 == 1)%Q)
  ∧ (∀ copies, copies ≤ 2 →
       ∃ t f, PROBS_trait copies true = Ok t ∧ PROBS_trait copies false = Ok f
              ∧ (t + f == 1)%Q)
  ∧ (∀ mother_has_gene father_has_gene,
       mother_has_gene ≤ 2 → father_has_gene ≤ 2 →
       let total := (inherited 0 mother_has_gene father_has_gene
                     + inherited 1 mother_has_gene father_has_gene
                     + inherited 2 mother_has_gene father_has_gene)%Q in
       ((total == 1)%Q ↔ mother_has_gene ≠ 1 ∧ father_has_gene ≠ 1)
       ∧ (mother_has_gene = 1 → father_has_gene ≠ 1 → (total == 0.02)%Q)
       ∧ (mother_has_gene ≠ 1 → father_has_gene = 1 → (total == 0.02)%Q)
       ∧ (mother_has_gene = 1 → father_has_gene = 1 → (total == 0.0004)%Q)).
Proof.
  split; [|split].
  - eexists _, _, _. repeat split; by vm_compute.
  - intros copies Hle. destruct copies as [|[|[|?]]]; try lia;
      eexists _, _; repeat split; by vm_compute.
  - intros gm gf Hm Hf.
    destruct gm as [|[|[|?]]]; try lia; destruct gf as [|[|[|?]]]; try lia;
      cbv zeta; (split; [split; [intros Heq | intros [? ?]] |]);
      try (split; [|split]); try (intros; lia); try (intros; by vm_compute);
      try done; try (split; done); exfalso; by vm_compute in Heq.
Qed.

(** Two products of the same factors, up to equal numbers. *)
Lemma product_loop_equiv (g g' : string → result Q) (l : list string) (a a' : Q) :
  (∀ x, x ∈ l → ∃ q q', g x = Ok q ∧ g' x = Ok q' ∧ (q == q')%Q) →
  (a == a')%Q →
  ∃ r r',
    for_loop (λ acc x, v ← g x; Ok (acc * v)%Q) l a = Ok r
    ∧ for_loop (λ acc x, v ← g' x; Ok (acc * v)%Q) l a' = Ok r'
    ∧ (r == r')%Q.
Proof.
  revert a a'. induction l as [|x l IH]; intros a a' Hg Ha.
  - exists a, a'. done.
  - destruct (Hg x) as (q & q' & Hq & Hq' & Heq); [left |].
    cbn [for_loop]. rewrite Hq, Hq'. simpl. apply IH.
    + intros y Hy. apply Hg. by right.
    + by rewrite Ha, Heq.
Qed.

(** The product does not depend on the order of the factors. *)
Lemma product_loop_Permutation (g : string → result Q) (l l' : list string) :
  l ≡ₚ l' →
  (∀ x, x ∈ l → ∃ q, g x = Ok q) →
  ∀ a a', (a == a')%Q →
  ∃ r r',
    for_loop (λ acc x, v ← g x; Ok (acc * v)%Q) l a = Ok r
    ∧ for_loop (λ acc x, v ← g x; Ok (acc * v)%Q) l' a' = Ok r'
    ∧ (r == r')%Q.
Proof.
  induction 1 as [|x l l' Hperm IH|x y l|l1 l2 l3 H12 IH12 H23 IH23];
    intros Hg a a' Ha.
  - exists a, a'. done.
  - destruct (Hg x) as (q & Hq); [left |].
    cbn [for_loop]. rewrite Hq. simpl. apply IH.
    + intros z Hz. apply Hg. by right.
    + by rewrite Ha.
  - destruct (Hg x) as (qx & Hqx); [right; left |].
    destruct (Hg y) as (qy & Hqy); [left |].
    cbn [for_loop]. rewrite Hqx, Hqy. simpl.
    apply product_loop_equiv.
    + intros z Hz. destruct (Hg z) as (q & Hq); [by do 2 right |].
      exists q, q. done.
    + rewrite Ha. ring.
  - destruct (IH12 Hg a a (Qeq_refl a)) as (r1 & r2 & Hr1 & Hr2 & H12').
    destruct (IH23) with (a := a) (a' := a') as (r2' & r3 & Hr2' & Hr3 & H23'); [|done|].
    { intros x Hx. apply Hg. by rewrite H12. }
    rewrite Hr2 in Hr2'. injection Hr2' as <-.
    exists r1, r3. split; [done |]. split; [done |]. by rewrite H12'.
Qed.

Lemma for_loop_ext {S A : Type} (body body' : S → A → result S) (xs : list A) (s : S) :
  (∀ s x, x ∈ xs → body s x = body' s x) →
  for_loop body xs s = for_loop body' xs s.
Proof.
  revert s. induction xs as [|x xs IH]; intros s Hext; [done |].
  cbn [for_loop]. rewrite (Hext s x) by left.
  destruct (body' s x) as [s'|e]; simpl; [|done].
  apply IH. intros s0 y Hy. apply Hext. by right.
Qed.

Lemma for_loop_fmap {S A B : Type} (f : A → B) (body : S → B → result S)
    (xs : list A) (s : S) :
  for_loop body (f <$> xs) s = for_loop (λ s x, body s (f x)) xs s.
Proof.
  revert s. induction xs as [|x xs IH]; intros s; [done |].
  rewrite fmap_cons. cbn [for_loop]. destruct (body s (f x)); simpl; [apply IH | done].
Qed.

Lemma inherited_symmetric (gene_copies mother_has_gene father_has_gene : nat) :
  (inherited gene_copies mother_has_gene father_has_gene
   == inherited gene_copies father_has_gene mother_has_gene)%Q.
Proof. unfold inherited. destruct gene_copies as [|[|?]]; cbv zeta; ring. Qed.

Lemma gene_factor_swap_parents (one_gene two_genes : gset string)
    (person : string) (row : Person) :
  ∃ q q',
    gene_factor one_gene two_genes person row = Ok q
    ∧ gene_factor one_gene two_genes person (swap_parents row) = Ok q'
    ∧ (q == q')%Q.
Proof.
  destruct (gene_factor_bounds one_gene two_genes person row) as (q & Hq & _).
  exists q. unfold gene_factor in *. cbn [swap_parents mother father].
  rewrite (andb_comm (bool_decide (father row = None))).
  destruct (bool_decide (mother row = None) && bool_decide (father row = None)).
  - exists q. done.
  - injection Hq as <-. eexists. split; [done |]. split; [done |].
    apply inherited_symmetric.
Qed.

(** X13: [joint_probability] treats the two parents alike: on the pedigree
    in which every row has its mother and its father exchanged it returns the
    same number. *)
Theorem joint_probability_parents_exchanged (people : gmap string Person)
    (one_gene two_genes have_trait : gset string) :
  ∃ q q',
    joint_probability people one_gene two_genes have_trait = Ok q
    ∧ joint_probability (swap_parents <$> people) one_gene two_genes have_trait = Ok q'
    ∧ (q == q')%Q.
Proof.
  unfold joint_probability.
  assert (keys (swap_parents <$> people) = keys people) as ->.
  { unfold keys. rewrite map_to_list_fmap, <- list_fmap_compose.
    apply list_fmap_ext. by intros ? [k row]. }
  apply (product_loop_equiv
           (person_prob people one_gene two_genes have_trait)
           (person_prob (swap_parents <$> people) one_gene two_genes have_trait));
    [|done].
  intros person [row Hrow]%elem_of_keys. unfold person_prob.
  rewrite (subscript_Ok _ _ _ Hrow).
  rewrite (subscript_Ok (swap_parents <$> people) person (swap_parents row))
    by (by rewrite lookup_fmap, Hrow).
  simpl.
  destruct (gene_factor_swap_parents one_gene two_genes person row)
    as (g & g' & -> & -> & Hg).
  destruct (PROBS_trait_bounds (copies_of one_gene two_genes (Some person))
              (is_in person have_trait)) as (t & -> & _); [apply copies_of_cases |].
  simpl. eexists _, _. split; [done |]. split; [done |]. by rewrite Hg.
Qed.

(** X14: [joint_probability] reads the three sets only at the names of the
    people and, for the two gene sets, at the names of their recorded
    parents: sets that agree there give the same result. *)
Theorem joint_probability_reads_people_and_parents (people : gmap string Person)
    (one_gene two_genes have_trait one_gene' two_genes' have_trait' : gset string) :
  (∀ person row, people !! person = Some row →
     (person ∈ have_trait ↔ person ∈ have_trait')
     ∧ (∀ x, x = person ∨ mother row = Some x ∨ father row = Some x →
          (x ∈ one_gene ↔ x ∈ one_gene') ∧ (x ∈ two_genes ↔ x ∈ two_genes'))) →
  joint_probability people one_gene two_genes have_trait
  = joint_probability people one_gene' two_genes' have_trait'.
Proof.
  intros Hagree. unfold joint_probability. apply for_loop_ext.
  intros acc person [row Hrow]%elem_of_keys.
  destruct (Hagree person row Hrow) as [Hht Hgenes].
  assert (∀ x, x = Some person ∨ x = mother row ∨ x = father row →
               copies_of one_gene two_genes x = copies_of one_gene' two_genes' x)
    as Hcopies.
  { intros [x|] Hx; [|done]. unfold copies_of, parent_in, is_in.
    destruct (Hgenes x) as [Hog Htg].
    { destruct Hx as [[= ->]|[<-|<-]]; auto. }
    by rewrite (bool_decide_ext _ _ Hog), (bool_decide_ext _ _ Htg). }
  unfold person_prob, gene_factor, is_in.
  rewrite (subscript_Ok _ _ _ Hrow). simpl.
  rewrite !(Hcopies (Some person)), !(Hcopies (mother row)), !(Hcopies (father row)),
    (bool_decide_ext _ _ Hht) by auto.
  done.
Qed.

Lemma joint_probability_reads_people_and_parents_witness :
  joint_probability single ∅ ∅ ∅
  = joint_probability single {["Z"]} {["Z"]} {["Z"]}.
Proof.
  apply joint_probability_reads_people_and_parents.
  assert ("A" ∈ (∅ : gset string) ↔ "A" ∈ ({["Z"]} : gset string)) as Hsame.
  { rewrite elem_of_empty, elem_of_singleton. split; [done | discriminate]. }
  intros person row Hrow. unfold single in Hrow.
  apply lookup_singleton_Some in Hrow as [<- <-]. split; [done |].
  intros x [->|[Hx|Hx]]; [done | discriminate Hx | discriminate Hx].
Defined.

Section Rename.
Context (f : string → string) (Hinj : Inj (=) (=) f).

Lemma is_in_set_map (x : string) (X : gset string) :
  is_in (f x) (set_map f X : gset string) = is_in x X.
Proof.
  unfold is_in. apply bool_decide_ext. rewrite elem_of_map. split.
  - by intros (y & ->%Hinj & Hy).
  - intros Hx. eauto.
Qed.

Lemma copies_of_rename (one_gene two_genes : gset string) (x : option string) :
  copies_of (set_map f one_gene) (set_map f two_genes) (f <$> x)
  = copies_of one_gene two_genes x.
Proof.
  unfold copies_of, parent_in. destruct x as [x|]; simpl; [|done].
  by rewrite !is_in_set_map.
Qed.

Lemma person_prob_rename (people : gmap string Person)
    (one_gene two_genes have_trait : gset string) (person : string) :
  person_prob (rename f people) (set_map f one_gene) (set_map f two_genes)
    (set_map f have_trait) (f person)
  = person_prob people one_gene two_genes have_trait person.
Proof.
  pose proof (copies_of_rename one_gene two_genes (Some person)) as Hperson.
  change (f <$> Some person) with (Some (f person)) in Hperson.
  unfold person_prob, rename, subscript.
  rewrite (lookup_kmap f), lookup_fmap, is_in_set_map, Hperson.
  destruct (people !! person) as [row|]; simpl; [|done].
  unfold gene_factor. cbn [rename_row mother father].
  rewrite Hperson, !copies_of_rename.
  by destruct (mother row), (father row).
Qed.

Lemma keys_rename (people : gmap string Person) :
  keys (rename f people) ≡ₚ f <$> keys people.
Proof.
  unfold keys, rename. rewrite (map_to_list_kmap f), map_to_list_fmap.
  rewrite <- !list_fmap_compose. done.
Qed.
End Rename.

(** X15: [joint_probability] does not depend on what the people are called:
    renaming every person by an injective function, in the keys of the
    pedigree, in the mother and father fields and in the three sets, leaves
    the result as it is. *)
Theorem joint_probability_renamed (f : string → string) (people : gmap string Person)
    (one_gene two_genes have_trait : gset string) :
  Inj (=) (=) f →
  ∃ q q',
    joint_probability people one_gene two_genes have_trait = Ok q
    ∧ joint_probability (rename f people) (set_map f one_gene) (set_map f two_genes)
        (set_map f have_trait) = Ok q'
    ∧ (q == q')%Q.
Proof.
  intros Hinj. unfold joint_probability.
  set (g' := person_prob (rename f people) (set_map f one_gene) (set_map f two_genes)
               (set_map f have_trait)).
  assert (for_loop (λ acc person, v ← person_prob people one_gene two_genes have_trait person;
                      Ok (acc * v)%Q) (keys people) 1%Q
          = for_loop (λ acc person, v ← g' person; Ok (acc * v)%Q) (f <$> keys people) 1%Q)
    as Hsame.
  { rewrite for_loop_fmap. apply for_loop_ext. intros acc person _.
    unfold g'. by rewrite person_prob_rename. }
  rewrite Hsame.
  apply product_loop_Permutation; [symmetry; by apply keys_rename | | done].
  intros y (person & -> & Hin)%list_elem_of_fmap.
  unfold g'. rewrite person_prob_rename by done.
  destruct (person_prob_bounds people one_gene two_genes have_trait person Hin)
    as (q & Hq & _). eauto.
Qed.

Lemma joint_probability_renamed_witness :
  ∃ q q',
    joint_probability family {["M"]} ∅ {["C"]} = Ok q
    ∧ joint_probability (rename (String.append "x") family)
        (set_map (String.append "x") ({["M"]} : gset string))
        (set_map (String.append "x") (∅ : gset string))
        (set_map (String.append "x") ({["C"]} : gset string)) = Ok q'
    ∧ (q == q')%Q.
Proof.
  apply joint_probability_renamed. intros x y Hxy. simpl in Hxy. by injection Hxy.
Defined.

(** ** load_data *)

Lemma load_row_Ok (data : gmap string Person) (row : gmap string string) :
  has_columns row →
  ∃ n m f t,
    row !! "name" = Some n ∧ row !! "mother" = Some m
    ∧ row !! "father" = Some f ∧ row !! "trait" = Some t
    ∧ load_row data row
      = Ok (<[n := mkPerson n (or_None m) (or_None f) (parse_trait t)]> data).
Proof.
  intros ([n Hn] & [m Hm] & [f Hf] & [t Ht]). exists n, m, f, t.
  repeat (split; [done |]). unfold load_row, subscript. by rewrite Hn, Hm, Hf, Ht.
Qed.

Lemma load_row_Raise (data : gmap string Person) (row : gmap string string) :
  ¬ has_columns row → load_row data row = Raise KeyError.
Proof.
  intros Hno. unfold load_row, subscript, has_columns in *.
  destruct (row !! "name"); [|done]. destruct (row !! "mother"); [|done].
  destruct (row !! "father"); [|done]. destruct (row !! "trait"); [|done].
  exfalso. apply Hno. eauto.
Qed.

#[local] Instance has_columns_dec (row : gmap string string) : Decision (has_columns row).
Proof. unfold has_columns. apply _. Defined.

Lemma load_loop_Ok (rows : list (gmap string string)) (data : gmap string Person) :
  Forall has_columns rows → ∃ data', for_loop load_row rows data = Ok data'.
Proof.
  intros Hall. revert data. induction Hall as [|row rows Hrow Hall IH]; intros data.
  - by exists data.
  - destruct (load_row_Ok data row Hrow) as (n & m & f & t & _ & _ & _ & _ & Hload).
    cbn [for_loop]. rewrite Hload. simpl. apply IH.
Qed.

Lemma load_loop_Raise (rows : list (gmap string string)) (data : gmap string Person) :
  ¬ Forall has_columns rows → for_loop load_row rows data = Raise KeyError.
Proof.
  revert data. induction rows as [|row rows IH]; intros data Hno.
  - exfalso. apply Hno. constructor.
  - cbn [for_loop]. destruct (decide (has_columns row)) as [Hrow|Hrow].
    + destruct (load_row_Ok data row Hrow) as (n & m & f & t & _ & _ & _ & _ & Hload).
      rewrite Hload. simpl. apply IH. intros Hall. apply Hno. by constructor.
    + by rewrite (load_row_Raise data row Hrow).
Qed.

(** X16: [load_data] returns if every row has the columns "name", "mother",
    "father" and "trait"; if some row lacks one of them it raises KeyError and
    returns nothing.  It raises nothing else, whatever the strings are. *)
Theorem load_data_needs_four_columns (rows : list (gmap string string)) :
  ((∃ data, load_data rows = Ok data) ↔ Forall has_columns rows)
  ∧ (load_data rows = Raise KeyError ↔ ¬ Forall has_columns rows)
  ∧ load_data rows ≠ Raise ZeroDivisionError.
Proof.
  unfold load_data.
  destruct (decide (Forall has_columns rows)) as [Hall|Hno].
  - destruct (load_loop_Ok rows ∅ Hall) as [data Hdata]. rewrite Hdata.
    split; [|split]; [split; eauto | split; [done | by intros []] | done].
  - rewrite (load_loop_Raise rows ∅ Hno).
    split; [|split]; [split; [by intros [? ?] | done] | done | done].
Qed.

(** What the loop leaves under the name [n]. *)
Lemma load_loop_untouched (rows : list (gmap string string))
    (data data' : gmap string Person) (n : string) :
  for_loop load_row rows data = Ok data' →
  Forall (λ row, row !! "name" ≠ Some n) rows →
  data' !! n = data !! n.
Proof.
  revert data. induction rows as [|row rows IH]; intros data Hrun Hother.
  - by injection Hrun as <-.
  - apply Forall_cons in Hother as [Hrow Hother].
    cbn [for_loop] in Hrun.
    destruct (decide (has_columns row)) as [Hcols|Hcols];
      [|by rewrite (load_row_Raise data row Hcols) in Hrun].
    destruct (load_row_Ok data row Hcols) as (k & m & f & t & Hk & _ & _ & _ & Hload).
    rewrite Hload in Hrun. simpl in Hrun.
    rewrite (IH _ Hrun Hother). apply lookup_insert_ne. congruence.
Qed.

(** X17: the dictionary that [load_data] returns holds, under each name, the
    record of the last row with that name (later rows replace earlier ones):
    the name, each parent or None for an empty field, and the trait True for
    "1", False for "0" and None for any other string.  A name that no row
    has is no key. *)
Theorem load_data_last_row_wins (rows : list (gmap string string))
    (data : gmap string Person) (n : string) :
  load_data rows = Ok data →
  (∀ before row after,
     rows = before ++ row :: after →
     row !! "name" = Some n →
     Forall (λ later, later !! "name" ≠ Some n) after →
     ∃ m f t,
       row !! "mother" = Some m ∧ row !! "father" = Some f ∧ row !! "trait" = Some t
       ∧ data !! n = Some (mkPerson n (or_None m) (or_None f) (parse_trait t)))
  ∧ (Forall (λ row, row !! "name" ≠ Some n) rows → data !! n = None).
Proof.
  unfold load_data. intros Hrun. split.
  - intros before row after -> Hn Hafter.
    rewrite for_loop_app in Hrun.
    destruct (for_loop load_row before ∅) as [data1|e] eqn:Hbefore; [|done].
    simpl in Hrun.
    destruct (decide (has_columns row)) as [Hcols|Hcols];
      [|by rewrite (load_row_Raise data1 row Hcols) in Hrun].
    destruct (load_row_Ok data1 row Hcols)
      as (k & m & f & t & Hk & Hm & Hf & Ht & Hload).
    rewrite Hload in Hrun. simpl in Hrun.
    assert (k = n) as -> by congruence.
    exists m, f, t. repeat (split; [done |]).
    rewrite (load_loop_untouched _ _ _ n Hrun Hafter). apply lookup_insert_eq.
  - intros Hnone. by rewrite (load_loop_untouched _ _ _ n Hrun Hnone).
Qed.

Lemma load_data_last_row_wins_witness :
  (∀ before row after,
     [csv_row "A" "M" "" "1"; csv_row "B" "" "" ""; csv_row "A" "" "" "0"]
     = before ++ row :: after →
     row !! "name" = Some "A" →
     Forall (λ later, later !! "name" ≠ Some "A") after →
     ∃ m f t,
       row !! "mother" = Some m ∧ row !! "father" = Some f ∧ row !! "trait" = Some t
       ∧ ({[ "A" := mkPerson "A" None None (Some false);
             "B" := mkPerson "B" None None None ]} : gmap string Person) !! "A"
         = Some (mkPerson "A" (or_None m) (or_None f) (parse_trait t)))
  ∧ (Forall (λ row, row !! "name" ≠ Some "A")
       [csv_row "A" "M" "" "1"; csv_row "B" "" "" ""; csv_row "A" "" "" "0"] →
     ({[ "A" := mkPerson "A" None None (Some false);
         "B" := mkPerson "B" None None None ]} : gmap string Person) !! "A" = None).
Proof.
  apply (load_data_last_row_wins
           [csv_row "A" "M" "" "1"; csv_row "B" "" "" ""; csv_row "A" "" "" "0"]).
  by vm_compute.
Defined.

Lemma or_None_nonempty (x : string) : or_None x ≠ Some "".
Proof. unfold or_None. case_decide; congruence. Qed.

Lemma load_loop_records (rows : list (gmap string string))
    (data data' : gmap string Person) :
  for_loop load_row rows data = Ok data' →
  (∀ k p, data !! k = Some p →
     name p = k ∧ mother p ≠ Some "" ∧ father p ≠ Some "") →
  ∀ k p, data' !! k = Some p →
    name p = k ∧ mother p ≠ Some "" ∧ father p ≠ Some "".
Proof.
  revert data. induction rows as [|row rows IH]; intros data Hrun Hinv.
  - by injection Hrun as <-.
  - cbn [for_loop] in Hrun.
    destruct (decide (has_columns row)) as [Hcols|Hcols];
      [|by rewrite (load_row_Raise data row Hcols) in Hrun].
    destruct (load_row_Ok data row Hcols) as (n & m & f & t & _ & _ & _ & _ & Hload).
    rewrite Hload in Hrun. simpl in Hrun. apply (IH _ Hrun).
    intros k p. destruct (decide (n = k)) as [->|Hne].
    + rewrite lookup_insert_eq. intros [= <-]. simpl.
      split; [done |]. split; apply or_None_nonempty.
    + rewrite lookup_insert_ne by done. apply Hinv.
Qed.

Lemma main_table_dom (people : gmap string Person) :
  ∃ table, main people = Ok table ∧ dom table = dom people.
Proof.
  destruct (accumulate_accumulated people) as (acc & total & Hrun & Hacc).
  destruct (normalize_spec acc) as (table & Hnorm & Hsome & Hnone).
  exists table. split; [unfold main; by rewrite Hrun |].
  apply set_eq. intros person.
  rewrite !elem_of_dom, <- (accumulated_dom _ _ _ Hacc person).
  destruct (acc !! person) as [a|] eqn:Ha.
  - destruct (Hsome person a Ha) as (d & _ & ->). split; eauto.
  - by rewrite (Hnone person Ha).
Qed.

Lemma load_loop_dom (rows : list (gmap string string))
    (data data' : gmap string Person) (k : string) :
  for_loop load_row rows data = Ok data' →
  is_Some (data' !! k)
  ↔ is_Some (data !! k) ∨ ∃ row, row ∈ rows ∧ row !! "name" = Some k.
Proof.
  revert data. induction rows as [|row rows IH]; intros data Hrun.
  - injection Hrun as <-. split; [by left |].
    intros [?|(row & Hin & _)]; [done | by apply elem_of_nil in Hin].
  - cbn [for_loop] in Hrun.
    destruct (decide (has_columns row)) as [Hcols|Hcols];
      [|by rewrite (load_row_Raise data row Hcols) in Hrun].
    destruct (load_row_Ok data row Hcols) as (n & m & f & t & Hn & _ & _ & _ & Hload).
    rewrite Hload in Hrun. simpl in Hrun. rewrite (IH _ Hrun). split.
    + intros [Hsome|(r & Hin & Hr)].
      * destruct (decide (n = k)) as [->|Hne].
        -- right. exists row. split; [left | done].
        -- left. by rewrite lookup_insert_ne in Hsome.
      * right. exists r. split; [by right | done].
    + intros [Hsome|(r & [->|Hin]%elem_of_cons & Hr)].
      * left. destruct (decide (n = k)) as [->|Hne].
        -- rewrite lookup_insert_eq. eauto.
        -- by rewrite lookup_insert_ne.
      * left. assert (n = k) as -> by congruence. rewrite lookup_insert_eq. eauto.
      * right. eauto.
Qed.

(** X18: in the dictionary that [load_data] returns, every record holds its
    own key as its name, and a parent field is either None or a string that
    is not empty; its keys are the names of the rows.  On such a dictionary
    [main] returns, with one entry for each of these names. *)
Theorem load_data_records (rows : list (gmap string string))
    (data : gmap string Person) :
  load_data rows = Ok data →
  (∀ k p, data !! k = Some p →
     name p = k ∧ mother p ≠ Some "" ∧ father p ≠ Some "")
  ∧ (∀ k, k ∈ dom data ↔ ∃ row, row ∈ rows ∧ row !! "name" = Some k)
  ∧ ∃ table, main data = Ok table ∧ dom table = dom data.
Proof.
  unfold load_data. intros Hrun. split; [|split].
  - apply (load_loop_records rows ∅ data Hrun). intros k p. by rewrite lookup_empty.
  - intros k. rewrite elem_of_dom, (load_loop_dom rows ∅ data k Hrun), lookup_empty.
    split; [intros [[? ?]|?]; done | by right].
  - apply main_table_dom.
Qed.

Lemma load_data_records_witness :
  (∀ k p, ({[ "A" := mkPerson "A" (Some "M") None (Some true) ]} : gmap string Person)
          !! k = Some p →
     name p = k ∧ mother p ≠ Some "" ∧ father p ≠ Some "")
  ∧ (∀ k, k ∈ dom ({[ "A" := mkPerson "A" (Some "M") None (Some true) ]}
                   : gmap string Person)
          ↔ ∃ row, row ∈ [csv_row "A" "M" "" "1"] ∧ row !! "name" = Some k)
  ∧ ∃ table,
      main {[ "A" := mkPerson "A" (Some "M") None (Some true) ]} = Ok table
      ∧ dom table
        = dom ({[ "A" := mkPerson "A" (Some "M") None (Some true) ]}
               : gmap string Person).
Proof. apply (load_data_records [csv_row "A" "M" "" "1"]). by vm_compute. Defined.

Lemma load_csv_row (data : gmap string Person) (n m f t : string) :
  load_row data (csv_row n m f t)
  = Ok (<[n := mkPerson n (or_None m) (or_None f) (parse_trait t)]> data).
Proof.
  assert (csv_row n m f t !! "name" = Some n) as Hn by done.
  assert (csv_row n m f t !! "mother" = Some m) as Hm by done.
  assert (csv_row n m f t !! "father" = Some f) as Hf by done.
  assert (csv_row n m f t !! "trait" = Some t) as Ht by done.
  unfold load_row, subscript. by rewrite Hn, Hm, Hf, Ht.
Qed.

(** X19: a row with one parent field empty is loaded with that parent None
    and the other parent kept; [joint_probability] then handles the person by
    the branch for recorded parents, with the gene count 0 for the parent
    that is None, and not by the unconditional probabilities. *)
Theorem one_parent_row (n parent t : string) (one_gene two_genes : gset string) :
  parent ≠ "" →
  load_data [csv_row n parent "" t]
  = Ok {[ n := mkPerson n (Some parent) None (parse_trait t) ]}
  ∧ load_data [csv_row n "" parent t]
    = Ok {[ n := mkPerson n None (Some parent) (parse_trait t) ]}
  ∧ gene_factor one_gene two_genes n (mkPerson n (Some parent) None (parse_trait t))
    = Ok (inherited (copies_of one_gene two_genes (Some n))
            (copies_of one_gene two_genes (Some parent)) 0)
  ∧ gene_factor one_gene two_genes n (mkPerson n None (Some parent) (parse_trait t))
    = Ok (inherited (copies_of one_gene two_genes (Some n)) 0
            (copies_of one_gene two_genes (Some parent))).
Proof.
  intros Hparent.
  assert (or_None parent = Some parent) as Hp by (unfold or_None; by case_decide).
  split; [|split; [|split]].
  - unfold load_data. cbn [for_loop]. rewrite load_csv_row, Hp. simpl.
    by rewrite insert_empty.
  - unfold load_data. cbn [for_loop]. rewrite load_csv_row, Hp. simpl.
    by rewrite insert_empty.
  - done.
  - done.
Qed.

Lemma one_parent_row_witness :
  load_data [csv_row "C" "M" "" "1"]
  = Ok {[ "C" := mkPerson "C" (Some "M") None (parse_trait "1") ]}
  ∧ load_data [csv_row "C" "" "M" "1"]
    = Ok {[ "C" := mkPerson "C" None (Some "M") (parse_trait "1") ]}
  ∧ gene_factor ∅ {["M"]} "C" (mkPerson "C" (Some "M") None (parse_trait "1"))
    = Ok (inherited (copies_of ∅ {["M"]} (Some "C")) (copies_of ∅ {["M"]} (Some "M")) 0)
  ∧ gene_factor ∅ {["M"]} "C" (mkPerson "C" None (Some "M") (parse_trait "1"))
    = Ok (inherited (copies_of ∅ {["M"]} (Some "C")) 0 (copies_of ∅ {["M"]} (Some "M"))).
Proof. apply one_parent_row. discriminate. Defined.

(** ** The loops of main as one list of calls *)

Lemma for_loop_bind {S A B : Type} (body : S → B → result S) (f : A → list B)
    (l : list A) (s : S) :
  for_loop body (l ≫= f) s = for_loop (λ s x, for_loop body (f x) s) l s.
Proof.
  revert s. induction l as [|x l IH]; intros s; [done |].
  rewrite bind_cons, for_loop_app. cbn [for_loop].
  destruct (for_loop body (f x) s); simpl; [apply IH | done].
Qed.

Lemma joint_value_Ok (people : gmap string Person)
    (one_gene two_genes have_trait : gset string) :
  joint_probability people one_gene two_genes have_trait
  = Ok (joint_value people one_gene two_genes have_trait)
  ∧ (0 < joint_value people one_gene two_genes have_trait)%Q.
Proof.
  unfold joint_value.
  by destruct (joint_probability_bounds people one_gene two_genes have_trait)
    as (q & -> & Hpos & _).
Qed.

Lemma passes_evidence_spec (people : gmap string Person) (have_trait : gset string) :
  fails_evidence people (dom people) have_trait = Ok (negb (passes_evidence people have_trait))
  ∧ (passes_evidence people have_trait = true ↔ evidence_consistent people have_trait).
Proof.
  unfold passes_evidence.
  destruct (fails_evidence_spec people have_trait) as (b & -> & Hb).
  rewrite negb_involutive. split; [done |]. rewrite <- Hb. by destruct b.
Qed.

(** [main] up to [normalize] is the sequence [calls] of calls of [update]. *)
Lemma accumulate_calls (people : gmap string Person) :
  accumulate people = update_all (calls people) ((λ _, zero_dist) <$> people).
Proof.
  unfold accumulate, update_all, calls, hypotheses.
  rewrite for_loop_fmap, for_loop_bind.
  apply for_loop_ext. intros probs have_trait _. unfold trait_step.
  destruct (passes_evidence_spec people have_trait) as [-> _]. simpl.
  destruct (passes_evidence people have_trait); simpl; [|done].
  rewrite gene_loops_flat, for_loop_bind. apply for_loop_ext.
  intros probs' h _. destruct (joint_value_Ok people h.1 h.2 have_trait) as [-> _].
  simpl. by destruct (update _ _ _ _ _).
Qed.

Lemma NoDup_gene_hypotheses (names : gset string) : NoDup (gene_hypotheses names).
Proof.
  unfold gene_hypotheses. apply NoDup_bind; [| |apply NoDup_powerset].
  - intros og1 og2 [og tg] _ _ (tg1 & H1 & _)%list_elem_of_bind
      (tg2 & H2 & _)%list_elem_of_bind.
    apply list_elem_of_singleton in H1, H2. congruence.
  - intros og _. apply NoDup_bind; [| |apply NoDup_powerset].
    + intros tg1 tg2 [og' tg] _ _ H1%list_elem_of_singleton H2%list_elem_of_singleton.
      congruence.
    + intros tg _. apply NoDup_singleton.
Qed.

Lemma elem_of_gene_hypotheses (names one_gene two_genes : gset string) :
  (one_gene, two_genes) ∈ gene_hypotheses names
  ↔ one_gene ⊆ names ∧ two_genes ⊆ names ∧ one_gene ## two_genes.
Proof.
  unfold gene_hypotheses. rewrite list_elem_of_bind. split.
  - intros (og & (tg & Heq%list_elem_of_singleton & Htg%elem_of_powerset)%list_elem_of_bind
            & Hog%elem_of_powerset).
    injection Heq as -> ->. split; [done |]. split.
    + intros a Ha. apply Htg in Ha. by apply elem_of_difference in Ha as [? _].
    + intros a Ha Ha'. apply Htg in Ha'. by apply elem_of_difference in Ha' as [_ ?].
  - intros (Hog & Htg & Hdisj). exists one_gene. split; [|by apply elem_of_powerset].
    apply list_elem_of_bind. exists two_genes. split; [apply list_elem_of_singleton; done |].
    apply elem_of_powerset. intros a Ha. apply elem_of_difference.
    split; [by apply Htg | intros Ha'; by apply (Hdisj a)].
Qed.

Lemma NoDup_hypotheses (people : gmap string Person) : NoDup (hypotheses people).
Proof.
  unfold hypotheses. apply NoDup_bind; [| |apply NoDup_powerset].
  - intros ht1 ht2 [[og tg] ht] _ _ H1 H2.
    destruct (passes_evidence people ht1); [|by apply elem_of_nil in H1].
    destruct (passes_evidence people ht2); [|by apply elem_of_nil in H2].
    apply list_elem_of_bind in H1 as (h1 & H1%list_elem_of_singleton & _).
    apply list_elem_of_bind in H2 as (h2 & H2%list_elem_of_singleton & _).
    congruence.
  - intros ht _. destruct (passes_evidence people ht); [|apply NoDup_nil_2].
    apply NoDup_bind; [| |apply NoDup_gene_hypotheses].
    + intros [og1 tg1] [og2 tg2] h _ _ H1%list_elem_of_singleton H2%list_elem_of_singleton.
      simpl in *. congruence.
    + intros h _. apply NoDup_singleton.
Qed.

Lemma elem_of_hypotheses (people : gmap string Person)
    (one_gene two_genes have_trait : gset string) :
  (one_gene, two_genes, have_trait) ∈ hypotheses people
  ↔ one_gene ⊆ dom people ∧ two_genes ⊆ dom people ∧ one_gene ## two_genes
    ∧ have_trait ⊆ dom people ∧ evidence_consistent people have_trait.
Proof.
  unfold hypotheses. rewrite list_elem_of_bind. split.
  - intros (ht & Hin & Hht%elem_of_powerset).
    destruct (passes_evidence people ht) eqn:Hpass; [|by apply elem_of_nil in Hin].
    apply list_elem_of_bind in Hin as ([og tg] & Heq%list_elem_of_singleton & Hh).
    simpl in Heq. injection Heq as -> -> ->.
    apply elem_of_gene_hypotheses in Hh as (? & ? & ?).
    repeat (split; [done |]). by apply passes_evidence_spec.
  - intros (Hog & Htg & Hdisj & Hht & Hcons). exists have_trait.
    split; [|by apply elem_of_powerset].
    rewrite (proj2 (proj2 (passes_evidence_spec people have_trait)) Hcons).
    apply list_elem_of_bind. exists (one_gene, two_genes).
    split; [by apply list_elem_of_singleton | by apply elem_of_gene_hypotheses].
Qed.

(** ** Sums of numbers *)

Lemma Qsum_app (l k : list Q) : (Qsum (l ++ k) == Qsum l + Qsum k)%Q.
Proof. induction l as [|x l IH]; simpl; [ring | rewrite IH; ring]. Qed.

Lemma Qsum_Permutation (l k : list Q) : l ≡ₚ k → (Qsum l == Qsum k)%Q.
Proof.
  induction 1 as [|x l k _ IH|x y l|l1 l2 l3 _ IH12 _ IH23]; simpl.
  - reflexivity.
  - by rewrite IH.
  - ring.
  - by rewrite IH12.
Qed.

Lemma Qsum_fmap_ext {A : Type} (f g : A → Q) (l : list A) :
  (∀ x, x ∈ l → (f x == g x)%Q) → (Qsum (f <$> l) == Qsum (g <$> l))%Q.
Proof.
  induction l as [|x l IH]; intros Hfg; [reflexivity |].
  rewrite !fmap_cons. unfold Qsum in *. cbn [foldr].
  rewrite (Hfg x) by left. rewrite IH; [reflexivity |].
  intros y Hy. apply Hfg. by right.
Qed.

Lemma Qsum_fmap_scale {A : Type} (c : Q) (f : A → Q) (l : list A) :
  (Qsum ((λ x, c * f x) <$> l) == c * Qsum (f <$> l))%Q.
Proof.
  induction l as [|x l IH]; [simpl; ring |]. rewrite !fmap_cons.
  unfold Qsum in *. cbn [foldr]. rewrite IH. ring.
Qed.

Lemma Qsum_fmap_plus {A : Type} (f g : A → Q) (l : list A) :
  (Qsum ((λ x, f x + g x) <$> l) == Qsum (f <$> l) + Qsum (g <$> l))%Q.
Proof.
  induction l as [|x l IH]; [simpl; ring |]. rewrite !fmap_cons.
  unfold Qsum in *. cbn [foldr]. rewrite IH. ring.
Qed.

Lemma Qsum_fmap_bind {A B : Type} (g : B → Q) (f : A → list B) (l : list A) :
  (Qsum (g <$> (l ≫= f)) == Qsum ((λ x, Qsum (g <$> f x)) <$> l))%Q.
Proof.
  induction l as [|x l IH]; [reflexivity |].
  rewrite bind_cons, fmap_app, Qsum_app, fmap_cons.
  unfold Qsum at 3. cbn [foldr]. fold (Qsum ((λ x, Qsum (g <$> f x)) <$> l)).
  by rewrite IH.
Qed.

Lemma Qsum_cons (x : Q) (l : list Q) : Qsum (x :: l) = (x + Qsum l)%Q.
Proof. done. Qed.

Lemma Qsum_nonneg {A : Type} (f : A → Q) (l : list A) :
  (∀ x, x ∈ l → (0 <= f x)%Q) → (0 <= Qsum (f <$> l))%Q.
Proof.
  induction l as [|x l IH]; intros Hf; [done |]. rewrite fmap_cons, Qsum_cons.
  assert (0 <= f x)%Q by (apply Hf; left).
  assert (0 <= Qsum (f <$> l))%Q by (apply IH; intros y Hy; apply Hf; by right).
  lra.
Qed.

(** ** The accumulators as sums over the hypotheses *)

Lemma update_entry_shares (person : string) (c : Call) (d : Dist) :
  let d' := update_entry (call_one_gene c) (call_two_genes c) (call_have_trait c)
              (call_p c) person d in
  (∀ copies, copies ≤ 2 →
     (gene_cell copies d' == gene_cell copies d + gene_share person copies c)%Q)
  ∧ (∀ has_trait,
       (trait_cell has_trait d' == trait_cell has_trait d + trait_share person has_trait c)%Q).
Proof.
  cbv zeta. unfold gene_share, trait_share, update_entry, copies_of, parent_in. split.
  - intros copies Hle.
    destruct (is_in person (call_two_genes c)), (is_in person (call_one_gene c)),
      (is_in person (call_have_trait c));
      destruct copies as [|[|[|?]]]; try lia; simpl; ring.
  - intros has_trait.
    destruct (is_in person (call_two_genes c)), (is_in person (call_one_gene c)),
      (is_in person (call_have_trait c)), has_trait; simpl; ring.
Qed.

Lemma foldl_update_entry_cells (person : string) (calls : list Call) (d : Dist) :
  let d' := foldl (λ d c, update_entry (call_one_gene c) (call_two_genes c)
                            (call_have_trait c) (call_p c) person d) d calls in
  (∀ copies, copies ≤ 2 →
     (gene_cell copies d' == gene_cell copies d + Qsum (gene_share person copies <$> calls))%Q)
  ∧ (∀ has_trait,
       (trait_cell has_trait d'
        == trait_cell has_trait d + Qsum (trait_share person has_trait <$> calls))%Q).
Proof.
  revert d. induction calls as [|c calls IH]; intros d; cbv zeta.
  - split; intros; simpl; ring.
  - cbn [foldl]. destruct (IH (update_entry (call_one_gene c) (call_two_genes c)
                                 (call_have_trait c) (call_p c) person d)) as [IHg IHt].
    destruct (update_entry_shares person c d) as [Hg Ht].
    split.
    + intros copies Hle. rewrite (IHg copies Hle), (Hg copies Hle), fmap_cons, Qsum_cons.
      ring.
    + intros has_trait. rewrite (IHt has_trait), (Ht has_trait), fmap_cons, Qsum_cons.
      ring.
Qed.

Lemma accumulate_cells (people : gmap string Person) :
  ∃ accumulators,
    accumulate people = Ok accumulators
    ∧ ∀ person, 
        (accumulators !! person = None ↔ people !! person = None)
        ∧ ∀ a, accumulators !! person = Some a →
          (∀ copies, copies ≤ 2 →
             (gene_cell copies a == Qsum (gene_share person copies <$> calls people))%Q)
          ∧ (∀ has_trait,
               (trait_cell has_trait a
                == Qsum (trait_share person has_trait <$> calls people))%Q).
Proof.
  rewrite accumulate_calls.
  destruct (update_all_spec (calls people) ((λ _, zero_dist) <$> people))
    as (acc & -> & Hlook).
  exists acc. split; [done |]. intros person. rewrite Hlook, lookup_fmap. split.
  - by destruct (people !! person).
  - intros a Ha. destruct (people !! person); [|done]. simpl in Ha. injection Ha as <-.
    destruct (foldl_update_entry_cells person (calls people) zero_dist) as [Hg Ht].
    split.
    + intros copies Hle. rewrite (Hg copies Hle).
      destruct copies as [|[|[|?]]]; try lia; simpl; ring.
    + intros has_trait. rewrite (Ht has_trait). destruct has_trait; simpl; ring.
Qed.

Lemma accumulate_weighted_sums (people : gmap string Person) :
  ∃ accumulators,
    accumulate people = Ok accumulators
    ∧ ∀ person a, accumulators !! person = Some a →
        (∀ copies, copies ≤ 2 →
           (gene_cell copies a == weighted_sum people (gene_indicator person copies))%Q)
        ∧ (∀ has_trait,
             (trait_cell has_trait a
              == weighted_sum people (trait_indicator person has_trait))%Q).
Proof.
  destruct (accumulate_cells people) as (acc & Hrun & Hcells).
  exists acc. split; [done |]. intros person a Ha.
  destruct (Hcells person) as [_ Hc]. destruct (Hc a Ha) as [Hg Ht]. split.
  - intros copies Hle. rewrite (Hg copies Hle). unfold calls, weighted_sum.
    rewrite <- list_fmap_compose. apply Qsum_fmap_ext. intros h _.
    unfold compose, gene_share, gene_indicator. cbn [call_one_gene call_two_genes call_p].
    destruct (decide _); ring.
  - intros has_trait. rewrite (Ht has_trait). unfold calls, weighted_sum.
    rewrite <- list_fmap_compose. apply Qsum_fmap_ext. intros h _.
    unfold compose, trait_share, trait_indicator. cbn [call_have_trait call_p].
    destruct (decide _); ring.
Qed.

Lemma weighted_sum_total (people : gmap string Person) (person : string) :
  (weighted_sum people (gene_indicator person 2)
   + weighted_sum people (gene_indicator person 1)
   + weighted_sum people (gene_indicator person 0)
   == weighted_sum people (λ _, 1))%Q
  ∧ (weighted_sum people (trait_indicator person true)
     + weighted_sum people (trait_indicator person false)
     == weighted_sum people (λ _, 1))%Q.
Proof.
  unfold weighted_sum. split.
  - rewrite <- !Qsum_fmap_plus. apply Qsum_fmap_ext. intros h _.
    unfold gene_indicator.
    pose proof (copies_of_cases h.1.1 h.1.2 (Some person)) as Hle.
    destruct (copies_of h.1.1 h.1.2 (Some person)) as [|[|[|?]]]; try lia; simpl; ring.
  - rewrite <- !Qsum_fmap_plus. apply Qsum_fmap_ext. intros h _.
    unfold trait_indicator. destruct (is_in person h.2); simpl; ring.
Qed.

(** X20: the accumulators that the loops of [main] fill are marginals of
    the joint probability: the loops visit every hypothesis of the pedigree
    once (disjoint gene sets, and a trait set that agrees with the
    evidence), [joint_probability] returns a value on each of them, and the
    cell of a person for a gene count or a trait value is the sum of these
    values over the hypotheses that give the person this count or value. *)
Theorem accumulators_are_marginals (people : gmap string Person) :
  ∃ accumulators,
    accumulate people = Ok accumulators
    ∧ NoDup (hypotheses people)
    ∧ (∀ one_gene two_genes have_trait,
         (one_gene, two_genes, have_trait) ∈ hypotheses people
         ↔ one_gene ⊆ dom people ∧ two_genes ⊆ dom people ∧ one_gene ## two_genes
           ∧ have_trait ⊆ dom people ∧ evidence_consistent people have_trait)
    ∧ (∀ one_gene two_genes have_trait,
         joint_probability people one_gene two_genes have_trait
         = Ok (joint_value people one_gene two_genes have_trait))
    ∧ ∀ person a, accumulators !! person = Some a →
        (∀ copies, copies ≤ 2 →
           (gene_cell copies a == weighted_sum people (gene_indicator person copies))%Q)
        ∧ (∀ has_trait,
             (trait_cell has_trait a
              == weighted_sum people (trait_indicator person has_trait))%Q).
Proof.
  destruct (accumulate_weighted_sums people) as (acc & Hrun & Hw).
  exists acc. split; [done |]. split; [apply NoDup_hypotheses |].
  split; [apply elem_of_hypotheses |]. split; [|done].
  intros og tg ht. apply joint_value_Ok.
Qed.

Lemma Qsum_positive {A : Type} (f : A → Q) (l : list A) (x : A) :
  x ∈ l → (∀ y, y ∈ l → (0 < f y)%Q) → (0 < Qsum (f <$> l))%Q.
Proof.
  intros Hx Hf. destruct l as [|y l]; [by apply elem_of_nil in Hx |].
  rewrite fmap_cons, Qsum_cons.
  assert (0 < f y)%Q by (apply Hf; left).
  assert (0 <= Qsum (f <$> l))%Q.
  { apply Qsum_nonneg. intros z Hz. apply Qlt_le_weak, Hf. by right. }
  lra.
Qed.

Lemma weighted_sum_positive (people : gmap string Person) :
  (0 < weighted_sum people (λ _, 1))%Q.
Proof.
  unfold weighted_sum.
  apply (Qsum_positive _ _ (∅, ∅, observed_with_trait people)).
  - apply elem_of_hypotheses.
    destruct (observed_with_trait_consistent people) as [Hsub%elem_of_powerset Hcons].
    split; [intros a Ha; by apply elem_of_empty in Ha |].
    split; [intros a Ha; by apply elem_of_empty in Ha |].
    split; [intros a Ha; by apply elem_of_empty in Ha |]. done.
  - intros h _.
    destruct (joint_value_Ok people h.1.1 h.1.2 h.2) as [_ Hpos]. lra.
Qed.

(** X21: [main] returns conditional probabilities: every cell of the table
    is the joint probability summed over the hypotheses that give the person
    this gene count or trait value, divided by the joint probability summed
    over all the hypotheses that agree with the evidence. *)
Theorem main_returns_conditional_probabilities (people : gmap string Person) :
  ∃ table,
    main people = Ok table
    ∧ (0 < weighted_sum people (λ _, 1))%Q
    ∧ ∀ person d, table !! person = Some d →
        (∀ copies, copies ≤ 2 →
           (gene_cell copies d
            == weighted_sum people (gene_indicator person copies)
               / weighted_sum people (λ _, 1))%Q)
        ∧ (∀ has_trait,
             (trait_cell has_trait d
              == weighted_sum people (trait_indicator person has_trait)
                 / weighted_sum people (λ _, 1))%Q).
Proof.
  destruct (main_table_spec people) as (acc & total & table & Hrun & _ & Hpos & Hmain & Htable).
  destruct (accumulate_weighted_sums people) as (acc' & Hrun' & Hw).
  assert (acc' = acc) as -> by congruence.
  exists table. split; [done |].
  assert (∀ person a, acc !! person = Some a →
            (gene_sum a == weighted_sum people (λ _, 1))%Q
            ∧ (trait_sum a == weighted_sum people (λ _, 1))%Q) as Hsums.
  { intros person a Ha. destruct (Hw person a Ha) as [Hg Ht].
    destruct (weighted_sum_total people person) as [HG HT].
    rewrite <- HG at 1. rewrite <- HT.
    rewrite <- (Hg 2), <- (Hg 1), <- (Hg 0), <- (Ht true), <- (Ht false) by lia.
    unfold gene_sum, trait_sum. cbn [gene_cell trait_cell]. split; ring. }
  split; [apply weighted_sum_positive |].
  intros person d Hd.
  destruct (Htable person d Hd) as (a & Ha & _ & _ & ->).
  destruct (Hw person a Ha) as [Hg Ht].
  destruct (Hsums person a Ha) as [HG HT]. split.
  - intros copies Hle. rewrite <- (Hg copies Hle), <- HG.
    by destruct copies as [|[|[|?]]]; try lia.
  - intros has_trait. rewrite <- (Ht has_trait), <- HT. by destruct has_trait.
Qed.

(** ** The joint probability with one more person without parents *)

Lemma keys_insert (people : gmap string Person) (k : string) (row : Person) :
  people !! k = None → keys (<[k := row]> people) ≡ₚ k :: keys people.
Proof.
  intros Hk. unfold keys. by rewrite (map_to_list_insert _ _ _ Hk), fmap_cons.
Qed.

Lemma product_loop_scale (g : string → result Q) (l : list string) (a : Q) :
  (∀ x, x ∈ l → ∃ q, g x = Ok q) →
  ∃ r r1,
    for_loop (λ acc x, v ← g x; Ok (acc * v)%Q) l a = Ok r
    ∧ for_loop (λ acc x, v ← g x; Ok (acc * v)%Q) l 1%Q = Ok r1
    ∧ (r == a * r1)%Q.
Proof.
  revert a. induction l as [|x l IH]; intros a Hg.
  - exists a, 1%Q. split; [done |]. split; [done |]. ring.
  - destruct (Hg x) as (q & Hq); [left |]. cbn [for_loop]. rewrite Hq. simpl.
    destruct (IH (a * q)%Q) as (r & r1 & Hr & Hr1 & Heq);
      [intros y Hy; apply Hg; by right |].
    destruct (IH (1 * q)%Q) as (r' & r1' & Hr' & Hr1' & Heq');
      [intros y Hy; apply Hg; by right |].
    rewrite Hr1 in Hr1'. injection Hr1' as <-.
    exists r, r'. split; [done |]. split; [done |]. rewrite Heq, Heq'. ring.
Qed.

Lemma copies_of_add_person (k : string) (copies : nat) (has_trait : bool)
    (h : gset string * gset string * gset string) (x : string) :
  copies ≤ 2 → k ∉ h.1.1 → k ∉ h.1.2 → k ∉ h.2 →
  let h' := add_person k copies has_trait h in
  copies_of h'.1.1 h'.1.2 (Some x)
  = (if decide (x = k) then copies else copies_of h.1.1 h.1.2 (Some x))
  ∧ is_in x h'.2 = (if decide (x = k) then has_trait else is_in x h.2).
Proof.
  intros Hle H1 H2 H3. destruct h as [[og tg] ht]. simpl in *.
  unfold copies_of, parent_in, is_in, add_person. simpl.
  assert (∀ X : gset string, bool_decide (x ∈ {[k]} ∪ X)
            = if decide (x = k) then true else bool_decide (x ∈ X)) as Hadd.
  { intros X. destruct (decide (x = k)) as [->|Hne].
    - apply bool_decide_eq_true_2, elem_of_union. left. by apply elem_of_singleton.
    - apply bool_decide_ext. rewrite elem_of_union, elem_of_singleton. tauto. }
  destruct (decide (x = k)) as [->|Hne].
  - rewrite ?(bool_decide_eq_false_2 _ H1), ?(bool_decide_eq_false_2 _ H2),
      ?(bool_decide_eq_false_2 _ H3).
    destruct copies as [|[|[|?]]]; try lia; destruct has_trait; simpl;
      rewrite ?Hadd, ?(bool_decide_eq_false_2 _ H1), ?(bool_decide_eq_false_2 _ H2),
        ?(bool_decide_eq_false_2 _ H3); by rewrite ?decide_True by done.
  - destruct copies as [|[|[|?]]]; try lia; destruct has_trait; simpl;
      rewrite ?Hadd; by rewrite ?decide_False by done.
Qed.

Lemma founder_person_prob (people : gmap string Person)
    (one_gene two_genes have_trait : gset string) (person : string) (row : Person) :
  people !! person = Some row → mother row = None → father row = None →
  person_prob people one_gene two_genes have_trait person
  = Ok (founder_weight (copies_of one_gene two_genes (Some person))
          (is_in person have_trait)).
Proof.
  intros Hrow Hm Hf. unfold person_prob, gene_factor, founder_weight, prior, likelihood.
  rewrite (subscript_Ok _ _ _ Hrow). simpl. rewrite Hm, Hf. simpl.
  pose proof (copies_of_cases one_gene two_genes (Some person)) as Hle.
  destruct (copies_of one_gene two_genes (Some person)) as [|[|[|?]]]; try lia;
    by destruct (is_in person have_trait).
Qed.

(** One more person without parents multiplies the joint probability by the
    factor of that person. *)
Lemma joint_value_add_founder (people : gmap string Person) (k : string) (row : Person)
    (copies : nat) (has_trait : bool) (h : gset string * gset string * gset string) :
  people !! k = None → founders (<[k := row]> people) →
  copies ≤ 2 → k ∉ h.1.1 → k ∉ h.1.2 → k ∉ h.2 →
  let h' := add_person k copies has_trait h in
  (joint_value (<[k := row]> people) h'.1.1 h'.1.2 h'.2
   == joint_value people h.1.1 h.1.2 h.2 * founder_weight copies has_trait)%Q.
Proof.
  intros Hk Hfound Hle H1 H2 H3. cbv zeta.
  set (h' := add_person k copies has_trait h).
  pose proof (copies_of_add_person k copies has_trait h) as Hadd. fold h' in Hadd.
  destruct (joint_value_Ok (<[k := row]> people) h'.1.1 h'.1.2 h'.2) as [Hnew _].
  destruct (joint_value_Ok people h.1.1 h.1.2 h.2) as [Hold _].
  set (g' := person_prob (<[k := row]> people) h'.1.1 h'.1.2 h'.2).
  assert (∀ x, x ∈ k :: keys people → ∃ q, g' x = Ok q) as Htotal.
  { intros x Hx. destruct (person_prob_bounds (<[k := row]> people) h'.1.1 h'.1.2 h'.2 x)
      as (q & Hq & _); [|eauto]. by rewrite (keys_insert people k row Hk). }
  destruct (product_loop_Permutation g' _ _ (keys_insert people k row Hk)) with (a := 1%Q)
    (a' := 1%Q) as (r & r' & Hr & Hr' & Heq); [|done|].
  { intros x Hx. apply Htotal. by rewrite <- (keys_insert people k row Hk). }
  unfold joint_probability in Hnew. fold g' in Hnew. rewrite Hnew in Hr.
  injection Hr as Hr. rewrite <- Hr in Heq. apply (Qeq_trans _ _ _ Heq).
  clear Heq Hnew Hr r.
  cbn [for_loop] in Hr'.
  assert (g' k = Ok (founder_weight copies has_trait)) as Hgk.
  { unfold g'. destruct (Hfound k row) as [Hm Hf]; [apply lookup_insert_eq |].
    rewrite (founder_person_prob _ _ _ _ k row); [|apply lookup_insert_eq|done|done].
    destruct (Hadd k Hle H1 H2 H3) as [-> ->].
    by rewrite !decide_True. }
  rewrite Hgk in Hr'. simpl in Hr'.
  destruct (product_loop_scale g' (keys people) (1 * founder_weight copies has_trait)%Q)
    as (r2 & r1 & Hr2 & Hr1 & Hscale).
  { intros x Hx. apply Htotal. by right. }
  rewrite Hr2 in Hr'. injection Hr' as <-. rewrite Hscale.
  assert (for_loop (λ acc x, v ← g' x; Ok (acc * v)%Q) (keys people) 1%Q
          = joint_probability people h.1.1 h.1.2 h.2) as Hsame.
  { unfold joint_probability. apply for_loop_ext. intros acc x [rx Hx]%elem_of_keys.
    assert (x ≠ k) as Hne by congruence.
    destruct (Hfound x rx) as [Hm Hf]; [by rewrite lookup_insert_ne |].
    unfold g'. rewrite (founder_person_prob _ _ _ _ x rx);
      [|by rewrite lookup_insert_ne|done|done].
    rewrite (founder_person_prob people _ _ _ x rx Hx Hm Hf).
    destruct (Hadd x Hle H1 H2 H3) as [-> ->].
    by rewrite !decide_False. }
  rewrite Hsame, Hold in Hr1. injection Hr1 as <-. ring.
Qed.

(** ** The hypotheses with one more person *)

Lemma elem_of_add_person (k x : string) (copies : nat) (has_trait : bool)
    (h : gset string * gset string * gset string) :
  x ≠ k →
  let h' := add_person k copies has_trait h in
  (x ∈ h'.1.1 ↔ x ∈ h.1.1) ∧ (x ∈ h'.1.2 ↔ x ∈ h.1.2) ∧ (x ∈ h'.2 ↔ x ∈ h.2).
Proof.
  intros Hne. destruct h as [[og tg] ht]. unfold add_person. simpl.
  repeat split; repeat case_match;
    rewrite ?elem_of_union, ?elem_of_singleton; tauto.
Qed.

Lemma add_person_inj (k : string) (g1 g2 : nat) (t1 t2 : bool)
    (h1 h2 : gset string * gset string * gset string) :
  g1 ≤ 2 → g2 ≤ 2 →
  k ∉ h1.1.1 → k ∉ h1.1.2 → k ∉ h1.2 → k ∉ h2.1.1 → k ∉ h2.1.2 → k ∉ h2.2 →
  add_person k g1 t1 h1 = add_person k g2 t2 h2 →
  g1 = g2 ∧ t1 = t2 ∧ h1 = h2.
Proof.
  intros Hg1 Hg2 A1 A2 A3 B1 B2 B3 Heq.
  destruct (copies_of_add_person k g1 t1 h1 k Hg1 A1 A2 A3) as [Hc1 Ht1].
  destruct (copies_of_add_person k g2 t2 h2 k Hg2 B1 B2 B3) as [Hc2 Ht2].
  rewrite decide_True in Hc1 by done. rewrite decide_True in Ht1 by done.
  rewrite decide_True in Hc2 by done. rewrite decide_True in Ht2 by done.
  rewrite Heq, Hc2 in Hc1. rewrite Heq, Ht2 in Ht1.
  split; [done |]. split; [done |].
  assert (∀ x, (x ∈ h1.1.1 ↔ x ∈ h2.1.1) ∧ (x ∈ h1.1.2 ↔ x ∈ h2.1.2)
               ∧ (x ∈ h1.2 ↔ x ∈ h2.2)) as Hsame.
  { intros x. destruct (decide (x = k)) as [->|Hne]; [tauto |].
    destruct (elem_of_add_person k x g1 t1 h1 Hne) as (E1 & E2 & E3).
    destruct (elem_of_add_person k x g2 t2 h2 Hne) as (F1 & F2 & F3).
    rewrite Heq in E1, E2, E3. rewrite <- E1, <- E2, <- E3. tauto. }
  destruct h1 as [[og1 tg1] ht1], h2 as [[og2 tg2] ht2]. simpl in *.
  f_equal; [f_equal |]; apply set_eq; intros x; apply (Hsame x).
Qed.

Lemma hypotheses_without (people : gmap string Person) (k : string)
    (h : gset string * gset string * gset string) :
  people !! k = None → h ∈ hypotheses people →
  (k ∉ h.1.1) ∧ (k ∉ h.1.2) ∧ (k ∉ h.2).
Proof.
  intros Hk. destruct h as [[og tg] ht].
  intros (Hog & Htg & _ & Hht & _)%elem_of_hypotheses. simpl.
  assert (k ∉ dom people) by by apply not_elem_of_dom.
  repeat split; intros Hin; auto.
Qed.

Lemma NoDup_allowed (row : Person) : NoDup (allowed row).
Proof.
  unfold allowed. destruct (trait row); [apply NoDup_singleton |].
  apply NoDup_cons. split; [|apply NoDup_singleton].
  intros Hin%list_elem_of_singleton. discriminate.
Qed.

Lemma elem_of_copies (g : nat) : g ∈ gene_counts ↔ g ≤ 2.
Proof.
  unfold gene_counts. rewrite !elem_of_cons, elem_of_nil. lia.
Qed.

Lemma NoDup_added (people : gmap string Person) (k : string) (row : Person) :
  people !! k = None →
  NoDup (allowed row ≫= λ t, gene_counts ≫= λ g, add_person k g t <$> hypotheses people).
Proof.
  intros Hk. apply NoDup_bind; [| |apply NoDup_allowed].
  - intros t1 t2 y _ _ (g1 & (h1 & -> & Hh1)%list_elem_of_fmap & Hg1%elem_of_copies)%list_elem_of_bind
      (g2 & (h2 & Heq & Hh2)%list_elem_of_fmap & Hg2%elem_of_copies)%list_elem_of_bind.
    destruct (hypotheses_without _ _ _ Hk Hh1) as (? & ? & ?).
    destruct (hypotheses_without _ _ _ Hk Hh2) as (? & ? & ?).
    by destruct (add_person_inj k g1 g2 t1 t2 h1 h2) as (_ & ? & _).
  - intros t _. apply NoDup_bind.
    + intros g1 g2 y Hg1%elem_of_copies Hg2%elem_of_copies
        (h1 & -> & Hh1)%list_elem_of_fmap (h2 & Heq & Hh2)%list_elem_of_fmap.
      destruct (hypotheses_without _ _ _ Hk Hh1) as (? & ? & ?).
      destruct (hypotheses_without _ _ _ Hk Hh2) as (? & ? & ?).
      by destruct (add_person_inj k g1 g2 t t h1 h2) as (? & _ & _).
    + intros g Hg%elem_of_copies. apply NoDup_fmap_2_strong; [|apply NoDup_hypotheses].
      intros h1 h2 Hh1 Hh2 Heq.
      destruct (hypotheses_without _ _ _ Hk Hh1) as (? & ? & ?).
      destruct (hypotheses_without _ _ _ Hk Hh2) as (? & ? & ?).
      by destruct (add_person_inj k g g t t h1 h2) as (_ & _ & ?).
    + apply (bool_decide_unpack _). by vm_compute.
Qed.

Lemma evidence_consistent_insert (people : gmap string Person) (k : string) (row : Person)
    (have_trait : gset string) :
  people !! k = None →
  evidence_consistent (<[k := row]> people) have_trait
  ↔ evidence_consistent people (have_trait ∖ {[k]})
    ∧ bool_decide (k ∈ have_trait) ∈ allowed row.
Proof.
  intros Hk. unfold evidence_consistent, allowed. split.
  - intros Hcons. split.
    + intros person r Hr. assert (person ≠ k) as Hne by congruence.
      destruct (Hcons person r) as [Ht Hf]; [by rewrite lookup_insert_ne |].
      rewrite elem_of_difference, elem_of_singleton. split; [auto | tauto].
    + destruct (Hcons k row) as [Ht Hf]; [apply lookup_insert_eq |].
      destruct (trait row) as [[|]|].
      * rewrite bool_decide_eq_true_2 by auto. left.
      * rewrite bool_decide_eq_false_2 by auto. left.
      * destruct (bool_decide (k ∈ have_trait)); [right |]; left.
  - intros [Hcons Hrow] person r Hr.
    destruct (decide (person = k)) as [->|Hne].
    + rewrite lookup_insert_eq in Hr. injection Hr as <-.
      destruct (trait row) as [[|]|]; [| |done].
      * apply list_elem_of_singleton, bool_decide_eq_true in Hrow. done.
      * apply list_elem_of_singleton, bool_decide_eq_false in Hrow. done.
    + rewrite lookup_insert_ne in Hr by done.
      destruct (Hcons person r Hr) as [Ht Hf].
      rewrite elem_of_difference, elem_of_singleton in Ht, Hf. tauto.
Qed.

Lemma elem_of_added (people : gmap string Person) (k : string) (row : Person)
    (y : gset string * gset string * gset string) :
  people !! k = None →
  y ∈ hypotheses (<[k := row]> people)
  ↔ y ∈ (allowed row ≫= λ t, gene_counts ≫= λ g, add_person k g t <$> hypotheses people).
Proof.
  intros Hk. assert (k ∉ dom people) as Hdom by by apply not_elem_of_dom.
  rewrite list_elem_of_bind. destruct y as [[og' tg'] ht'].
  rewrite elem_of_hypotheses, dom_insert_L, (evidence_consistent_insert _ _ _ _ Hk).
  split.
  - intros (Hog & Htg & Hdisj & Hht & Hcons & Hrow).
    exists (bool_decide (k ∈ ht')). split; [|done].
    apply list_elem_of_bind. exists (copies_of og' tg' (Some k)).
    split; [|apply elem_of_copies, copies_of_cases].
    apply list_elem_of_fmap. exists (og' ∖ {[k]}, tg' ∖ {[k]}, ht' ∖ {[k]}). split.
    + unfold add_person, copies_of, parent_in, is_in. simpl.
      pose proof (Hdisj k) as Hdisjk.
      repeat case_bool_decide; simpl; try (exfalso; by apply (Hdisj k));
        (f_equal; [f_equal |]); apply set_eq; intros x;
        rewrite ?elem_of_union, ?elem_of_difference, ?elem_of_singleton;
        destruct (decide (x = k)) as [->|]; intuition congruence.
    + apply elem_of_hypotheses.
      split; [|split; [|split; [|split]]]; try done.
      * intros x [Hx Hne]%elem_of_difference. apply Hog in Hx.
        apply elem_of_union in Hx as [Hx|Hx]; [done | done].
      * intros x [Hx Hne]%elem_of_difference. apply Htg in Hx.
        apply elem_of_union in Hx as [Hx|Hx]; [done | done].
      * intros x [Hx _]%elem_of_difference [Hx' _]%elem_of_difference.
        by apply (Hdisj x).
      * intros x [Hx Hne]%elem_of_difference. apply Hht in Hx.
        apply elem_of_union in Hx as [Hx|Hx]; [done | done].
  - intros (t & (g & (h & Heq & Hh)%list_elem_of_fmap & Hg%elem_of_copies)%list_elem_of_bind
            & Ht).
    destruct (hypotheses_without _ _ _ Hk Hh) as (K1 & K2 & K3).
    assert (∀ x, x ≠ k → (x ∈ og' ↔ x ∈ h.1.1) ∧ (x ∈ tg' ↔ x ∈ h.1.2)
                         ∧ (x ∈ ht' ↔ x ∈ h.2)) as Hsame.
    { intros x Hne. pose proof (elem_of_add_person k x g t h Hne) as Hadd.
      rewrite <- Heq in Hadd. exact Hadd. }
    destruct (copies_of_add_person k g t h k Hg K1 K2 K3) as [Hc Hi].
    rewrite <- Heq in Hc, Hi. simpl in Hc, Hi.
    rewrite decide_True in Hc by done. rewrite decide_True in Hi by done.
    destruct h as [[og tg] ht]. apply elem_of_hypotheses in Hh as (Hog & Htg & Hdisj & Hht & Hcons).
    simpl in *.
    assert (∀ X X' : gset string, X ⊆ dom people → (∀ x, x ≠ k → (x ∈ X' ↔ x ∈ X)) →
              X' ⊆ {[k]} ∪ dom people) as Hsub.
    { intros X X' HX HX' x Hx. apply elem_of_union.
      destruct (decide (x = k)) as [->|Hne]; [left; by apply elem_of_singleton |].
      right. apply HX. by apply HX'. }
    split; [apply (Hsub og); [done | intros x Hx; by apply Hsame] |].
    split; [apply (Hsub tg); [done | intros x Hx; by apply Hsame] |].
    split.
    { intros x Hx Hx'. destruct (decide (x = k)) as [->|Hne].
      - unfold copies_of, parent_in, is_in in Hc.
        rewrite (bool_decide_eq_true_2 _ Hx') in Hc. simpl in Hc. subst g.
        revert Heq. unfold add_person. simpl. intros [= Eog Etg _].
        subst og'. done.
      - apply (Hdisj x); by apply Hsame. }
    split; [apply (Hsub ht); [done | intros x Hx; by apply Hsame] |].
    split.
    + intros person r Hr. assert (person ≠ k) as Hne by congruence.
      destruct (Hcons person r Hr) as [Ht1 Hf1].
      rewrite elem_of_difference, elem_of_singleton.
      destruct (Hsame person Hne) as (_ & _ & Hp). rewrite Hp. tauto.
    + unfold is_in in Hi. by rewrite Hi.
Qed.

Lemma hypotheses_insert (people : gmap string Person) (k : string) (row : Person) :
  people !! k = None →
  hypotheses (<[k := row]> people)
  ≡ₚ allowed row ≫= λ t, gene_counts ≫= λ g, add_person k g t <$> hypotheses people.
Proof.
  intros Hk. apply NoDup_Permutation.
  - apply NoDup_hypotheses.
  - by apply NoDup_added.
  - intros y. by apply elem_of_added.
Qed.

(** ** The sums with one more person without parents *)

Lemma Qsum_fmap_scale_r {A : Type} (c : Q) (f : A → Q) (l : list A) :
  (Qsum ((λ x, f x * c) <$> l) == Qsum (f <$> l) * c)%Q.
Proof.
  induction l as [|x l IH]; [simpl; ring |]. rewrite !fmap_cons, !Qsum_cons, IH. ring.
Qed.

Lemma weighted_sum_add_founder (people : gmap string Person) (k : string) (row : Person)
    (ψ' ψ : gset string * gset string * gset string → Q) (χ : nat → bool → Q) :
  people !! k = None → founders (<[k := row]> people) →
  (∀ h g t, h ∈ hypotheses people → g ≤ 2 →
     (ψ' (add_person k g t h) == χ g t * ψ h)%Q) →
  (weighted_sum (<[k := row]> people) ψ'
   == Qsum ((λ t, Qsum ((λ g, χ g t * founder_weight g t) <$> gene_counts)) <$> allowed row)
      * weighted_sum people ψ)%Q.
Proof.
  intros Hk Hfound Hψ. unfold weighted_sum.
  rewrite (Qsum_Permutation _ _
             (fmap_Permutation _ _ _ (hypotheses_insert people k row Hk))).
  rewrite Qsum_fmap_bind, <- Qsum_fmap_scale_r. apply Qsum_fmap_ext. intros t _.
  rewrite Qsum_fmap_bind, <- Qsum_fmap_scale_r. apply Qsum_fmap_ext.
  intros g Hg%elem_of_copies.
  rewrite <- list_fmap_compose, <- Qsum_fmap_scale. apply Qsum_fmap_ext.
  intros h Hh. simpl.
  destruct (hypotheses_without _ _ _ Hk Hh) as (K1 & K2 & K3).
  rewrite (Hψ h g t Hh Hg).
  rewrite (joint_value_add_founder people k row g t h Hk Hfound Hg K1 K2 K3). ring.
Qed.

(** ** Pedigrees without recorded parents *)

Lemma founders_weighted_sums (people : gmap string Person) :
  founders people →
  ∀ x row, people !! x = Some row →
    ∃ W,
      (∀ copies, copies ≤ 2 →
         (weighted_sum people (gene_indicator x copies) == gene_mass row copies * W)%Q)
      ∧ (∀ has_trait,
           (weighted_sum people (trait_indicator x has_trait)
            == trait_mass row has_trait * W)%Q).
Proof.
  induction people as [|k rk people Hk IH] using map_ind; intros Hfound x row Hx.
  - by rewrite lookup_empty in Hx.
  - assert (founders people) as Hfound0.
    { intros y ry Hy. apply (Hfound y ry). rewrite lookup_insert_ne; [done |]. congruence. }
    destruct (decide (x = k)) as [->|Hne].
    + rewrite lookup_insert_eq in Hx. injection Hx as <-.
      exists (weighted_sum people (λ _, 1%Q)). split.
      * intros g0 Hg0.
        rewrite (weighted_sum_add_founder people k rk (gene_indicator k g0) (λ _, 1%Q)
                   (λ g _, if decide (g = g0) then 1%Q else 0%Q) Hk Hfound).
        -- apply Qmult_comp; [|reflexivity]. unfold gene_mass.
           apply Qsum_fmap_ext. intros t _. unfold gene_counts.
           destruct g0 as [|[|[|?]]]; try lia; simpl; ring.
        -- intros h g t Hh Hg. unfold gene_indicator.
           destruct (hypotheses_without _ _ _ Hk Hh) as (K1 & K2 & K3).
           destruct (copies_of_add_person k g t h k Hg K1 K2 K3) as [E _].
           rewrite decide_True in E by done. rewrite E. ring.
      * intros t0.
        rewrite (weighted_sum_add_founder people k rk (trait_indicator k t0) (λ _, 1%Q)
                   (λ _ t, if decide (t = t0) then 1%Q else 0%Q) Hk Hfound).
        -- apply Qmult_comp; [|reflexivity]. unfold trait_mass.
           apply Qsum_fmap_ext. intros t _. unfold gene_counts.
           destruct (decide (t = t0)); simpl; ring.
        -- intros h g t Hh Hg. unfold trait_indicator.
           destruct (hypotheses_without _ _ _ Hk Hh) as (K1 & K2 & K3).
           destruct (copies_of_add_person k g t h k Hg K1 K2 K3) as [_ E].
           rewrite decide_True in E by done. rewrite E. ring.
    + rewrite lookup_insert_ne in Hx by done.
      destruct (IH Hfound0 x row Hx) as (W & HgW & HtW).
      assert (Qsum ((λ t, Qsum ((λ g, 1 * founder_weight g t) <$> gene_counts)) <$> allowed rk)
              == row_mass rk)%Q as Hmass.
      { unfold row_mass. apply Qsum_fmap_ext. intros t _.
        apply Qsum_fmap_ext. intros g _. ring. }
      exists (row_mass rk * W)%Q. split.
      * intros g0 Hg0.
        rewrite (weighted_sum_add_founder people k rk (gene_indicator x g0)
                   (gene_indicator x g0) (λ _ _, 1%Q) Hk Hfound).
        -- rewrite Hmass, (HgW g0 Hg0). ring.
        -- intros h g t Hh Hg. unfold gene_indicator.
           destruct (hypotheses_without _ _ _ Hk Hh) as (K1 & K2 & K3).
           destruct (copies_of_add_person k g t h x Hg K1 K2 K3) as [E _].
           rewrite decide_False in E by done. rewrite E. ring.
      * intros t0.
        rewrite (weighted_sum_add_founder people k rk (trait_indicator x t0)
                   (trait_indicator x t0) (λ _ _, 1%Q) Hk Hfound).
        -- rewrite Hmass, (HtW t0). ring.
        -- intros h g t Hh Hg. unfold trait_indicator.
           destruct (hypotheses_without _ _ _ Hk Hh) as (K1 & K2 & K3).
           destruct (copies_of_add_person k g t h x Hg K1 K2 K3) as [_ E].
           rewrite decide_False in E by done. rewrite E. ring.
Qed.

Lemma founders_main (people : gmap string Person) (x : string) (row : Person) :
  founders people → people !! x = Some row →
  ∃ table d W,
    main people = Ok table ∧ table !! x = Some d
    ∧ (0 < (gene_mass row 2 + gene_mass row 1 + gene_mass row 0) * W)%Q
    ∧ (0 < (trait_mass row true + trait_mass row false) * W)%Q
    ∧ (∀ copies, copies ≤ 2 →
         (gene_cell copies d
          == gene_mass row copies * W
             / ((gene_mass row 2 + gene_mass row 1 + gene_mass row 0) * W))%Q)
    ∧ (∀ has_trait,
         (trait_cell has_trait d
          == trait_mass row has_trait * W
             / ((trait_mass row true + trait_mass row false) * W))%Q).
Proof.
  intros Hfound Hx.
  destruct (main_table_spec people) as (acc & total & table & Hrun & _ & Hpos & Hmain & Htable).
  destruct (main_table_dom people) as (table' & Hmain' & Hdom).
  assert (table' = table) as -> by congruence.
  assert (is_Some (table !! x)) as [d Hd].
  { apply elem_of_dom. rewrite Hdom. apply elem_of_dom. by exists row. }
  destruct (Htable x d Hd) as (a & Ha & Hgs & Hts & ->).
  destruct (accumulate_weighted_sums people) as (acc' & Hrun' & Hw).
  assert (acc' = acc) as -> by congruence.
  destruct (Hw x a Ha) as [Hg Ht].
  destruct (founders_weighted_sums people Hfound x row Hx) as (W & HgW & HtW).
  pose proof (Hg 2 ltac:(lia)) as G2. pose proof (Hg 1 ltac:(lia)) as G1.
  pose proof (Hg 0 ltac:(lia)) as G0.
  rewrite (HgW 2) in G2 by lia. rewrite (HgW 1) in G1 by lia. rewrite (HgW 0) in G0 by lia.
  pose proof (Ht true) as T1. pose proof (Ht false) as T0.
  rewrite (HtW true) in T1. rewrite (HtW false) in T0.
  cbn [gene_cell trait_cell] in G2, G1, G0, T1, T0.
  assert (gene_sum a == (gene_mass row 2 + gene_mass row 1 + gene_mass row 0) * W)%Q as HG.
  { unfold gene_sum. rewrite G2, G1, G0. ring. }
  assert (trait_sum a == (trait_mass row true + trait_mass row false) * W)%Q as HT.
  { unfold trait_sum. rewrite T1, T0. ring. }
  eexists table, _, W. split; [done |]. split; [exact Hd |].
  split; [by rewrite <- HG, Hgs |]. split; [by rewrite <- HT, Hts |]. split.
  - intros copies Hle. rewrite <- HG.
    destruct copies as [|[|[|?]]]; try lia; cbn [gene_cell gene_2 gene_1 gene_0].
    + by rewrite G0.
    + by rewrite G1.
    + by rewrite G2.
  - intros has_trait. rewrite <- HT.
    destruct has_trait; cbn [trait_cell trait_True trait_False].
    + by rewrite T1.
    + by rewrite T0.
Qed.

Lemma founder_masses (row : Person) :
  match trait row with
  | None =>
      (gene_mass row 2 == 0.01 ∧ gene_mass row 1 == 0.03 ∧ gene_mass row 0 == 0.96
       ∧ trait_mass row true == 0.0329 ∧ trait_mass row false == 0.9671)%Q
  | Some true =>
      (gene_mass row 2 == 0.0065 ∧ gene_mass row 1 == 0.0168 ∧ gene_mass row 0 == 0.0096
       ∧ trait_mass row true == 0.0329 ∧ trait_mass row false == 0)%Q
  | Some false =>
      (gene_mass row 2 == 0.0035 ∧ gene_mass row 1 == 0.0132 ∧ gene_mass row 0 == 0.9504
       ∧ trait_mass row true == 0 ∧ trait_mass row false == 0.9671)%Q
  end.
Proof.
  destruct row as [n mo fa [[|]|]]; cbn [trait]; repeat split; by vm_compute.
Qed.

(** X22: in a pedigree where no row records a parent, [main] returns for
    every person the posterior of that person alone, whoever else is in the
    pedigree: the prior [PROBS_gene] and the trait probabilities it implies
    when the trait is unknown, and Bayes' rule on [PROBS_gene] and
    [PROBS_trait] when the trait is observed. *)
Theorem founders_posterior (people : gmap string Person) (x : string) (row : Person) :
  founders people → people !! x = Some row →
  ∃ table d,
    main people = Ok table ∧ table !! x = Some d
    ∧ match trait row with
      | None =>
          (gene_2 d == 0.01 ∧ gene_1 d == 0.03 ∧ gene_0 d == 0.96
           ∧ trait_True d == 0.0329 ∧ trait_False d == 0.9671)%Q
      | Some true =>
          (gene_2 d == 0.0065 / 0.0329 ∧ gene_1 d == 0.0168 / 0.0329
           ∧ gene_0 d == 0.0096 / 0.0329
           ∧ trait_True d == 1 ∧ trait_False d == 0)%Q
      | Some false =>
          (gene_2 d == 0.0035 / 0.9671 ∧ gene_1 d == 0.0132 / 0.9671
           ∧ gene_0 d == 0.9504 / 0.9671
           ∧ trait_True d == 0 ∧ trait_False d == 1)%Q
      end.
Proof.
  intros Hfound Hx.
  destruct (founders_main people x row Hfound Hx)
    as (table & d & W & Hmain & Hd & HposG & HposT & Hg & Ht).
  exists table, d. split; [done |]. split; [done |].
  pose proof (Hg 2 ltac:(lia)) as G2. pose proof (Hg 1 ltac:(lia)) as G1.
  pose proof (Hg 0 ltac:(lia)) as G0.
  pose proof (Ht true) as T1. pose proof (Ht false) as T0.
  cbn [gene_cell trait_cell] in G2, G1, G0, T1, T0.
  pose proof (founder_masses row) as Hm.
  destruct (trait row) as [[|]|]; destruct Hm as (M2 & M1 & M0 & MT & MF);
    rewrite M2, M1, M0 in HposG, G2, G1, G0; rewrite MT, MF in HposT, T1, T0;
    (assert (0 < W)%Q as HW by lra);
    rewrite G2, G1, G0, T1, T0; repeat split; field; lra.
Qed.

Lemma founders_posterior_witness :
  ∃ table d,
    main unrelated = Ok table ∧ table !! "B" = Some d
    ∧ (gene_2 d == 0.0065 / 0.0329 ∧ gene_1 d == 0.0168 / 0.0329
       ∧ gene_0 d == 0.0096 / 0.0329
       ∧ trait_True d == 1 ∧ trait_False d == 0)%Q.
Proof.
  apply (founders_posterior unrelated "B" (mkPerson "B" None None (Some true))).
  - apply (bool_decide_unpack
             (map_Forall (λ _ row, mother row = None ∧ father row = None) unrelated)).
    by vm_compute.
  - reflexivity.
Defined.

(** ** update in binary64 *)

Lemma update_spec_binary64 (probabilities : gmap string Binary64.Dist)
    (one_gene two_genes have_trait : gset string) (p : float) :
  ∃ probabilities',
    Binary64.update probabilities one_gene two_genes have_trait p = Ok probabilities'
    ∧ ∀ person,
        probabilities' !! person
        = Binary64.update_entry one_gene two_genes have_trait p person
            <$> probabilities !! person.
Proof.
  destruct (entry_loop_keys
              (λ person d, Ok (Binary64.update_entry one_gene two_genes have_trait p person d))
              probabilities) as (d' & Hloop & Hsome & Hnone); [by eauto |].
  exists d'. split; [exact Hloop |]. intros person.
  destruct (probabilities !! person) as [d|] eqn:Hd; simpl.
  - destruct (Hsome person d Hd) as (v' & [= <-] & Hd'). done.
  - by apply Hnone.
Qed.

Lemma update_entry_binary64 (one_gene two_genes have_trait : gset string) (p : float)
    (person : string) (d : Binary64.Dist) :
  Binary64.update_entry one_gene two_genes have_trait p person d
  = let copies := copies_of one_gene two_genes (Some person) in
    let has_trait := is_in person have_trait in
    Binary64.mkDist
      (if decide (copies = 2) then (Binary64.gene_2 d + p)%float else Binary64.gene_2 d)
      (if decide (copies = 1) then (Binary64.gene_1 d + p)%float else Binary64.gene_1 d)
      (if decide (copies = 0) then (Binary64.gene_0 d + p)%float else Binary64.gene_0 d)
      (if has_trait then (Binary64.trait_True d + p)%float else Binary64.trait_True d)
      (if has_trait then Binary64.trait_False d else (Binary64.trait_False d + p)%float).
Proof.
  unfold Binary64.update_entry, copies_of, parent_in.
  by destruct (is_in person two_genes), (is_in person one_gene),
    (is_in person have_trait), d.
Qed.

Lemma update_all_spec_binary64 (calls : list Binary64.Call)
    (probabilities : gmap string Binary64.Dist) :
  ∃ probabilities',
    Binary64.update_all calls probabilities = Ok probabilities'
    ∧ ∀ person,
        probabilities' !! person
        = Binary64.after_calls person calls <$> probabilities !! person.
Proof.
  unfold Binary64.update_all. revert probabilities.
  induction calls as [|c calls IH]; intros probs.
  - exists probs. split; [done |]. intros person.
    destruct (probs !! person) as [[]|]; done.
  - destruct (update_spec_binary64 probs (Binary64.call_one_gene c)
                (Binary64.call_two_genes c) (Binary64.call_have_trait c)
                (Binary64.call_p c)) as (probs1 & Hupd & Hlook).
    cbn [for_loop]. rewrite Hupd. simpl.
    destruct (IH probs1) as (probs' & Hrun & Hlook').
    exists probs'. split; [done |]. intros person.
    rewrite Hlook', Hlook. destruct (probs !! person) as [d|]; [|done]. simpl.
    f_equal. rewrite update_entry_binary64.
    unfold Binary64.after_calls, Binary64.gene_total, Binary64.trait_total.
    cbn [foldl Binary64.gene_2 Binary64.gene_1 Binary64.gene_0
           Binary64.trait_True Binary64.trait_False].
    by destruct (is_in person (Binary64.call_have_trait c)).
Qed.

(** C10: every call of [update] adds [p], by one rounded addition each, to
    the gene cell of the person's gene count and to the trait cell of the
    person's trait value, for every person of the table, and keeps the other
    cells.  So after any calls the gene cells of a person are sums over
    three parts, and the trait cells sums over two parts, of one and the same
    sequence of values, each added from left to right. *)
Theorem update_adds_to_one_cell_of_each_group :
  (∀ (probabilities : gmap string Binary64.Dist)
     (one_gene two_genes have_trait : gset string) (p : float),
     ∃ probabilities',
       Binary64.update probabilities one_gene two_genes have_trait p = Ok probabilities'
       ∧ ∀ person,
           probabilities' !! person
           = (λ d,
                let copies := copies_of one_gene two_genes (Some person) in
                let has_trait := is_in person have_trait in
                Binary64.mkDist
                  (if decide (copies = 2)
                   then (Binary64.gene_2 d + p)%float else Binary64.gene_2 d)
                  (if decide (copies = 1)
                   then (Binary64.gene_1 d + p)%float else Binary64.gene_1 d)
                  (if decide (copies = 0)
                   then (Binary64.gene_0 d + p)%float else Binary64.gene_0 d)
                  (if has_trait
                   then (Binary64.trait_True d + p)%float else Binary64.trait_True d)
                  (if has_trait
                   then Binary64.trait_False d else (Binary64.trait_False d + p)%float))
             <$> probabilities !! person)
  ∧ (∀ (calls : list Binary64.Call) (probabilities : gmap string Binary64.Dist),
       ∃ probabilities',
         Binary64.update_all calls probabilities = Ok probabilities'
         ∧ ∀ person,
             probabilities' !! person
             = Binary64.after_calls person calls <$> probabilities !! person).
Proof.
  split.
  - intros probabilities one_gene two_genes have_trait p.
    destruct (update_spec_binary64 probabilities one_gene two_genes have_trait p)
      as (probabilities' & Hrun & Hlook).
    exists probabilities'. split; [done |]. intros person. rewrite Hlook.
    destruct (probabilities !! person) as [d|]; [|done]. simpl.
    by rewrite update_entry_binary64.
  - apply update_all_spec_binary64.
Qed.

(** The accumulators of a single person without parents or evidence, as
    [main] hands them to [normalize]: the gene cells add up to 1, the trait
    cells to the number below 1; and already after the first three calls of
    [update] the two sums differ. *)
Lemma sums_differ_for_a_single_person :
  Binary64.accumulate single
  = Ok {[ "A" := Binary64.mkDist 0.01 0.030000000000000002 0.96
                   0.0329 0.96709999999999985 ]}
  ∧ Binary64.gene_sum
      (Binary64.mkDist 0.01 0.030000000000000002 0.96 0.0329 0.96709999999999985)
    = 1%float
  ∧ Binary64.trait_sum
      (Binary64.mkDist 0.01 0.030000000000000002 0.96 0.0329 0.96709999999999985)
    = 0.99999999999999989%float
  ∧ (1 =? 0.99999999999999989)%float = false
  ∧ Binary64.accumulate single
    = Binary64.update_all (Binary64.single_calls ∅ ++ Binary64.single_calls {["A"]})
        {[ "A" := Binary64.zero_dist ]}
  ∧ ∃ d,
      Binary64.update_all (Binary64.single_calls ∅) {[ "A" := Binary64.zero_dist ]}
      = Ok {[ "A" := d ]}
      ∧ Binary64.gene_sum d = 0.96709999999999996%float
      ∧ Binary64.trait_sum d = 0.96709999999999985%float
      ∧ (Binary64.gene_sum d =? Binary64.trait_sum d)%float = false.
Proof.
  split; [by vm_compute |]. split; [by vm_compute |]. split; [by vm_compute |].
  split; [by vm_compute |]. split; [by vm_compute |].
  eexists. split; [by vm_compute |]. split; [by vm_compute |].
  split; by vm_compute.
Qed.


(** ** normalize in binary64 *)

Lemma positive_not_zero (s : float) : (0 <? s)%float = true → (s =? 0)%float = false.
Proof.
  intros H. rewrite FloatAxioms.ltb_spec in H. rewrite FloatAxioms.eqb_spec.
  change (Prim2SF 0) with (S754_zero false) in *.
  unfold SFltb, SFeqb, SFcompare in *. by destruct (Prim2SF s) as [[]|[]| |[]].
Qed.

Lemma normalize_entry_binary64 (d : Binary64.Dist) :
  Binary64.normalize_entry d
  = Ok (Binary64.mkDist
          (if (0 <? Binary64.gene_sum d)%float
           then (Binary64.gene_2 d / Binary64.gene_sum d)%float else Binary64.gene_2 d)
          (if (0 <? Binary64.gene_sum d)%float
           then (Binary64.gene_1 d / Binary64.gene_sum d)%float else Binary64.gene_1 d)
          (if (0 <? Binary64.gene_sum d)%float
           then (Binary64.gene_0 d / Binary64.gene_sum d)%float else Binary64.gene_0 d)
          (if (0 <? Binary64.trait_sum d)%float
           then (Binary64.trait_True d / Binary64.trait_sum d)%float
           else Binary64.trait_True d)
          (if (0 <? Binary64.trait_sum d)%float
           then (Binary64.trait_False d / Binary64.trait_sum d)%float
           else Binary64.trait_False d)).
Proof.
  unfold Binary64.normalize_entry, Binary64.normalize_gene, Binary64.normalize_trait,
    Binary64.divide.
  destruct (0 <? Binary64.gene_sum d)%float eqn:Hg.
  - rewrite (positive_not_zero _ Hg). simpl.
    change (Binary64.trait_sum (Binary64.mkDist _ _ _ (Binary64.trait_True d)
                                  (Binary64.trait_False d)))
      with (Binary64.trait_sum d).
    destruct (0 <? Binary64.trait_sum d)%float eqn:Ht; [|done].
    by rewrite (positive_not_zero _ Ht).
  - simpl. destruct (0 <? Binary64.trait_sum d)%float eqn:Ht; [|by destruct d].
    by rewrite (positive_not_zero _ Ht).
Qed.

Lemma normalize_spec_binary64 (probabilities : gmap string Binary64.Dist) :
  ∃ probabilities',
    Binary64.normalize probabilities = Ok probabilities'
    ∧ ∀ person,
        Ok <$> probabilities' !! person
        = Binary64.normalize_entry <$> probabilities !! person.
Proof.
  destruct (entry_loop_keys (λ _ d, Binary64.normalize_entry d) probabilities)
    as (d' & Hloop & Hsome & Hnone).
  { intros _ d. rewrite normalize_entry_binary64. eauto. }
  exists d'. split; [exact Hloop |]. intros person.
  destruct (probabilities !! person) as [d|] eqn:Hd; simpl.
  - destruct (Hsome person d Hd) as (v' & -> & ->). done.
  - by rewrite (Hnone person Hd).
Qed.




(** ** main in binary64 *)

Lemma joint_probability_returns_binary64 (people : gmap string Person)
    (one_gene two_genes have_trait : gset string) :
  ∃ q, Binary64.joint_probability people one_gene two_genes have_trait = Ok q.
Proof.
  unfold Binary64.joint_probability.
  destruct (for_loop_invariant (λ _, True)
              (λ joint_prob person,
                 person_prob ← Binary64.person_prob people one_gene two_genes
                                  have_trait person;
                 Ok (joint_prob * person_prob)%float)
              (keys people) 1%float) as (q & Hq & _); [done | | by exists q].
  intros q person [row Hrow]%elem_of_keys _.
  unfold Binary64.person_prob. rewrite (subscript_Ok _ _ _ Hrow). simpl.
  pose proof (copies_of_cases one_gene two_genes (Some person)) as Hle.
  assert (∃ g, Binary64.gene_factor one_gene two_genes person row = Ok g) as [g ->].
  { unfold Binary64.gene_factor.
    destruct (bool_decide (mother row = None) && bool_decide (father row = None));
      [|by eauto].
    destruct (copies_of one_gene two_genes (Some person)) as [|[|[|?]]];
      simpl; eauto; lia. }
  simpl.
  assert (∃ t, Binary64.PROBS_trait (copies_of one_gene two_genes (Some person))
                 (is_in person have_trait) = Ok t) as [t ->].
  { destruct (copies_of one_gene two_genes (Some person)) as [|[|[|?]]],
      (is_in person have_trait); simpl; eauto; lia. }
  simpl. eauto.
Qed.

Lemma gene_loops_binary64 (people : gmap string Person) (names have_trait : gset string)
    (probabilities : gmap string Binary64.Dist) :
  ∃ probabilities',
    Binary64.gene_loops people names have_trait probabilities = Ok probabilities'
    ∧ dom probabilities' = dom probabilities.
Proof.
  unfold Binary64.gene_loops.
  apply (for_loop_invariant (λ t, dom t = dom probabilities)); [done |].
  intros t one_gene _ Ht.
  apply (for_loop_invariant (λ t, dom t = dom probabilities)); [done |].
  intros t' two_genes _ Ht'.
  destruct (joint_probability_returns_binary64 people one_gene two_genes have_trait)
    as [p ->]. simpl.
  destruct (update_spec_binary64 t' one_gene two_genes have_trait p)
    as (t'' & -> & Hlook).
  exists t''. split; [done |]. rewrite <- Ht'. apply set_eq. intros person.
  rewrite !elem_of_dom, Hlook. by rewrite fmap_is_Some.
Qed.

Lemma accumulate_binary64 (people : gmap string Person) :
  ∃ probabilities,
    Binary64.accumulate people = Ok probabilities ∧ dom probabilities = dom people.
Proof.
  unfold Binary64.accumulate.
  apply (for_loop_invariant (λ t : gmap string Binary64.Dist, dom t = dom people));
    [by rewrite dom_fmap_L |].
  intros t have_trait _ Ht. unfold Binary64.trait_step.
  destruct (fails_evidence_spec people have_trait) as (b & -> & _). simpl.
  destruct b; [by eauto |].
  destruct (gene_loops_binary64 people (dom people) have_trait t) as (t' & -> & Ht').
  exists t'. split; [done |]. by rewrite Ht'.
Qed.

(** X24: in binary64 too [main] raises nothing, for every pedigree: no
    lookup fails and no sum that is 0 is divided by; the table that it
    returns has the people of the pedigree as its keys. *)
Theorem main_never_raises_in_binary64 (people : gmap string Person) :
  ∃ table, Binary64.main people = Ok table ∧ dom table = dom people.
Proof.
  unfold Binary64.main.
  destruct (accumulate_binary64 people) as (probabilities & -> & Hdom). simpl.
  destruct (normalize_spec_binary64 probabilities) as (table & -> & Hlook).
  exists table. split; [done |]. rewrite <- Hdom. apply set_eq. intros person.
  rewrite !elem_of_dom. specialize (Hlook person).
  by destruct (probabilities !! person) as [d|], (table !! person) as [d'|].
Qed.
